(** * GaloisField.py: a shallow embedding and its verified properties

    The Python module computes in GF(2^m): a table of all field elements in
    polynomial form is built from a primitive polynomial, elements are handled
    in integer representation (0 for the zero element, e+1 for alpha^e), and
    polynomials over the field are numpy arrays of such integers, low
    coefficient first.

    Modelling choices.
    - numpy arrays and Python lists are [list Z]; every array of the program
      holds integer-valued numbers (float arrays only ever receive the
      results of [int(...)]).
    - Exponents are Python numbers that may be the floats inf, -inf and nan:
      type [pynum].
    - Exceptions are values of the [result] type; a [while] loop runs on
      fuel and reports [OutOfFuel] when the fuel is exhausted before the
      loop condition turns false.
    - Machine limits (memory, float range of huge ints) are not modelled. *)

From Stdlib Require Import ZArith List Lia Bool.
From stdpp Require Import base list sorting gmap.
Import ListNotations.

Local Open Scope Z_scope.

(** ** Exceptions and results *)

Inductive pyerror : Type :=
| ZeroDivisionError
| ValueError
| IndexError
| AssertionError.

Inductive result (A : Type) : Type :=
| Ok (a : A)
| Raise (e : pyerror)
| OutOfFuel.

Arguments Ok {A} a.
Arguments Raise {A} e.
Arguments OutOfFuel {A}.

Definition bind {A B : Type} (r : result A) (k : A -> result B) : result B :=
  match r with
  | Ok a => k a
  | Raise e => Raise e
  | OutOfFuel => OutOfFuel
  end.

Notation "'let*' x ':=' e 'in' k" := (bind e (fun x => k))
  (at level 10, x pattern, e at level 100, k at level 200).

(** Sequential loops over a range: [for x in xs: st = body st x]. *)
Fixpoint foldM {A S : Type} (body : S -> A -> result S) (xs : list A) (st : S)
  : result S :=
  match xs with
  | [] => Ok st
  | x :: xs' => let* st' := body st x in foldM body xs' st'
  end.

(** A loop that fills a fresh array cell by cell: [for i in xs: out[i] = f i]. *)
Fixpoint mapM {A B : Type} (f : A -> result B) (xs : list A) : result (list B) :=
  match xs with
  | [] => Ok []
  | x :: xs' => let* y := f x in let* ys := mapM f xs' in Ok (y :: ys)
  end.

(** [a[i]] on an array or list: IndexError out of range (indices here are
    never negative). *)
Definition idx {A : Type} (l : list A) (i : nat) : result A :=
  match l !! i with
  | Some x => Ok x
  | None => Raise IndexError
  end.

(** ** Python numbers that may be infinite or nan *)

Inductive pynum : Type :=
| Int (z : Z)
| PInf
| NInf
| NaN.

Definition INF : pynum := PInf.

Definition num_neg (x : pynum) : pynum :=
  match x with
  | Int z => Int (- z)
  | PInf => NInf
  | NInf => PInf
  | NaN => NaN
  end.

Definition num_add (x y : pynum) : pynum :=
  match x, y with
  | Int a, Int b => Int (a + b)
  | NaN, _ | _, NaN => NaN
  | PInf, NInf | NInf, PInf => NaN
  | PInf, _ | _, PInf => PInf
  | NInf, _ | _, NInf => NInf
  end.

Definition num_sub (x y : pynum) : pynum := num_add x (num_neg y).

Definition num_mul (x y : pynum) : pynum :=
  match x, y with
  | Int a, Int b => Int (a * b)
  | NaN, _ | _, NaN => NaN
  | Int a, PInf | PInf, Int a =>
      if a =? 0 then NaN else if 0 <? a then PInf else NInf
  | Int a, NInf | NInf, Int a =>
      if a =? 0 then NaN else if 0 <? a then NInf else PInf
  | PInf, PInf | NInf, NInf => PInf
  | PInf, NInf | NInf, PInf => NInf
  end.

Definition num_eqb (x y : pynum) : bool :=
  match x, y with
  | Int a, Int b => a =? b
  | PInf, PInf | NInf, NInf => true
  | _, _ => false
  end.

(** ** Polynomial utilities *)

(** [np.trim_zeros(c, 'f')]: drop the leading zeros. *)
Fixpoint trim_zeros_f (c : list Z) : list Z :=
  match c with
  | 0 :: r => trim_zeros_f r
  | _ => c
  end.

(** The coefficients kept by [np.poly1d]: leading zeros dropped, and [[0]]
    when nothing is left. *)
Definition poly1d_coeffs (c : list Z) : list Z :=
  match trim_zeros_f c with
  | [] => [0]
  | c' => c'
  end.

(** [degree(p)]: [np.poly1d(np.flipud(p)).order]. *)
Definition degree (p : list Z) : nat :=
  (length (poly1d_coeffs (rev p)) - 1)%nat.

(** [X(i)]: the monomial X^i. *)
Definition X (i : nat) : list Z := <[i := 1]> (replicate (i + 1) 0).

(** [p[:degree(p) + 1]]: remove dangling zeros. *)
Definition trim (p : list Z) : list Z := take (degree p + 1) p.

(** [np.pad(p, (0, n - p.size), 'constant', constant_values = 0)]: a negative
    pad width is a ValueError. *)
Definition pad_to (n : nat) (p : list Z) : result (list Z) :=
  if (n <? length p)%nat then Raise ValueError
  else Ok (p ++ replicate (n - length p) 0).

(** [a + b] on arrays, with numpy's broadcasting of a one-element array. *)
Definition np_add (a b : list Z) : result (list Z) :=
  if (length a =? length b)%nat then Ok (zip_with Z.add a b)
  else match a, b with
       | [x], _ => Ok (map (Z.add x) b)
       | _, [y] => Ok (map (fun x => x + y) a)
       | _, _ => Raise ValueError
       end.

Definition list_Z_eqb (a b : list Z) : bool := bool_decide (a = b).

Definition count_nonzero (b : list Z) : nat :=
  length (filter (fun x => x <> 0) b).

(** ** The field engine *)

Record GaloisField : Type := {
  _p : list Z;
  _cachedPolyElements : list (list Z)
}.

Module GF.

Section Engine.

Variable self : GaloisField.

Definition p : list Z := _p self.
Definition m : nat := degree p.
Definition q : Z := Z.of_nat (length (_cachedPolyElements self)).
Definition elementsAsPoly : list (list Z) := _cachedPolyElements self.

(** [element(a)]: a float nan or inf reaches [int(nan)], a ValueError; the
    modulus is a ZeroDivisionError when q = 1. *)
Definition element (a : pynum) : result Z :=
  match a with
  | Int z =>
      if z =? 0 then Ok z
      else if q - 1 =? 0 then Raise ZeroDivisionError
      else Ok ((z - 1) mod (q - 1) + 1)
  | _ => if q - 1 =? 0 then Raise ZeroDivisionError else Raise ValueError
  end.

Definition elementToExp (a : Z) : result pynum :=
  let* a := element (Int a) in
  if a =? 0 then Ok (num_neg INF)
  else Ok (Int (a - 1)).

Definition elementFromExp (exp_a : pynum) : result Z :=
  if num_eqb exp_a INF || num_eqb exp_a (num_neg INF) then Ok 0
  else element (num_add exp_a (Int 1)).

Definition elementToPoly (a : Z) (size_m : bool) : result (list Z) :=
  let* a := element (Int a) in
  let* poly_a := idx elementsAsPoly (Z.to_nat a) in
  if size_m then pad_to m poly_a else Ok poly_a.

(** The linear search of [elementFromPoly]: first index whose trimmed entry
    equals the trimmed argument. *)
Fixpoint find_poly (poly_a : list Z) (tbl : list (list Z)) (i : Z) : result Z :=
  match tbl with
  | [] => Raise AssertionError
  | poly_i :: tbl' =>
      if list_Z_eqb (trim poly_i) poly_a then Ok i
      else find_poly poly_a tbl' (i + 1)
  end.

Definition elementFromPoly (poly_a : list Z) : result Z :=
  if (degree p <? degree poly_a)%nat then Raise AssertionError
  else find_poly (trim poly_a) elementsAsPoly 0.

Definition addElements (a b : Z) : result Z :=
  let* poly_a := elementToPoly a true in
  let* poly_b := elementToPoly b true in
  let* s := np_add poly_a poly_b in
  elementFromPoly (map (fun x => x mod 2) s).

Definition multElements (a b : Z) : result Z :=
  let* exp_a := elementToExp a in
  let* exp_b := elementToExp b in
  elementFromExp (num_add exp_a exp_b).

Definition divElements (a b : Z) : result Z :=
  let* exp_a := elementToExp a in
  let* exp_b := elementToExp b in
  elementFromExp (num_sub exp_a exp_b).

Definition powElement (a : Z) (exponent : Z) : result Z :=
  let* exp_a := elementToExp a in
  elementFromExp (num_mul exp_a (Int exponent)).

(** ** Polynomials over the field *)

(** [i > a.size - 1] is written [length a <= i]. *)
Definition addPoly (a b : list Z) : result (list Z) :=
  let summ_degree := Nat.max (degree a) (degree b) in
  mapM (fun i =>
          if (length a <=? i)%nat then idx b i
          else if (length b <=? i)%nat then idx a i
          else let* x := idx a i in
               let* y := idx b i in
               addElements x y)
       (seq 0 (summ_degree + 1)).

Definition multPoly_step (a b : list Z) (i : nat) (product : list Z) (j : nat)
  : result (list Z) :=
  let* x := idx a i in
  let* y := idx b j in
  let* product_tmp := multElements x y in
  let* c := idx product (i + j) in
  let* s := addElements c product_tmp in
  Ok (<[(i + j)%nat := s]> product).

Definition multPoly (a b : list Z) : result (list Z) :=
  let product_max_degree := (degree a + degree b)%nat in
  let product := replicate (product_max_degree + 1) 0 in
  let* product :=
    foldM (fun product i =>
             foldM (multPoly_step a b i) (seq 0 (degree b + 1)) product)
          (seq 0 (degree a + 1)) product in
  Ok (trim product).

(** One pass through the body of the [while] loop of [divmodPoly]. *)
Definition divmodPoly_body (b : list Z) (st : list Z * list Z)
  : result (list Z * list Z) :=
  let '(a, q) := st in
  let exp_a := degree a in
  let exp_b := degree b in
  let* coeff_element_a := idx a exp_a in
  let* coeff_element_b := idx b exp_b in
  let* d := divElements coeff_element_a coeff_element_b in
  let multiplier :=
    <[(exp_a - exp_b)%nat := d]> (replicate (degree a - degree b + 1) 0) in
  let* subtrahend := multPoly b multiplier in
  let* a := addPoly a subtrahend in
  let* q := addPoly q multiplier in
  Ok (a, q).

Fixpoint divmodPoly_loop (fuel : nat) (b : list Z) (st : list Z * list Z)
  : result (list Z * list Z) :=
  if (degree (fst st) <? degree b)%nat then Ok st
  else match fuel with
       | O => OutOfFuel
       | S fuel' =>
           let* st' := divmodPoly_body b st in
           divmodPoly_loop fuel' b st'
       end.

(** [divmodPoly(a, b)] returns [[q, remainder]]. *)
Definition divmodPoly (fuel : nat) (a b : list Z)
  : result (list Z * list Z) :=
  if (count_nonzero b =? 0)%nat then Raise AssertionError
  else
    let* st := divmodPoly_loop fuel b (a, []) in
    Ok (snd st, fst st).

(** ** Conjugate roots *)

(** The [while True] loop of [conjugateRoots]; [l] is the counter before
    the increment. *)
Fixpoint conjugateRoots_loop (fuel : nat) (root l : Z) (roots : list Z)
  : result (list Z) :=
  match fuel with
  | O => OutOfFuel
  | S fuel' =>
      let l := l + 1 in
      let* new_root := powElement root (2 ^ l) in
      let roots := roots ++ [new_root] in
      if new_root =? root then Ok roots
      else conjugateRoots_loop fuel' root l roots
  end.

Definition conjugateRoots (fuel : nat) (root : Z) : result (list Z) :=
  let* roots := conjugateRoots_loop fuel root 0 [] in
  Ok (merge_sort Z.le roots).

(** [group not in groups] compares lists with [==]. *)
Definition conjugateRootGroups (fuel : nat) : result (list (list Z)) :=
  foldM (fun groups i =>
           let* group := conjugateRoots fuel (Z.of_nat i) in
           if existsb (list_Z_eqb group) groups then Ok groups
           else Ok (groups ++ [group]))
        (seq 0 (2 ^ m - 1)) [[0]].

(** ** Division, factors and evaluation *)

Definition divPoly (fuel : nat) (a b : list Z) : result (list Z) :=
  let* qr := divmodPoly fuel a b in
  Ok (fst qr).

Definition modPoly (fuel : nat) (a b : list Z) : result (list Z) :=
  let* qr := divmodPoly fuel a b in
  Ok (snd qr).

Definition isFactor (fuel : nat) (p factorPoly : list Z) : result bool :=
  let* remainder := modPoly fuel p factorPoly in
  Ok (count_nonzero remainder =? 0)%nat.

(** The body of the loop of [substituteElementIntoPoly]. *)
Definition substitute_step (p : list Z) (a : Z) (res : Z) (i : nat)
  : result Z :=
  let* tmp := powElement a (Z.of_nat i) in
  let* c := idx p i in
  let* tmp := multElements tmp c in
  addElements res tmp.

Definition substituteElementIntoPoly (p : list Z) (a : Z) : result Z :=
  foldM (substitute_step p a) (seq 0 (length p)) 0.

(** [roots(p)]: the Chien search over [range(1, self.q())]. *)
Definition roots (p : list Z) : result (list Z) :=
  foldM (fun roots element =>
           let* res := substituteElementIntoPoly p (Z.of_nat element) in
           if res =? 0 then Ok (roots ++ [Z.of_nat element]) else Ok roots)
        (seq 1 (Z.to_nat q - 1)) [].

(** [minimalPolynomial(roots)]: the product of the (root + X). *)
Definition minimalPolynomial (roots : list Z) : result (list Z) :=
  foldM (fun res root => multPoly res [root; 1]) roots [1].

(** The loop of [irreducible(p)] over the table entries (non-verbose). *)
Fixpoint irreducible_loop (fuel : nat) (p : list Z) (tbl : list (list Z))
  : result bool :=
  match tbl with
  | [] => Ok true
  | factorPoly :: tbl' =>
      if negb ((0 <? degree factorPoly)%nat && (degree factorPoly <? m)%nat)
      then irreducible_loop fuel p tbl'
      else
        let* f := isFactor fuel p factorPoly in
        if f then Ok false else irreducible_loop fuel p tbl'
  end.

Definition irreducible (fuel : nat) (p : list Z) : result bool :=
  irreducible_loop fuel p elementsAsPoly.

(** The loop of [primitive(p)] over [n in range(1, 2**m-1)]. *)
Fixpoint primitive_loop (fuel : nat) (p : list Z) (ns : list nat)
  : result bool :=
  match ns with
  | [] => Ok true
  | n :: ns' =>
      let* p2 := addPoly (X 0) (X n) in
      let* f := isFactor fuel p2 p in
      if f then Ok false else primitive_loop fuel p ns'
  end.

Definition primitive (fuel : nat) (p : list Z) : result bool :=
  let* irr := irreducible fuel p in
  if negb irr then Ok false
  else primitive_loop fuel p (seq 1 (2 ^ m - 2)).

End Engine.

End GF.

(** ** The table constructor *)

(** The global [GF2 = GaloisField()]: its table is the [m == 1] branch of
    [constructGF], which does not use [GF2] itself. *)
Definition GF2 : GaloisField :=
  {| _p := [1; 1]; _cachedPolyElements := [[0]; [1]] |}.

(** The inner [while degree(poly) >= m] loop.  Each pass shortens [poly] by
    at least one cell, so the caller provides [length poly] as fuel; lemma
    [constructGF_fuel] shows that this fuel is never exhausted. *)
Fixpoint constructGF_reduce (fuel m : nat) (elements : list (list Z))
  (poly : list Z) : result (list Z) :=
  if (degree poly <? m)%nat then Ok poly
  else match fuel with
       | O => OutOfFuel
       | S fuel' =>
           let* e := idx elements (degree poly + 1) in
           let* poly := GF.addPoly GF2 poly e in
           constructGF_reduce fuel' m elements (removelast poly)
       end.

(** The body of the [for i in range(0, 2**m)] loop up to the formatted
    polynomial that is appended to [elements]. *)
Definition constructGF_entry (m : nat) (a_high : list Z)
  (elements : list (list Z)) (i : nat) : result (list Z) :=
  let exp := if (i =? 0)%nat then [0] else X (i - 1) in
  let poly := exp in
  let* poly :=
    if (m <=? degree poly)%nat then
      if (m =? 0)%nat then Raise ZeroDivisionError
      else
        let quotient := (degree poly / m)%nat in
        let remainder := (degree poly mod m)%nat in
        let poly := X remainder in
        let* poly :=
          foldM (fun poly _ => GF.multPoly GF2 poly a_high)
                (seq 0 quotient) poly in
        constructGF_reduce (length poly) m elements poly
    else Ok poly in
  let poly := trim poly in
  pad_to m poly.

Definition constructGF (p : list Z) : result (list (list Z)) :=
  let m := degree p in
  if (m =? 1)%nat then Ok [[0]; [1]]
  else
    let a_high := take m p in
    foldM (fun elements i =>
             let* poly := constructGF_entry m a_high elements i in
             Ok (elements ++ [poly]))
          (seq 0 (2 ^ m)) [].

(** [GaloisField.__init__]. *)
Definition GaloisField_init (p : list Z) : result GaloisField :=
  let* elements := constructGF p in
  Ok {| _p := p; _cachedPolyElements := elements |}.

(** ** Lists as shared objects

    [removeConjugateRoots] works on the list object it is given: Python
    variables hold references.  A heap maps locations to list values; a
    location handed to the program is allocated (an unallocated one reads as
    the empty list). *)

Definition loc : Type := nat.

Definition deref (h : gmap nat (list Z)) (r : loc) : list Z :=
  default [] (h !! r).

(** [l.remove(x)] when [x in l]: the first occurrence goes. *)
Fixpoint list_remove (x : Z) (l : list Z) : list Z :=
  match l with
  | [] => []
  | y :: l' => if y =? x then l' else y :: list_remove x l'
  end.

Section RootStructure.

Variable self : GaloisField.

(** [if conjugateRoot in result: result.remove(conjugateRoot)], with [res]
    the reference held by the variable [result]. *)
Definition strike (res : loc) (h : gmap nat (list Z)) (conjugateRoot : Z)
  : gmap nat (list Z) :=
  if existsb (Z.eqb conjugateRoot) (deref h res)
  then <[res := list_remove conjugateRoot (deref h res)]> h
  else h.

(** [for root in roots]: the list iterator keeps an index [k] into the
    object at [roots] and stops when [k] reaches its current length. *)
Fixpoint removeConjugateRoots_loop (n fuel : nat) (roots res : loc)
  (k : nat) (h : gmap nat (list Z)) : result (gmap nat (list Z)) :=
  match deref h roots !! k with
  | None => Ok h
  | Some root =>
      match n with
      | O => OutOfFuel
      | S n' =>
          let* conjugateRoots := GF.conjugateRoots self fuel root in
          let h := fold_left (strike res) (drop 1 conjugateRoots) h in
          removeConjugateRoots_loop n' fuel roots res (k + 1) h
      end
  end.

(** Returns the heap after the call and the returned reference. *)
Definition removeConjugateRoots (fuel : nat) (h : gmap nat (list Z))
  (roots : loc) : result (gmap nat (list Z) * loc) :=
  let res := roots in
  let* h := removeConjugateRoots_loop fuel fuel roots res 0 h in
  Ok (h, res).

End RootStructure.

(** * Sample fields *)

Definition p16 : list Z := [1; 1; 0; 0; 1].

Definition GF16 : GaloisField :=
  {| _p := p16;
     _cachedPolyElements :=
       ltac:(let t := eval vm_compute in
               (match constructGF p16 with Ok t => t | _ => [] end) in
             exact t) |}.

Definition GF4 : GaloisField :=
  {| _p := [1; 1; 1]; _cachedPolyElements := [[0; 0]; [1; 0]; [0; 1]; [1; 1]] |}.

(** A polynomial is trimmed when its length is its degree plus one: no
    zero above the leading coefficient, the zero polynomial being [[0]]. *)
Definition trimmed (l : list Z) : Prop := length l = (degree l + 1)%nat.

(** ** GF(2)[X] modulo p, as bit masks

    The reference against which the table is checked.  A residue of
    GF(2)[X] modulo [p] is the number whose bit [j] is the coefficient of
    X^j; multiplying by X shifts by one bit and subtracts (xors) [p] when
    the degree reaches that of [p]. *)

Definition bit (x : Z) : Prop := x = 0 \/ x = 1.

Definition binary (l : list Z) : Prop := Forall bit l.

Definition binaryb (l : list Z) : bool :=
  forallb (fun x => (x =? 0) || (x =? 1)) l.

(** The coefficient of X^i, zero beyond the end of the array. *)
Definition coef (l : list Z) (i : nat) : Z := default 0 (l !! i).

Fixpoint N_of_bits (l : list Z) : N :=
  match l with
  | [] => 0%N
  | c :: r => (2 * N_of_bits r + N.b2n (negb (Z.eqb c 0%Z)))%N
  end.

Definition bits_of (width : nat) (v : N) : list Z :=
  map (fun j => Z.b2z (N.testbit v (N.of_nat j))) (seq 0 width).

Section Quotient.

Variable p : list Z.

Definition xtime (v : N) : N :=
  let s := N.double v in
  if N.testbit s (N.of_nat (degree p)) then N.lxor s (N_of_bits p) else s.

(** X^n * v modulo p. *)
Definition shift (n : nat) (v : N) : N := Nat.iter n xtime v.

(** alpha^k = X^k modulo p. *)
Definition alpha_pow (k : nat) : N := shift k 1%N.

(** [p] is primitive: it has 0/1 coefficients, degree m >= 1, and X has
    multiplicative order exactly 2^m - 1 modulo [p]. *)
Definition primitiveb : bool :=
  binaryb p
  && (1 <=? degree p)%nat
  && (alpha_pow (2 ^ degree p - 1) =? 1)%N
  && forallb (fun n => negb (alpha_pow n =? 1)%N)
             (seq 1 (2 ^ degree p - 2)).

(** The table the constructor is meant to build: the zero vector, then the
    powers alpha^0 .. alpha^(2^m - 2) as coefficient vectors of width m. *)
Definition power_table : list (list Z) :=
  replicate (degree p) 0
  :: map (fun k => bits_of (degree p) (alpha_pow k))
         (seq 0 (2 ^ degree p - 1)).

End Quotient.

(** [c * v] for a coefficient [c] of GF(2). *)
Definition scale (c : Z) (v : N) : N := if c =? 0 then 0%N else v.

Section Evaluation.

Variable p : list Z.

(** The sum over i < n of f(i) * X^i * v modulo p: the polynomial with
    coefficient function [f] acting on the residue [v]. *)
Fixpoint act (n : nat) (f : nat -> Z) (v : N) : N :=
  match n with
  | O => 0%N
  | S n' => N.lxor (act n' f v) (scale (f n') (shift p n' v))
  end.

(** The residue modulo p of a polynomial given by its coefficient array. *)
Definition ev (l : list Z) : N := act (length l) (coef l) 1%N.

End Evaluation.

(** Bit [j] of a residue, indexed by a natural number. *)
Definition tb (v : N) (j : nat) : bool := N.testbit v (N.of_nat j).

Arguments tb : simpl never.

(** Residues modulo p have no bit at or above position m = degree(p). *)
Definition small (p : list Z) (v : N) : Prop :=
  forall j, (degree p <= j)%nat -> tb v j = false.

(** ** Shapes used in the statements below *)

(** What the two components of the loop state of [divmodPoly] can be:
    the initial pair, or two results of [addPoly]. *)
Definition divmod_state_shape (F : GaloisField) (a0 : list Z)
  (st : list Z * list Z) : Prop :=
  st = (a0, [])
  \/ exists a s q mu,
       GF.addPoly F a s = Ok (fst st) /\ GF.addPoly F q mu = Ok (snd st).

(** Stored lists only shrink at [res]; every other location is untouched. *)
Definition shrinks_at (res : loc) (h h' : gmap nat (list Z)) : Prop :=
  (forall l : nat, l <> res -> h' !! l = h !! l)
  /\ sublist (deref h' res) (deref h res).

(** Whether the evaluation at [e] returns the zero element. *)
Definition is_root (F : GaloisField) (p : list Z) (e : nat) : bool :=
  match GF.substituteElementIntoPoly F p (Z.of_nat e) with
  | Ok r => r =? 0
  | _ => false
  end.

(** The residue modulo p denoted by the integer [a] in a field built from
    [p]: 0 for the zero element, alpha^e for the element of exponent e. *)
Definition val (p : list Z) (a : Z) : N :=
  if a =? 0 then 0%N
  else alpha_pow p (Z.to_nat ((a - 1) mod (2 ^ Z.of_nat (degree p) - 1))).

(** The l-th conjugate of an element: root^(2^l), as [powElement] computes
    it in a field of q elements. *)
Definition conjugate (F : GaloisField) (root l : Z) : Z :=
  if root =? 0 then 0 else ((root - 1) * 2 ^ l) mod (GF.q F - 1) + 1.

(** * Properties *)

(** ** The result monad *)

Lemma bind_Ok {A B : Type} (e : result A) (k : A -> result B) (r : B) :
  bind e k = Ok r <-> exists x, e = Ok x /\ k x = Ok r.
Proof.
  destruct e; simpl; split; try (intros [x [H1 H2]]); try discriminate; eauto.
  injection H1 as ->. exact H2.
Qed.

Ltac inv_bind H :=
  lazymatch type of H with
  | bind _ _ = Ok _ =>
      let x := fresh "x" in
      let E := fresh "E" in
      apply bind_Ok in H; destruct H as [x [E H]]
  end.

Lemma idx_Ok {A : Type} (l : list A) (i : nat) (x : A) :
  idx l i = Ok x <-> l !! i = Some x.
Proof.
  unfold idx. destruct (l !! i); split; intros H; try discriminate; congruence.
Qed.

Lemma mapM_length {A B : Type} (f : A -> result B) (xs : list A) (ys : list B) :
  mapM f xs = Ok ys -> length ys = length xs.
Proof.
  revert ys. induction xs as [|x xs IH]; simpl; intros ys H.
  - injection H as <-. reflexivity.
  - inv_bind H. inv_bind H. injection H as <-. simpl. f_equal. eauto.
Qed.

Lemma foldM_invariant {A S : Type} (P : S -> Prop) (body : S -> A -> result S)
  (xs : list A) (st st' : S) :
  (forall s x s', P s -> body s x = Ok s' -> P s') ->
  P st -> foldM body xs st = Ok st' -> P st'.
Proof.
  intros Hbody. revert st. induction xs as [|x xs IH]; simpl; intros st HP H.
  - injection H as <-. exact HP.
  - inv_bind H. eauto.
Qed.

Lemma foldM_app {A S : Type} (body : S -> A -> result S) (xs ys : list A) (st : S) :
  foldM body (xs ++ ys) st = bind (foldM body xs st) (foldM body ys).
Proof.
  revert st. induction xs as [|x xs IH]; simpl; intros st; [reflexivity|].
  destruct (body st x); simpl; auto.
Qed.

(** ** Degree and trimming *)

Lemma trim_zeros_f_cons (x : Z) (l : list Z) :
  trim_zeros_f (x :: l) = if x =? 0 then trim_zeros_f l else x :: l.
Proof. destruct x; reflexivity. Qed.

Lemma degree_nil : degree [] = 0%nat.
Proof. reflexivity. Qed.

Lemma degree_snoc (l : list Z) (x : Z) :
  degree (l ++ [x]) = if x =? 0 then degree l else length l.
Proof.
  unfold degree, poly1d_coeffs. rewrite rev_app_distr.
  change (rev [x] ++ rev l) with (x :: rev l). rewrite trim_zeros_f_cons.
  destruct (x =? 0); [reflexivity|].
  simpl. rewrite length_rev. lia.
Qed.

Lemma degree_lt_length (l : list Z) : l <> [] -> (degree l < length l)%nat.
Proof.
  induction l as [|x l IH] using rev_ind; [congruence|]. intros _.
  rewrite degree_snoc, length_app. simpl.
  destruct (x =? 0); [|lia].
  destruct l as [|y l]; [rewrite degree_nil; simpl; lia|].
  assert (y :: l <> []) by congruence. specialize (IH H). lia.
Qed.

Lemma degree_le_length (l : list Z) : (degree l <= length l - 1)%nat.
Proof.
  destruct l as [|x l]; [reflexivity|].
  assert (x :: l <> []) by congruence.
  pose proof (degree_lt_length _ H). lia.
Qed.

(** Above the degree every coefficient is zero. *)
Lemma lookup_above_degree (l : list Z) (k : nat) (c : Z) :
  (degree l < k)%nat -> l !! k = Some c -> c = 0.
Proof.
  revert k c. induction l as [|x l IH] using rev_ind; intros k c Hk Hl.
  - discriminate.
  - rewrite degree_snoc in Hk.
    destruct (Z.eqb_spec x 0) as [->|Hx].
    + destruct (decide (k < length l)%nat) as [Hlt|Hge].
      * rewrite lookup_app_l in Hl by exact Hlt. eauto.
      * rewrite lookup_app_r in Hl by lia.
        destruct (k - length l)%nat as [|j]; [|destruct j]; cbn in Hl; congruence.
    + apply lookup_lt_Some in Hl. rewrite length_app in Hl. simpl in Hl. lia.
Qed.

(** A positive degree points at a nonzero coefficient. *)
Lemma lookup_at_degree (l : list Z) :
  (0 < degree l)%nat -> exists c, l !! degree l = Some c /\ c <> 0.
Proof.
  induction l as [|x l IH] using rev_ind; intros Hd.
  - rewrite degree_nil in Hd. lia.
  - rewrite degree_snoc in *.
    destruct (Z.eqb_spec x 0) as [->|Hx].
    + destruct (IH Hd) as [c [Hc Hnz]]. exists c. split; [|exact Hnz].
      rewrite lookup_app_l; [exact Hc|]. eapply lookup_lt_Some; eauto.
    + exists x. split; [|exact Hx].
      rewrite lookup_app_r by lia. rewrite Nat.sub_diag. reflexivity.
Qed.

(** The degree is the index of the last nonzero coefficient. *)
Lemma degree_unique (l : list Z) (d : nat) (c : Z) :
  l !! d = Some c -> c <> 0 ->
  (forall k x, (d < k)%nat -> l !! k = Some x -> x = 0) ->
  degree l = d.
Proof.
  intros Hd Hc Habove.
  destruct (lt_eq_lt_dec (degree l) d) as [[Hlt|Heq]|Hgt]; [|exact Heq|].
  - exfalso. apply Hc. apply (lookup_above_degree l d c); [lia | exact Hd].
  - exfalso. destruct (lookup_at_degree l) as [x [Hx Hnz]]; [lia|].
    apply Hnz. apply (Habove (degree l) x); [lia | exact Hx].
Qed.

Lemma degree_zero_iff (l : list Z) :
  degree l = 0%nat <->
  (forall k x, (0 < k)%nat -> l !! k = Some x -> x = 0).
Proof.
  split.
  - intros H k x Hk Hl. apply (lookup_above_degree l k x); [lia | exact Hl].
  - intros H. destruct (degree l) as [|d] eqn:E; [reflexivity|]. exfalso.
    destruct (lookup_at_degree l) as [x [Hx Hnz]]; [lia|].
    apply Hnz. eapply H; [|exact Hx]. lia.
Qed.

Lemma degree_replicate (n : nat) : degree (replicate n 0) = 0%nat.
Proof.
  apply degree_zero_iff. intros k x _ H.
  apply lookup_replicate in H. tauto.
Qed.

Lemma length_trim (l : list Z) : l <> [] -> length (trim l) = (degree l + 1)%nat.
Proof.
  intros H. unfold trim. rewrite length_take.
  pose proof (degree_lt_length l H). lia.
Qed.

Lemma degree_take (l : list Z) (n : nat) :
  (degree l < n)%nat -> degree (take n l) = degree l.
Proof.
  intros Hn. destruct (degree l) as [|d] eqn:E.
  - apply degree_zero_iff. intros k x Hk Hx.
    apply lookup_take_Some in Hx as [Hx _].
    apply (lookup_above_degree l k x); [lia | exact Hx].
  - destruct (lookup_at_degree l) as [c [Hc Hnz]]; [lia|]. rewrite E in Hc.
    eapply degree_unique; [| exact Hnz |].
    + rewrite lookup_take_lt by lia. exact Hc.
    + intros k x Hk Hx. apply lookup_take_Some in Hx as [Hx _].
      apply (lookup_above_degree l k x); [lia | exact Hx].
Qed.

Lemma degree_trim (l : list Z) : degree (trim l) = degree l.
Proof. unfold trim. apply degree_take. lia. Qed.

Lemma trim_trimmed (l : list Z) : l <> [] -> trimmed (trim l).
Proof.
  intros H. unfold trimmed. rewrite degree_trim. apply length_trim, H.
Qed.

(** ** The table has 2^m entries *)

Lemma foldM_append_length {A B : Type} (g : list B -> A -> result B)
  (xs : list A) (st t : list B) :
  foldM (fun elements i => let* x := g elements i in Ok (elements ++ [x])) xs st
    = Ok t ->
  length t = (length st + length xs)%nat.
Proof.
  revert st. induction xs as [|x xs IH]; simpl; intros st H.
  - injection H as <-. lia.
  - inv_bind H. inv_bind E. injection E as <-.
    apply IH in H. rewrite length_app in H. simpl in H. lia.
Qed.

Lemma constructGF_length (p : list Z) (t : list (list Z)) :
  constructGF p = Ok t ->
  (1 <= degree p)%nat /\ length t = (2 ^ degree p)%nat.
Proof.
  unfold constructGF. intros H.
  destruct (Nat.eqb_spec (degree p) 1) as [E|E].
  - injection H as <-. rewrite E. simpl. lia.
  - destruct (degree p) as [|d] eqn:Ed.
    + exfalso. simpl in H. unfold constructGF_entry in H. simpl in H.
      discriminate.
    + split; [lia|]. apply foldM_append_length in H.
      rewrite length_seq in H. exact H.
Qed.

Lemma GaloisField_init_q (p : list Z) (F : GaloisField) :
  GaloisField_init p = Ok F ->
  _p F = p /\ (1 <= degree p)%nat /\ GF.q F = 2 ^ Z.of_nat (degree p)
  /\ 2 <= GF.q F.
Proof.
  unfold GaloisField_init. intros H. inv_bind H. injection H as <-.
  apply constructGF_length in E as [Hd Hl]. unfold GF.q. simpl.
  rewrite Hl. split; [reflexivity|]. split; [exact Hd|].
  rewrite Nat2Z.inj_pow. split; [reflexivity|].
  change 2 with (2 ^ 1) at 1. apply Z.pow_le_mono_r; lia.
Qed.

Lemma GaloisField_init_GF2 : GaloisField_init [1; 1] = Ok GF2.
Proof. reflexivity. Qed.

Lemma GaloisField_init_GF4 : GaloisField_init [1; 1; 1] = Ok GF4.
Proof. reflexivity. Qed.

Lemma GaloisField_init_GF16 : GaloisField_init p16 = Ok GF16.
Proof. vm_compute. reflexivity. Qed.

(** ** Element arithmetic *)

Section ElementFacts.

Variable F : GaloisField.
Hypothesis Hq : 2 <= GF.q F.

Lemma element_Int (a : Z) :
  GF.element F (Int a) =
  Ok (if a =? 0 then 0 else (a - 1) mod (GF.q F - 1) + 1).
Proof.
  unfold GF.element. destruct (Z.eqb_spec a 0) as [->|Ha]; [reflexivity|].
  destruct (Z.eqb_spec (GF.q F - 1) 0); [lia|reflexivity].
Qed.

Lemma element_range (a r : Z) :
  GF.element F (Int a) = Ok r ->
  0 <= r < GF.q F /\ (a <> 0 -> 1 <= r <= GF.q F - 1) /\ (a = 0 -> r = 0).
Proof.
  rewrite element_Int. intros H. injection H as <-.
  destruct (Z.eqb_spec a 0) as [->|Ha].
  - split; [lia|]. split; [congruence|reflexivity].
  - pose proof (Z.mod_pos_bound (a - 1) (GF.q F - 1)). lia.
Qed.

Lemma element_canonical_id (a : Z) :
  0 <= a < GF.q F -> GF.element F (Int a) = Ok a.
Proof.
  intros Ha. rewrite element_Int. destruct (Z.eqb_spec a 0) as [->|Hn].
  - reflexivity.
  - rewrite Z.mod_small by lia. f_equal. lia.
Qed.

Lemma element_NaN : GF.element F NaN = Raise ValueError.
Proof.
  unfold GF.element. destruct (Z.eqb_spec (GF.q F - 1) 0); [lia|reflexivity].
Qed.

Lemma elementToExp_zero : GF.elementToExp F 0 = Ok NInf.
Proof. reflexivity. Qed.

Lemma elementToExp_nonzero (a : Z) :
  a <> 0 ->
  GF.elementToExp F a = Ok (Int ((a - 1) mod (GF.q F - 1))).
Proof.
  intros Ha. unfold GF.elementToExp. rewrite element_Int.
  destruct (Z.eqb_spec a 0); [contradiction|]. simpl.
  pose proof (Z.mod_pos_bound (a - 1) (GF.q F - 1)).
  destruct (Z.eqb_spec ((a - 1) mod (GF.q F - 1) + 1) 0); [lia|].
  do 2 f_equal. lia.
Qed.

Lemma elementFromExp_Int (e : Z) :
  exists r, GF.elementFromExp F (Int e) = Ok r /\ 0 <= r < GF.q F.
Proof.
  unfold GF.elementFromExp, INF. cbn [num_eqb num_neg orb num_add].
  rewrite element_Int. eexists. split; [reflexivity|].
  destruct (e + 1 =? 0); [lia|].
  pose proof (Z.mod_pos_bound (e + 1 - 1) (GF.q F - 1)). lia.
Qed.

(** Every power but 0^0 is a canonical element. *)
Lemma powElement_total (a n : Z) :
  a <> 0 \/ 0 < n ->
  exists r, GF.powElement F a n = Ok r /\ 0 <= r < GF.q F.
Proof.
  intros H. unfold GF.powElement.
  destruct (Z.eq_dec a 0) as [->|Ha].
  - rewrite elementToExp_zero. simpl.
    destruct (Z.eqb_spec n 0); [lia|].
    destruct (Z.ltb_spec 0 n); [|lia].
    exists 0. split; [reflexivity|lia].
  - rewrite elementToExp_nonzero by exact Ha. cbn [bind num_mul].
    apply elementFromExp_Int.
Qed.

End ElementFacts.



(** C1 as stated fails: dividing the nonzero element 5 of GF(16) by the zero
    element returns 0 and raises nothing. *)
Lemma divElements_zero_divisor_counterexample :
  GF.divElements GF16 5 0 = Ok 0
  /\ ~ (exists e, GF.divElements GF16 5 0 = Raise e).
Proof.
  split; [reflexivity|]. intros [e H]. vm_compute in H. discriminate.
Qed.

(** C1, amended: for every nonzero integer [a], [divElements(a, 0)] in a
    constructed field returns the zero element 0: the exponent difference is
    +infinity, which [elementFromExp] maps to 0, and no error is raised. *)
Theorem divElements_zero_divisor (p0 : list Z) (F : GaloisField) (a : Z) :
  GaloisField_init p0 = Ok F ->
  a <> 0 ->
  GF.divElements F a 0 = Ok 0.
Proof.
  intros Hinit Ha. apply GaloisField_init_q in Hinit as (_ & _ & _ & Hq).
  unfold GF.divElements. rewrite (elementToExp_nonzero F Hq a Ha).
  reflexivity.
Qed.

Lemma divElements_zero_divisor_witness :
  GaloisField_init p16 = Ok GF16 /\ 5 <> 0 /\ GF.divElements GF16 5 0 = Ok 0.
Proof.
  split; [vm_compute; reflexivity|]. split; [lia|].
  apply (divElements_zero_divisor p16 GF16 5); [vm_compute; reflexivity|lia].
Defined.

(** C6 fails at 0^0: in every constructed field [powElement(0, 0)] raises a
    ValueError, because the exponent -inf * 0 is nan and [int(nan)] is not
    defined. *)
Theorem powElement_zero_zero (p0 : list Z) (F : GaloisField) :
  GaloisField_init p0 = Ok F ->
  GF.powElement F 0 0 = Raise ValueError.
Proof.
  intros Hinit. apply GaloisField_init_q in Hinit as (_ & _ & _ & Hq).
  unfold GF.powElement. rewrite elementToExp_zero.
  cbn [bind num_mul Z.eqb]. unfold GF.elementFromExp.
  cbn [num_eqb orb num_add INF num_neg]. apply element_NaN, Hq.
Qed.

Lemma powElement_zero_zero_witness :
  GaloisField_init p16 = Ok GF16 /\ GF.powElement GF16 0 0 = Raise ValueError.
Proof.
  split; [vm_compute; reflexivity|].
  apply (powElement_zero_zero p16 GF16). vm_compute. reflexivity.
Defined.

(** ** Division of polynomials *)

Lemma divmodPoly_loop_stuck (fuel : nat) :
  GF.divmodPoly_loop GF2 fuel [1] ([0], [1]) = OutOfFuel.
Proof.
  induction fuel as [|fuel IH]; [reflexivity|].
  change (GF.divmodPoly_loop GF2 (S fuel) [1] ([0], [1]))
    with (bind (GF.divmodPoly_body GF2 [1] ([0], [1]))
               (GF.divmodPoly_loop GF2 fuel [1])).
  replace (GF.divmodPoly_body GF2 [1] ([0], [1])) with (Ok ([0], [1]))
    by (vm_compute; reflexivity).
  exact IH.
Qed.

(** C2 fails for a constant divisor: over GF(2), [divmodPoly([1], [1])]
    never leaves its loop.  After the first pass the state is a = [0],
    q = [1]; the test degree(a) >= degree(b) reads 0 >= 0 and the pass
    leaves the state unchanged, so no amount of fuel is enough. *)
Theorem divmodPoly_constant_divisor_diverges (fuel : nat) :
  GF.divmodPoly GF2 fuel [1] [1] = OutOfFuel
  /\ GF.divmodPoly_body GF2 [1] ([1], []) = Ok ([0], [1])
  /\ GF.divmodPoly_body GF2 [1] ([0], [1]) = Ok ([0], [1])
  /\ (degree [0%Z] <? degree [1%Z])%nat = false.
Proof.
  split; [|repeat split; vm_compute; reflexivity].
  unfold GF.divmodPoly.
  replace (count_nonzero [1%Z] =? 0)%nat with false by (vm_compute; reflexivity).
  destruct fuel as [|fuel]; [reflexivity|].
  change (GF.divmodPoly_loop GF2 (S fuel) [1] ([1], []))
    with (bind (GF.divmodPoly_body GF2 [1] ([1], []))
               (GF.divmodPoly_loop GF2 fuel [1])).
  replace (GF.divmodPoly_body GF2 [1] ([1], [])) with (Ok ([0], [1]))
    by (vm_compute; reflexivity).
  cbn [bind]. rewrite divmodPoly_loop_stuck. reflexivity.
Qed.

(** The loop is also stuck when the quotient of the leading coefficients
    has exponent -1: [divElements(1, 2)] computes the exponent 0 - 1 = -1,
    [elementFromExp] adds 1 and [element(0)] answers the zero element, so
    the multiplier is zero and a pass changes nothing.  Over GF(16),
    [divmodPoly([0, 1], [0, 2])] (X divided by alpha X) never returns. *)
Lemma divmodPoly_loop_stuck_GF16 (fuel : nat) :
  GF.divmodPoly_loop GF16 fuel [0; 2] ([0; 1], [0]) = OutOfFuel.
Proof.
  induction fuel as [|fuel IH]; [reflexivity|].
  change (GF.divmodPoly_loop GF16 (S fuel) [0; 2] ([0; 1], [0]))
    with (bind (GF.divmodPoly_body GF16 [0; 2] ([0; 1], [0]))
               (GF.divmodPoly_loop GF16 fuel [0; 2])).
  replace (GF.divmodPoly_body GF16 [0; 2] ([0; 1], [0]))
    with (Ok ([0; 1], [0])) by (vm_compute; reflexivity).
  exact IH.
Qed.

Lemma divmodPoly_exponent_minus_one_diverges (fuel : nat) :
  GF.divElements GF16 1 2 = Ok 0
  /\ GF.divmodPoly GF16 fuel [0; 1] [0; 2] = OutOfFuel.
Proof.
  split; [reflexivity|]. unfold GF.divmodPoly.
  replace (count_nonzero [0%Z; 2%Z] =? 0)%nat with false
    by (vm_compute; reflexivity).
  destruct fuel as [|fuel]; [reflexivity|].
  change (GF.divmodPoly_loop GF16 (S fuel) [0; 2] ([0; 1], []))
    with (bind (GF.divmodPoly_body GF16 [0; 2] ([0; 1], []))
               (GF.divmodPoly_loop GF16 fuel [0; 2])).
  replace (GF.divmodPoly_body GF16 [0; 2] ([0; 1], []))
    with (Ok ([0; 1], [0])) by (vm_compute; reflexivity).
  cbn [bind]. rewrite divmodPoly_loop_stuck_GF16. reflexivity.
Qed.

(** C3 fails when no reduction step runs: over GF(2), [divmodPoly([1],
    [0, 1])] returns the empty array as quotient and [1] as remainder, and
    [multPoly] of the empty quotient with the divisor raises an IndexError
    instead of contributing the zero polynomial. *)
Theorem divmodPoly_empty_quotient (fuel : nat) :
  GF.divmodPoly GF2 fuel [1] [0; 1] = Ok ([], [1])
  /\ GF.multPoly GF2 [] [0; 1] = Raise IndexError.
Proof.
  split; [|vm_compute; reflexivity].
  destruct fuel; vm_compute; reflexivity.
Qed.

(** C4 fails for GF(2): the loop over [range(0, 2**m - 1)] visits only the
    integer 0, so [conjugateRootGroups()] returns [[0]] and the element 1
    belongs to no group. *)
Theorem conjugateRootGroups_GF2 (fuel : nat) :
  GF.conjugateRootGroups GF2 (S fuel) = Ok [[0]]
  /\ GF.q GF2 = 2
  /\ forallb (fun g => negb (existsb (Z.eqb 1) g)) [[0]] = true.
Proof.
  split; [|split; reflexivity].
  unfold GF.conjugateRootGroups.
  change (seq 0 (2 ^ GF.m GF2 - 1)) with (cons 0%nat nil).
  cbn [foldM]. unfold GF.conjugateRoots.
  cbn [GF.conjugateRoots_loop]. vm_compute. reflexivity.
Qed.

(** ** Lengths of the polynomial results *)

Lemma addPoly_length (F : GaloisField) (a b r : list Z) :
  GF.addPoly F a b = Ok r ->
  length r = (Nat.max (degree a) (degree b) + 1)%nat.
Proof.
  unfold GF.addPoly. intros H. apply mapM_length in H.
  rewrite length_seq in H. exact H.
Qed.

Lemma multPoly_step_length (F : GaloisField) (a b : list Z) (i j : nat)
  (product product' : list Z) :
  GF.multPoly_step F a b i product j = Ok product' ->
  length product' = length product.
Proof.
  unfold GF.multPoly_step. intros H. repeat inv_bind H.
  injection H as <-. apply length_insert.
Qed.

Lemma multPoly_loops_length (F : GaloisField) (a b : list Z) (ixs jxs : list nat)
  (product product' : list Z) :
  foldM (fun product i => foldM (GF.multPoly_step F a b i) jxs product)
        ixs product = Ok product' ->
  length product' = length product.
Proof.
  intros H.
  apply (foldM_invariant (fun s => length s = length product) _ _ _ _)
    in H; [exact H| |reflexivity].
  intros s i s' Hs Hi. rewrite <- Hs.
  apply (foldM_invariant (fun t => length t = length s) _ _ _ _)
    in Hi; [exact Hi| |reflexivity].
  intros t j t' Ht Hj. rewrite <- Ht. eapply multPoly_step_length, Hj.
Qed.

Lemma multPoly_trimmed (F : GaloisField) (a b r : list Z) :
  GF.multPoly F a b = Ok r -> trimmed r.
Proof.
  unfold GF.multPoly. intros H. inv_bind H. injection H as <-.
  apply trim_trimmed. apply multPoly_loops_length in E.
  rewrite length_replicate in E. intros ->. simpl in E. lia.
Qed.

Lemma divmodPoly_loop_shape (F : GaloisField) (fuel : nat) (a0 b : list Z)
  (st st' : list Z * list Z) :
  divmod_state_shape F a0 st ->
  GF.divmodPoly_loop F fuel b st = Ok st' ->
  divmod_state_shape F a0 st'.
Proof.
  revert st. induction fuel as [|fuel IH]; intros st Hst H; simpl in H.
  - destruct (degree (fst st) <? degree b)%nat; [|discriminate].
    injection H as <-. exact Hst.
  - destruct (degree (fst st) <? degree b)%nat.
    + injection H as <-. exact Hst.
    + inv_bind H. apply (IH x); [|exact H].
      right. destruct st as [a q]. unfold GF.divmodPoly_body in E.
      repeat inv_bind E. injection E as <-. simpl. eauto 10.
Qed.




(** ** removeConjugateRoots works on the caller's list object *)

Lemma list_remove_sublist (x : Z) (l : list Z) : sublist (list_remove x l) l.
Proof.
  induction l as [|y l IH]; simpl; [constructor|].
  destruct (y =? x); [apply sublist_cons; reflexivity|].
  apply sublist_skip, IH.
Qed.

Section RemoveFacts.

Variable F : GaloisField.
Variable res : loc.

Lemma shrinks_at_refl (h : gmap nat (list Z)) : shrinks_at res h h.
Proof. split; [reflexivity|reflexivity]. Qed.

Lemma shrinks_at_trans (h1 h2 h3 : gmap nat (list Z)) :
  shrinks_at res h1 h2 -> shrinks_at res h2 h3 -> shrinks_at res h1 h3.
Proof.
  intros [A1 B1] [A2 B2]. split.
  - intros l Hl. rewrite A2, A1 by exact Hl. reflexivity.
  - etrans; eassumption.
Qed.

Lemma strike_shrinks (h : gmap nat (list Z)) (c : Z) :
  shrinks_at res h (strike res h c).
Proof.
  unfold strike. destruct (existsb (Z.eqb c) (deref h res)).
  - split.
    + intros l Hl. apply lookup_insert_ne. congruence.
    + unfold deref at 1. rewrite lookup_insert_eq. simpl.
      apply list_remove_sublist.
  - apply shrinks_at_refl.
Qed.

Lemma fold_strike_shrinks (cs : list Z) (h : gmap nat (list Z)) :
  shrinks_at res h (fold_left (strike res) cs h).
Proof.
  revert h. induction cs as [|c cs IH]; intros h; simpl.
  - apply shrinks_at_refl.
  - eapply shrinks_at_trans; [apply strike_shrinks|apply IH].
Qed.

Lemma removeConjugateRoots_loop_shrinks (n fuel : nat) (roots : loc) (k : nat)
  (h h' : gmap nat (list Z)) :
  removeConjugateRoots_loop F n fuel roots res k h = Ok h' ->
  shrinks_at res h h'.
Proof.
  revert k h. induction n as [|n IH]; intros k h H; simpl in H.
  - destruct (deref h roots !! k); [discriminate|].
    injection H as <-. apply shrinks_at_refl.
  - destruct (deref h roots !! k) as [root|].
    + inv_bind H. eapply shrinks_at_trans; [|eapply IH, H].
      apply fold_strike_shrinks.
    + injection H as <-. apply shrinks_at_refl.
Qed.

End RemoveFacts.



(** ** Residues modulo p as bit masks *)

Lemma bit_cases (x : Z) : bit x -> x = 0 \/ x = 1.
Proof. exact (fun H => H). Qed.

Lemma bit_mod2 (x : Z) : bit (x mod 2).
Proof.
  unfold bit. pose proof (Z.mod_pos_bound x 2). lia.
Qed.

Lemma binaryb_binary (l : list Z) : binaryb l = true <-> binary l.
Proof.
  unfold binaryb, binary, bit. rewrite forallb_forall, Forall_forall.
  split; intros H x Hx.
  - apply list_elem_of_In in Hx. specialize (H x Hx). lia.
  - apply list_elem_of_In in Hx. specialize (H x Hx). lia.
Qed.

Lemma binary_lookup (l : list Z) (i : nat) (x : Z) :
  binary l -> l !! i = Some x -> bit x.
Proof.
  intros H Hl. unfold binary in H. rewrite Forall_lookup in H. eauto.
Qed.

Lemma coef_bit (l : list Z) (i : nat) : binary l -> bit (coef l i).
Proof.
  intros H. unfold coef. destruct (l !! i) as [x|] eqn:E; simpl.
  - eapply binary_lookup; eauto.
  - left. reflexivity.
Qed.

Lemma coef_lookup (l : list Z) (i : nat) (x : Z) :
  l !! i = Some x -> coef l i = x.
Proof. unfold coef. intros ->. reflexivity. Qed.

Lemma coef_ge (l : list Z) (i : nat) : (length l <= i)%nat -> coef l i = 0.
Proof.
  intros H. unfold coef. rewrite lookup_ge_None_2 by exact H. reflexivity.
Qed.

Lemma coef_above_degree (l : list Z) (i : nat) :
  (degree l < i)%nat -> coef l i = 0.
Proof.
  intros H. unfold coef. destruct (l !! i) as [x|] eqn:E; [|reflexivity].
  simpl. eapply lookup_above_degree; eauto.
Qed.

Lemma double_lxor (u v : N) :
  N.double (N.lxor u v) = N.lxor (N.double u) (N.double v).
Proof.
  rewrite !N.double_spec. apply N.bits_inj. intros n.
  rewrite N.lxor_spec.
  destruct (N.eq_dec n 0%N) as [->|Hn].
  - rewrite !N.testbit_even_0. reflexivity.
  - rewrite <- (N.succ_pred n Hn). rewrite !N.double_bits_succ.
    apply N.lxor_spec.
Qed.

Section QuotientFacts.

Variable p : list Z.

Lemma xtime_0 : xtime p 0 = 0%N.
Proof. reflexivity. Qed.

Lemma xtime_lxor (u v : N) :
  xtime p (N.lxor u v) = N.lxor (xtime p u) (xtime p v).
Proof.
  unfold xtime. cbv zeta. rewrite double_lxor, N.lxor_spec.
  destruct (N.testbit (N.double u) _), (N.testbit (N.double v) _); simpl.
  - rewrite N.lxor_assoc.
    rewrite (N.lxor_comm (N_of_bits p) (N.lxor (N.double v) (N_of_bits p))).
    rewrite (N.lxor_assoc (N.double v)), N.lxor_nilpotent, N.lxor_0_r.
    reflexivity.
  - rewrite !N.lxor_assoc. f_equal. apply N.lxor_comm.
  - rewrite N.lxor_assoc. reflexivity.
  - reflexivity.
Qed.

Lemma shift_0 (n : nat) : shift p n 0 = 0%N.
Proof.
  induction n as [|n IH]; [reflexivity|].
  unfold shift in *. rewrite Nat.iter_succ, IH. reflexivity.
Qed.

Lemma shift_S (n : nat) (v : N) : shift p (S n) v = xtime p (shift p n v).
Proof. reflexivity. Qed.

Lemma shift_lxor (n : nat) (u v : N) :
  shift p n (N.lxor u v) = N.lxor (shift p n u) (shift p n v).
Proof.
  induction n as [|n IH]; [reflexivity|].
  rewrite !shift_S, IH. apply xtime_lxor.
Qed.

Lemma shift_add (a b : nat) (v : N) :
  shift p (a + b) v = shift p a (shift p b v).
Proof. apply Nat.iter_add. Qed.

Lemma shift_comm (a b : nat) (v : N) :
  shift p a (shift p b v) = shift p b (shift p a v).
Proof. rewrite <- !shift_add. f_equal. lia. Qed.

Lemma shift_scale (n : nat) (c : Z) (v : N) :
  shift p n (scale c v) = scale c (shift p n v).
Proof. unfold scale. destruct (c =? 0); [apply shift_0|reflexivity]. Qed.

Lemma scale_0_r (c : Z) : scale c 0 = 0%N.
Proof. unfold scale. destruct (c =? 0); reflexivity. Qed.

Lemma scale_xor (c d : Z) (v : N) :
  bit c -> bit d ->
  scale ((c + d) mod 2) v = N.lxor (scale c v) (scale d v).
Proof.
  intros [-> | ->] [-> | ->]; unfold scale; simpl.
  - reflexivity.
  - rewrite N.lxor_0_l. reflexivity.
  - rewrite N.lxor_0_r. reflexivity.
  - rewrite N.lxor_nilpotent. reflexivity.
Qed.

Lemma scale_mul (c d : Z) (v : N) :
  bit c -> bit d -> scale (c * d) v = scale c (scale d v).
Proof. intros [-> | ->] [-> | ->]; reflexivity. Qed.

Lemma scale_lxor (c : Z) (u v : N) :
  scale c (N.lxor u v) = N.lxor (scale c u) (scale c v).
Proof. unfold scale. destruct (c =? 0); reflexivity. Qed.

Lemma act_ext (n : nat) (f g : nat -> Z) (v : N) :
  (forall i, (i < n)%nat -> f i = g i) -> act p n f v = act p n g v.
Proof.
  induction n as [|n IH]; intros H; simpl; [reflexivity|].
  rewrite IH by (intros i Hi; apply H; lia). rewrite (H n) by lia.
  reflexivity.
Qed.

Lemma act_extend (n n' : nat) (f : nat -> Z) (v : N) :
  (n <= n')%nat -> (forall i, (n <= i < n')%nat -> f i = 0) ->
  act p n' f v = act p n f v.
Proof.
  intros Hle. induction Hle as [|n' Hle IH]; intros H; [reflexivity|].
  simpl. rewrite (H n') by lia. unfold scale at 1. simpl.
  rewrite N.lxor_0_r. apply IH. intros i Hi. apply H. lia.
Qed.

Lemma act_zero (n : nat) (f : nat -> Z) (v : N) :
  (forall i, (i < n)%nat -> f i = 0) -> act p n f v = 0%N.
Proof.
  intros H. rewrite (act_extend 0 n); [reflexivity|lia|].
  intros i Hi. apply H. lia.
Qed.

Lemma act_xor (n : nat) (f g : nat -> Z) (v : N) :
  (forall i, (i < n)%nat -> bit (f i) /\ bit (g i)) ->
  act p n (fun i => (f i + g i) mod 2) v
  = N.lxor (act p n f v) (act p n g v).
Proof.
  induction n as [|n IH]; intros H; simpl; [reflexivity|].
  rewrite IH by (intros i Hi; apply H; lia).
  destruct (H n) as [Hf Hg]; [lia|]. rewrite scale_xor by assumption.
  rewrite !N.lxor_assoc. f_equal.
  rewrite <- !N.lxor_assoc. f_equal. apply N.lxor_comm.
Qed.

Lemma act_update (n k : nat) (f : nat -> Z) (t : Z) (v : N) :
  (k < n)%nat -> bit (f k) -> bit t ->
  act p n (fun i => if (i =? k)%nat then (f i + t) mod 2 else f i) v
  = N.lxor (act p n f v) (scale t (shift p k v)).
Proof.
  intros Hk Hf Ht. induction n as [|n IH]; [lia|]. simpl.
  destruct (Nat.eqb_spec n k) as [->|Hne].
  - rewrite (act_ext k _ f).
    + rewrite scale_xor by assumption. symmetry. apply N.lxor_assoc.
    + intros i Hi. destruct (Nat.eqb_spec i k); [lia|reflexivity].
  - rewrite IH by lia. rewrite !N.lxor_assoc. f_equal. apply N.lxor_comm.
Qed.

Lemma shift_act (k n : nat) (f : nat -> Z) (v : N) :
  shift p k (act p n f v) = act p n f (shift p k v).
Proof.
  induction n as [|n IH]; simpl; [apply shift_0|].
  rewrite shift_lxor, IH, shift_scale, shift_comm. reflexivity.
Qed.

Lemma act_scale (n : nat) (f : nat -> Z) (c : Z) (v : N) :
  act p n f (scale c v) = scale c (act p n f v).
Proof.
  unfold scale. destruct (c =? 0); [|reflexivity].
  induction n as [|n IH]; simpl; [reflexivity|].
  rewrite IH, shift_0, scale_0_r. reflexivity.
Qed.

End QuotientFacts.

(** ** Arithmetic of the global GF(2) field *)

Lemma GF2_addElements (x y : Z) :
  bit x -> bit y -> GF.addElements GF2 x y = Ok ((x + y) mod 2).
Proof. intros [-> | ->] [-> | ->]; reflexivity. Qed.

Lemma GF2_multElements (x y : Z) :
  bit x -> bit y -> GF.multElements GF2 x y = Ok (x * y).
Proof. intros [-> | ->] [-> | ->]; reflexivity. Qed.

Lemma bit_mul (x y : Z) : bit x -> bit y -> bit (x * y).
Proof. intros [-> | ->] [-> | ->]; [left|left|left|right]; reflexivity. Qed.

Lemma bit_mod2_id (x : Z) : bit x -> x mod 2 = x.
Proof. intros [-> | ->]; reflexivity. Qed.

Lemma mapM_map {A B : Type} (f : A -> result B) (g : A -> B) (xs : list A) :
  (forall x, In x xs -> f x = Ok (g x)) -> mapM f xs = Ok (map g xs).
Proof.
  induction xs as [|x xs IH]; intros H; simpl; [reflexivity|].
  rewrite (H x) by (left; reflexivity). simpl.
  rewrite IH by (intros y Hy; apply H; right; exact Hy). reflexivity.
Qed.

Lemma idx_coef (l : list Z) (i : nat) :
  (i < length l)%nat -> idx l i = Ok (coef l i).
Proof.
  intros H. unfold idx, coef.
  destruct (lookup_lt_is_Some_2 l i H) as [x ->]. reflexivity.
Qed.

Lemma degree_nil_le (l : list Z) (i : nat) :
  (length l <= i)%nat -> (degree l <= i)%nat.
Proof. pose proof (degree_le_length l). lia. Qed.

(** Over GF(2) [addPoly] is the coefficientwise sum modulo 2, cut at the
    larger degree. *)
Lemma addPoly_GF2 (a b : list Z) :
  binary a -> binary b -> a <> [] \/ b <> [] ->
  GF.addPoly GF2 a b
  = Ok (map (fun i => (coef a i + coef b i) mod 2)
            (seq 0 (Nat.max (degree a) (degree b) + 1))).
Proof.
  intros Ha Hb Hne. unfold GF.addPoly. apply mapM_map. intros i Hi.
  apply in_seq in Hi.
  destruct (Nat.leb_spec (length a) i) as [Hai|Hai].
  - assert (Hib : (i < length b)%nat).
    { destruct b as [|y b'].
      - exfalso. rewrite degree_nil in Hi.
        destruct a as [|x a']; [destruct Hne; congruence|].
        assert (Hx : x :: a' <> []) by congruence.
        pose proof (degree_lt_length _ Hx). lia.
      - assert (Hy : y :: b' <> []) by congruence.
        pose proof (degree_lt_length _ Hy).
        pose proof (degree_le_length a).
        destruct a as [|x a']; [rewrite degree_nil in Hi; lia|].
        simpl in *. lia. }
    rewrite idx_coef by exact Hib. f_equal.
    rewrite (coef_ge a) by exact Hai. rewrite Z.add_0_l.
    symmetry. apply bit_mod2_id, coef_bit, Hb.
  - destruct (Nat.leb_spec (length b) i) as [Hbi|Hbi].
    + rewrite idx_coef by exact Hai. f_equal.
      rewrite (coef_ge b) by exact Hbi. rewrite Z.add_0_r.
      symmetry. apply bit_mod2_id, coef_bit, Ha.
    + rewrite !idx_coef by assumption. simpl.
      apply GF2_addElements; apply coef_bit; assumption.
Qed.

Lemma multPoly_step_GF2 (a b product : list Z) (i j : nat) :
  binary a -> binary b -> binary product ->
  (i < length a)%nat -> (j < length b)%nat -> (i + j < length product)%nat ->
  GF.multPoly_step GF2 a b i product j
  = Ok (<[(i + j)%nat := (coef product (i + j) + coef a i * coef b j) mod 2]>
          product).
Proof.
  intros Ha Hb Hp Hi Hj Hij. unfold GF.multPoly_step.
  rewrite !idx_coef by assumption. simpl.
  rewrite GF2_multElements by (apply coef_bit; assumption). simpl.
  rewrite GF2_addElements;
    [reflexivity|apply coef_bit, Hp|apply bit_mul; apply coef_bit; assumption].
Qed.

Lemma binary_insert (l : list Z) (k : nat) (x : Z) :
  binary l -> bit x -> binary (<[k := x]> l).
Proof.
  intros Hl Hx. unfold binary. apply Forall_insert; assumption.
Qed.

Lemma coef_insert (l : list Z) (k i : nat) (x : Z) :
  (k < length l)%nat ->
  coef (<[k := x]> l) i = if (i =? k)%nat then x else coef l i.
Proof.
  intros Hk. unfold coef. destruct (Nat.eqb_spec i k) as [->|Hne].
  - rewrite list_lookup_insert_eq by exact Hk. reflexivity.
  - rewrite list_lookup_insert_ne by congruence. reflexivity.
Qed.

Section Semantics.

Variable p : list Z.

Lemma ev_insert (l : list Z) (k : nat) (t : Z) :
  binary l -> bit t -> (k < length l)%nat ->
  ev p (<[k := (coef l k + t) mod 2]> l)
  = N.lxor (ev p l) (scale t (shift p k 1)).
Proof.
  intros Hl Ht Hk. unfold ev. rewrite length_insert.
  rewrite <- (act_update p (length l) k (coef l) t 1 Hk (coef_bit l k Hl) Ht).
  apply act_ext. intros i Hi. rewrite coef_insert by exact Hk.
  destruct (Nat.eqb_spec i k) as [->|_]; reflexivity.
Qed.

Lemma ev_replicate (n : nat) : ev p (replicate n 0) = 0%N.
Proof.
  unfold ev. apply act_zero. intros i Hi. unfold coef.
  destruct (replicate n 0 !! i) as [x|] eqn:E; [|reflexivity].
  apply lookup_replicate in E as [-> _]. reflexivity.
Qed.

(** Only the coefficients up to the degree count. *)
Lemma ev_degree (l : list Z) :
  ev p l = act p (degree l + 1) (coef l) 1.
Proof.
  unfold ev. destruct l as [|x l'].
  - rewrite degree_nil. simpl. unfold coef. simpl. reflexivity.
  - assert (Hx : x :: l' <> []) by congruence.
    pose proof (degree_lt_length _ Hx).
    apply act_extend; [lia|]. intros i Hi. apply coef_above_degree. lia.
Qed.

Lemma coef_take (l : list Z) (n i : nat) :
  (i < n)%nat -> coef (take n l) i = coef l i.
Proof. intros H. unfold coef. rewrite lookup_take_lt by exact H. reflexivity. Qed.

Lemma ev_trim (l : list Z) : ev p (trim l) = ev p l.
Proof.
  rewrite (ev_degree (trim l)), (ev_degree l), degree_trim.
  apply act_ext. intros i Hi. unfold trim. apply coef_take. exact Hi.
Qed.

End Semantics.

(** ** The double loop of multPoly over GF(2) *)

Section MultPolyGF2.

Variable p : list Z.
Variables a b : list Z.
Hypothesis Ha : binary a.
Hypothesis Hb : binary b.

Lemma multPoly_inner_GF2 (i n : nat) (product : list Z) :
  binary product ->
  (i < length a)%nat -> (n <= length b)%nat ->
  (i + n <= length product)%nat ->
  exists product',
    foldM (GF.multPoly_step GF2 a b i) (seq 0 n) product = Ok product'
    /\ binary product'
    /\ length product' = length product
    /\ ev p product'
       = N.lxor (ev p product)
                (scale (coef a i) (shift p i (act p n (coef b) 1))).
Proof.
  intros Hp Hi. induction n as [|n IH]; intros Hn Hlen.
  - exists product. simpl. rewrite shift_0, scale_0_r, N.lxor_0_r. auto.
  - destruct IH as (pr & Hrun & Hbin & Hl & Hev); [lia|lia|].
    rewrite seq_S, foldM_app, Hrun. simpl.
    rewrite multPoly_step_GF2 by (try assumption; lia). simpl.
    eexists. split; [reflexivity|].
    split.
    { apply binary_insert; [exact Hbin|apply bit_mod2]. }
    split.
    { rewrite length_insert. exact Hl. }
    rewrite ev_insert;
      [|exact Hbin|apply bit_mul; apply coef_bit; assumption|lia].
    rewrite Hev, N.lxor_assoc. f_equal.
    rewrite shift_lxor, scale_lxor. f_equal.
    rewrite scale_mul by (apply coef_bit; assumption).
    rewrite shift_scale, shift_add. reflexivity.
Qed.

Hypothesis Hbne : b <> [].

Lemma multPoly_outer_GF2 (n : nat) (product : list Z) :
  binary product ->
  (n <= length a)%nat ->
  (n + degree b <= length product)%nat ->
  exists product',
    foldM (fun product i =>
             foldM (GF.multPoly_step GF2 a b i) (seq 0 (degree b + 1)) product)
          (seq 0 n) product = Ok product'
    /\ binary product'
    /\ length product' = length product
    /\ ev p product' = N.lxor (ev p product) (act p n (coef a) (ev p b)).
Proof.
  intros Hp. induction n as [|n IH]; intros Hn Hlen.
  - exists product. simpl. rewrite N.lxor_0_r. auto.
  - destruct IH as (pr & Hrun & Hbin & Hl & Hev); [lia|lia|].
    rewrite seq_S, foldM_app, Hrun. simpl.
    pose proof (degree_lt_length b Hbne) as Hdb.
    destruct (multPoly_inner_GF2 n (degree b + 1) pr Hbin)
      as (pr' & Hrun' & Hbin' & Hl' & Hev'); [lia|lia|lia|].
    rewrite Hrun'. simpl. exists pr'.
    split; [reflexivity|]. split; [exact Hbin'|].
    split; [congruence|].
    rewrite Hev', Hev, N.lxor_assoc. f_equal. f_equal.
    rewrite <- ev_degree. reflexivity.
Qed.

Hypothesis Hane : a <> [].

Lemma binary_replicate (n : nat) : binary (replicate n 0).
Proof. apply Forall_replicate. left. reflexivity. Qed.

Lemma binary_take (n : nat) (l : list Z) : binary l -> binary (take n l).
Proof. apply Forall_take. Qed.

(** [GF2.multPoly(a, b)] never fails on nonempty 0/1 arrays; its result is
    the product as a residue modulo p. *)
Lemma multPoly_GF2 :
  exists r,
    GF.multPoly GF2 a b = Ok r
    /\ binary r /\ r <> []
    /\ (degree r <= degree a + degree b)%nat
    /\ ev p r = act p (degree a + 1) (coef a) (ev p b).
Proof.
  unfold GF.multPoly.
  pose proof (degree_lt_length a Hane) as Hda.
  destruct (multPoly_outer_GF2 (degree a + 1)
              (replicate (degree a + degree b + 1) 0))
    as (pr & Hrun & Hbin & Hl & Hev).
  { apply binary_replicate. }
  { lia. }
  { rewrite length_replicate. lia. }
  rewrite Hrun. simpl. exists (trim pr).
  rewrite length_replicate in Hl.
  assert (Hne : pr <> []) by (intros ->; simpl in Hl; lia).
  split; [reflexivity|].
  split; [apply binary_take, Hbin|].
  split.
  { intros E. pose proof (length_trim pr Hne) as Ht. rewrite E in Ht.
    simpl in Ht. lia. }
  split.
  { rewrite degree_trim. pose proof (degree_lt_length pr Hne). lia. }
  rewrite ev_trim, Hev, ev_replicate, N.lxor_0_l. reflexivity.
Qed.

End MultPolyGF2.

(** ** Bits of residues *)

Lemma tb_inj (u v : N) : (forall j, tb u j = tb v j) -> u = v.
Proof.
  intros H. apply N.bits_inj. intros n. specialize (H (N.to_nat n)).
  unfold tb in H. rewrite N2Nat.id in H. exact H.
Qed.

Lemma tb_lxor (u v : N) (j : nat) : tb (N.lxor u v) j = xorb (tb u j) (tb v j).
Proof. apply N.lxor_spec. Qed.

Lemma tb_0 (j : nat) : tb 0 j = false.
Proof. apply N.bits_0. Qed.

Lemma tb_pow2 (i j : nat) : tb (2 ^ N.of_nat i) j = (i =? j)%nat.
Proof.
  unfold tb. rewrite N.pow2_bits_eqb.
  destruct (Nat.eqb_spec i j) as [->|Hne].
  - apply N.eqb_refl.
  - apply N.eqb_neq. intros E. apply Nat2N.inj in E. contradiction.
Qed.

Lemma tb_double_0 (v : N) : tb (N.double v) 0 = false.
Proof. unfold tb. rewrite N.double_spec. apply N.testbit_even_0. Qed.

Lemma tb_double_S (v : N) (j : nat) : tb (N.double v) (S j) = tb v j.
Proof.
  unfold tb. rewrite N.double_spec, Nat2N.inj_succ.
  apply N.double_bits_succ.
Qed.

Lemma tb_N_of_bits (l : list Z) (j : nat) :
  tb (N_of_bits l) j = negb (coef l j =? 0).
Proof.
  revert j. induction l as [|c l IH]; intros j.
  - rewrite (coef_ge []) by (simpl; lia). apply tb_0.
  - simpl N_of_bits. destruct j as [|j].
    + unfold tb. simpl N.of_nat. rewrite N.testbit_0_r. reflexivity.
    + unfold tb. rewrite Nat2N.inj_succ, N.testbit_succ_r. apply IH.
Qed.

Lemma tb_scale (c : Z) (v : N) (j : nat) :
  tb (scale c v) j = negb (c =? 0) && tb v j.
Proof. unfold scale. destruct (c =? 0); [apply tb_0|reflexivity]. Qed.

Lemma double_pow2 (i : nat) : N.double (2 ^ N.of_nat i) = (2 ^ N.of_nat (S i))%N.
Proof.
  rewrite N.double_spec, Nat2N.inj_succ, N.pow_succ_r by lia. reflexivity.
Qed.

Section PowerFacts.

Variable p : list Z.
Hypothesis Hbin : binary p.
Hypothesis Hdeg : (1 <= degree p)%nat.

Lemma coef_p_top : coef p (degree p) = 1.
Proof.
  destruct (lookup_at_degree p) as [c [Hc Hnz]]; [lia|].
  rewrite (coef_lookup _ _ _ Hc).
  destruct (binary_lookup p _ c Hbin Hc); [contradiction|assumption].
Qed.

(** Below the degree of p the powers of alpha are the unit vectors. *)
Lemma alpha_pow_small (i : nat) :
  (i < degree p)%nat -> alpha_pow p i = (2 ^ N.of_nat i)%N.
Proof.
  induction i as [|i IH]; intros Hi; [reflexivity|].
  unfold alpha_pow in *. rewrite shift_S, IH by lia.
  unfold xtime. cbv zeta. rewrite double_pow2.
  change (N.testbit (2 ^ N.of_nat (S i)) (N.of_nat (degree p)))
    with (tb (2 ^ N.of_nat (S i)) (degree p)).
  rewrite tb_pow2. destruct (Nat.eqb_spec (S i) (degree p)); [lia|].
  reflexivity.
Qed.

Lemma tb_act_small (n : nat) (f : nat -> Z) (j : nat) :
  (n <= degree p)%nat ->
  tb (act p n f 1) j = (j <? n)%nat && negb (f j =? 0).
Proof.
  induction n as [|n IH]; intros Hn.
  - simpl. rewrite tb_0. reflexivity.
  - simpl. rewrite tb_lxor, IH by lia.
    change (shift p n 1) with (alpha_pow p n).
    rewrite alpha_pow_small by lia. rewrite tb_scale, tb_pow2.
    destruct (Nat.eqb_spec n j) as [->|Hne].
    + destruct (Nat.ltb_spec j j); [lia|].
      destruct (Nat.ltb_spec j (S j)); [|lia]. simpl.
      rewrite andb_true_r. reflexivity.
    + rewrite andb_false_r, xorb_false_r.
      destruct (Nat.ltb_spec j n), (Nat.ltb_spec j (S n)); try lia;
        reflexivity.
Qed.

(** A short 0/1 array is its own residue. *)
Lemma tb_ev_small (l : list Z) (j : nat) :
  (degree l < degree p)%nat ->
  tb (ev p l) j = negb (coef l j =? 0).
Proof.
  intros Hl. rewrite ev_degree, tb_act_small by lia.
  destruct (Nat.ltb_spec j (degree l + 1)); [reflexivity|].
  rewrite coef_above_degree by lia. reflexivity.
Qed.

Lemma alpha_pow_top (m' : nat) :
  degree p = S m' -> alpha_pow p (S m') = ev p (take (S m') p).
Proof.
  intros Em. unfold alpha_pow. rewrite shift_S.
  change (shift p m' 1) with (alpha_pow p m').
  rewrite alpha_pow_small by lia.
  unfold xtime. cbv zeta. rewrite double_pow2, Em.
  change (N.testbit (2 ^ N.of_nat (S m')) (N.of_nat (S m')))
    with (tb (2 ^ N.of_nat (S m')) (S m')).
  rewrite tb_pow2, Nat.eqb_refl.
  apply tb_inj. intros j.
  rewrite tb_lxor, tb_pow2, tb_N_of_bits.
  assert (Hlt : (degree (take (S m') p) < degree p)%nat).
  { pose proof (degree_le_length (take (S m') p)) as H.
    rewrite length_take in H. lia. }
  rewrite tb_ev_small by exact Hlt.
  destruct (Nat.eqb_spec (S m') j) as [<-|Hne].
  - rewrite <- Em, coef_p_top. rewrite (coef_ge (take _ _)).
    + reflexivity.
    + rewrite length_take. lia.
  - simpl. destruct (Nat.lt_ge_cases j (S m')) as [Hj|Hj].
    + rewrite coef_take by exact Hj. reflexivity.
    + rewrite (coef_ge (take _ _)) by (rewrite length_take; lia).
      rewrite coef_above_degree by lia. reflexivity.
Qed.

(** p(alpha) = 0: alpha^m is the low part of p. *)
Lemma alpha_pow_m : alpha_pow p (degree p) = ev p (take (degree p) p).
Proof.
  assert (Em : degree p = S (degree p - 1)) by lia.
  rewrite Em at 1 2. apply alpha_pow_top. exact Em.
Qed.

(** Multiplying by the low part of p is multiplying by X^m. *)
Lemma act_a_high (a : list Z) :
  act p (degree a + 1) (coef a) (ev p (take (degree p) p))
  = shift p (degree p) (ev p a).
Proof.
  rewrite <- alpha_pow_m. unfold alpha_pow.
  rewrite <- shift_act, <- ev_degree. reflexivity.
Qed.

Lemma small_xtime (v : N) : small p v -> small p (xtime p v).
Proof.
  intros Hv j Hj. unfold xtime. cbv zeta.
  change (N.testbit (N.double v) (N.of_nat (degree p)))
    with (tb (N.double v) (degree p)).
  destruct j as [|j]; [lia|].
  destruct (tb (N.double v) (degree p)) eqn:Etop.
  - rewrite tb_lxor, tb_double_S, tb_N_of_bits.
    destruct (Nat.eq_dec (S j) (degree p)) as [E|E].
    + rewrite E, coef_p_top. rewrite <- E in Etop.
      rewrite tb_double_S in Etop. rewrite Etop. reflexivity.
    + rewrite Hv by lia. rewrite coef_above_degree by lia. reflexivity.
  - destruct (Nat.eq_dec (S j) (degree p)) as [E|E].
    + rewrite E. exact Etop.
    + rewrite tb_double_S. apply Hv. lia.
Qed.

Lemma small_alpha_pow (k : nat) : small p (alpha_pow p k).
Proof.
  induction k as [|k IH].
  - intros j Hj. change (alpha_pow p 0) with (2 ^ N.of_nat 0)%N.
    rewrite tb_pow2. destruct (Nat.eqb_spec 0 j); [lia|reflexivity].
  - apply small_xtime, IH.
Qed.

Lemma small_0 : small p 0.
Proof. intros j _. apply tb_0. Qed.

Lemma bits_of_lookup (width : nat) (v : N) (j : nat) :
  (j < width)%nat -> bits_of width v !! j = Some (Z.b2z (tb v j)).
Proof.
  intros H. unfold bits_of. rewrite list_lookup_fmap.
  rewrite lookup_seq_lt by exact H. reflexivity.
Qed.

Lemma length_bits_of (width : nat) (v : N) : length (bits_of width v) = width.
Proof. unfold bits_of. rewrite length_map, length_seq. reflexivity. Qed.

Lemma bits_of_inj (u v : N) :
  small p u -> small p v ->
  bits_of (degree p) u = bits_of (degree p) v -> u = v.
Proof.
  intros Hu Hv E. apply tb_inj. intros j.
  destruct (Nat.lt_ge_cases j (degree p)) as [Hj|Hj].
  - assert (H : bits_of (degree p) u !! j = bits_of (degree p) v !! j)
      by (rewrite E; reflexivity).
    rewrite !bits_of_lookup in H by exact Hj.
    injection H as H. destruct (tb u j), (tb v j); simpl in H; congruence.
  - rewrite Hu, Hv by exact Hj. reflexivity.
Qed.

End PowerFacts.

(** ** The monomials X(i) *)

Lemma length_X (n : nat) : length (X n) = (n + 1)%nat.
Proof. unfold X. rewrite length_insert, length_replicate. reflexivity. Qed.

Lemma coef_X (n j : nat) : coef (X n) j = if (j =? n)%nat then 1 else 0.
Proof.
  unfold X. rewrite coef_insert by (rewrite length_replicate; lia).
  destruct (j =? n)%nat; [reflexivity|].
  unfold coef. destruct (replicate (n + 1) 0 !! j) as [x|] eqn:E; [|reflexivity].
  apply lookup_replicate in E as [-> _]. reflexivity.
Qed.

Lemma binary_X (n : nat) : binary (X n).
Proof.
  unfold X. apply binary_insert; [|right; reflexivity].
  apply Forall_replicate. left. reflexivity.
Qed.

Lemma X_nonempty (n : nat) : X n <> [].
Proof. intros E. pose proof (length_X n) as H. rewrite E in H. simpl in H. lia. Qed.

Lemma lookup_coef (l : list Z) (j : nat) :
  (j < length l)%nat -> l !! j = Some (coef l j).
Proof.
  intros H. unfold coef. destruct (lookup_lt_is_Some_2 l j H) as [x ->].
  reflexivity.
Qed.

Lemma degree_X (n : nat) : degree (X n) = n.
Proof.
  apply (degree_unique (X n) n 1).
  - rewrite lookup_coef by (rewrite length_X; lia).
    rewrite coef_X, Nat.eqb_refl. reflexivity.
  - lia.
  - intros k x Hk Hx. apply lookup_lt_Some in Hx. rewrite length_X in Hx. lia.
Qed.

Lemma ev_X (p : list Z) (n : nat) : ev p (X n) = alpha_pow p n.
Proof.
  unfold X.
  replace 1 with ((coef (replicate (n + 1) 0) n + 1) mod 2) at 1.
  - rewrite ev_insert.
    + rewrite ev_replicate, N.lxor_0_l. reflexivity.
    + apply Forall_replicate. left. reflexivity.
    + right. reflexivity.
    + rewrite length_replicate. lia.
  - unfold coef. rewrite lookup_replicate_2 by lia. reflexivity.
Qed.

(** ** Lists determined by their coefficients *)

Lemma list_eq_coef (l1 l2 : list Z) :
  length l1 = length l2 ->
  (forall j, (j < length l1)%nat -> coef l1 j = coef l2 j) ->
  l1 = l2.
Proof.
  intros Hlen H. apply list_eq. intros j.
  destruct (Nat.lt_ge_cases j (length l1)) as [Hj|Hj].
  - rewrite !lookup_coef by lia. f_equal. apply H, Hj.
  - rewrite !lookup_ge_None_2 by lia. reflexivity.
Qed.

Lemma coef_app_zeros (l : list Z) (n j : nat) :
  coef (l ++ replicate n 0) j = coef l j.
Proof.
  unfold coef. destruct (Nat.lt_ge_cases j (length l)) as [Hj|Hj].
  - rewrite lookup_app_l by exact Hj. reflexivity.
  - rewrite lookup_app_r by exact Hj. rewrite (lookup_ge_None_2 l) by exact Hj.
    destruct (replicate n 0 !! (j - length l)%nat) as [x|] eqn:E; [|reflexivity].
    apply lookup_replicate in E as [-> _]. reflexivity.
Qed.

Lemma coef_bits_of (width : nat) (v : N) (j : nat) :
  coef (bits_of width v) j = if (j <? width)%nat then Z.b2z (tb v j) else 0.
Proof.
  destruct (Nat.ltb_spec j width) as [Hj|Hj].
  - apply coef_lookup, bits_of_lookup, Hj.
  - apply coef_ge. rewrite length_bits_of. exact Hj.
Qed.

Lemma binary_bits_of (width : nat) (v : N) : binary (bits_of width v).
Proof.
  unfold binary, bits_of. apply Forall_forall. intros x Hx.
  apply list_elem_of_In, in_map_iff in Hx as [j [<- _]].
  destruct (tb v j) eqn:E; unfold tb in E; rewrite E; [right|left]; reflexivity.
Qed.

Lemma b2z_coef (c : Z) : bit c -> Z.b2z (negb (c =? 0)) = c.
Proof. intros [-> | ->]; reflexivity. Qed.

Section Format.

Variable p : list Z.
Hypothesis Hbin : binary p.
Hypothesis Hdeg : (1 <= degree p)%nat.

(** The last two statements of the loop body: trim, then pad to width m. *)
Lemma format_poly (r : list Z) :
  binary r -> (degree r < degree p)%nat ->
  pad_to (degree p) (trim r) = Ok (bits_of (degree p) (ev p r)).
Proof.
  intros Hr Hd. unfold pad_to.
  assert (Hlen : (length (trim r) <= degree p)%nat).
  { unfold trim. rewrite length_take. lia. }
  destruct (Nat.ltb_spec (degree p) (length (trim r))); [lia|].
  f_equal. apply list_eq_coef.
  - rewrite length_app, length_replicate, length_bits_of. lia.
  - intros j Hj.
    rewrite length_app, length_replicate in Hj.
    rewrite coef_app_zeros, coef_bits_of.
    destruct (Nat.ltb_spec j (degree p)); [|lia].
    rewrite tb_ev_small by assumption.
    rewrite b2z_coef by (apply coef_bit, Hr).
    unfold trim. destruct (Nat.lt_ge_cases j (degree r + 1)) as [Hjd|Hjd].
    + apply coef_take, Hjd.
    + rewrite (coef_above_degree r) by lia.
      apply coef_ge. rewrite length_take. lia.
Qed.

(** A table entry read back as a residue. *)
Lemma ev_bits_of (v : N) :
  small p v -> ev p (bits_of (degree p) v) = v.
Proof.
  intros Hv. apply tb_inj. intros j.
  assert (Hd : (degree (bits_of (degree p) v) < degree p)%nat).
  { pose proof (degree_le_length (bits_of (degree p) v)) as H.
    rewrite length_bits_of in H. lia. }
  rewrite tb_ev_small by assumption.
  rewrite coef_bits_of. destruct (Nat.ltb_spec j (degree p)) as [Hj|Hj].
  - destruct (tb v j); reflexivity.
  - rewrite Hv by exact Hj. reflexivity.
Qed.

End Format.

(** ** The table constructor builds the powers of alpha *)

Lemma removelast_map_seq {A : Type} (g : nat -> A) (d : nat) :
  removelast (map g (seq 0 (d + 1))) = map g (seq 0 d).
Proof.
  rewrite Nat.add_1_r, seq_S, map_app. simpl. apply removelast_last.
Qed.

Lemma coef_map_seq (g : nat -> Z) (n j : nat) :
  (j < n)%nat -> coef (map g (seq 0 n)) j = g j.
Proof.
  intros H. apply coef_lookup. rewrite list_lookup_fmap.
  rewrite lookup_seq_lt by exact H. reflexivity.
Qed.

Lemma power_table_length (p : list Z) : length (power_table p) = (2 ^ degree p)%nat.
Proof.
  unfold power_table. simpl. rewrite length_map, length_seq.
  assert (1 <= 2 ^ degree p)%nat by (apply Nat.neq_0_lt_0, Nat.pow_nonzero; lia).
  lia.
Qed.

Lemma power_table_S (p : list Z) (k : nat) :
  (S k < 2 ^ degree p)%nat ->
  power_table p !! S k = Some (bits_of (degree p) (alpha_pow p k)).
Proof.
  intros H. unfold power_table. simpl. rewrite list_lookup_fmap.
  rewrite lookup_seq_lt by lia. reflexivity.
Qed.

Lemma power_table_0 (p : list Z) : power_table p !! 0%nat = Some (replicate (degree p) 0).
Proof. reflexivity. Qed.

Section Construct.

Variable p : list Z.
Hypothesis Hbin : binary p.
Hypothesis Hdeg : (2 <= degree p)%nat.

Let a_high : list Z := take (degree p) p.

Lemma a_high_facts :
  binary a_high /\ a_high <> [] /\ length a_high = degree p
  /\ (degree a_high <= degree p - 1)%nat.
Proof.
  assert (Hne : p <> []) by (intros E; rewrite E, degree_nil in Hdeg; lia).
  pose proof (degree_lt_length p Hne) as Hlt.
  assert (Hlen : length a_high = degree p).
  { unfold a_high. rewrite length_take. lia. }
  split; [apply binary_take, Hbin|]. split.
  { intros E. rewrite E in Hlen. simpl in Hlen. lia. }
  split; [exact Hlen|].
  pose proof (degree_le_length a_high). lia.
Qed.

(** [for j in range(0, quotient): poly = GF2.multPoly(poly, a_high)]. *)
Lemma mult_loop_ok (xs : list nat) (poly : list Z) :
  binary poly -> poly <> [] ->
  exists r,
    foldM (fun poly _ => GF.multPoly GF2 poly a_high) xs poly = Ok r
    /\ binary r /\ r <> []
    /\ (degree r <= degree poly + length xs * (degree p - 1))%nat
    /\ ev p r = shift p (length xs * degree p) (ev p poly).
Proof.
  destruct a_high_facts as (Hab & Hane & Hal & Had).
  revert poly. induction xs as [|x xs IH]; intros poly Hpb Hpne.
  - exists poly. simpl. auto with lia.
  - destruct (multPoly_GF2 p poly a_high Hpb Hab Hane Hpne)
      as (r1 & Hrun & Hb1 & Hne1 & Hd1 & Hev1).
    destruct (IH r1 Hb1 Hne1) as (r & Hrun' & Hb & Hne & Hd & Hev).
    exists r. simpl. rewrite Hrun. simpl.
    split; [exact Hrun'|]. split; [exact Hb|]. split; [exact Hne|].
    split; [lia|].
    rewrite Hev, Hev1. unfold a_high.
    rewrite act_a_high by (try assumption; lia).
    rewrite <- shift_add. f_equal. lia.
Qed.

(** The [while degree(poly) >= m] loop replaces the leading term by its
    table entry and keeps the residue. *)
Lemma reduce_ok (fuel i : nat) (poly : list Z) :
  binary poly ->
  (length poly <= fuel)%nat ->
  (degree poly + 1 < i)%nat -> (i <= 2 ^ degree p)%nat ->
  exists r,
    constructGF_reduce fuel (degree p) (take i (power_table p)) poly = Ok r
    /\ binary r /\ (degree r < degree p)%nat /\ ev p r = ev p poly.
Proof.
  revert poly. induction fuel as [|fuel IH]; intros poly Hpb Hfuel Hi Hi2.
  - assert (poly = []) as -> by (destruct poly; [reflexivity|simpl in Hfuel; lia]).
    exists []. simpl. rewrite degree_nil.
    destruct (Nat.ltb_spec 0 (degree p)); [|lia]. auto.
  - simpl. destruct (Nat.ltb_spec (degree poly) (degree p)) as [Hlt|Hge].
    { exists poly. auto. }
    set (d := degree poly) in *.
    assert (Hpne : poly <> []).
    { intros E. subst d. rewrite E, degree_nil in Hge. lia. }
    pose proof (degree_lt_length poly Hpne) as Hdl. fold d in Hdl.
    set (e := bits_of (degree p) (alpha_pow p d)).
    assert (He : take i (power_table p) !! (d + 1)%nat = Some e).
    { rewrite lookup_take_lt by lia. rewrite Nat.add_1_r.
      apply power_table_S. lia. }
    unfold idx. rewrite He. simpl.
    assert (Hde : (degree e < degree p)%nat).
    { pose proof (degree_le_length e) as H.
      assert (length e = degree p) by apply length_bits_of. lia. }
    rewrite addPoly_GF2; [|exact Hpb|apply binary_bits_of|left; exact Hpne].
    simpl. fold d. replace (Nat.max d (degree e)) with d by lia.
    rewrite removelast_map_seq.
    set (g := fun j => (coef poly j + coef e j) mod 2).
    assert (Hgl : length (map g (seq 0 d)) = d)
      by (rewrite length_map, length_seq; reflexivity).
    destruct (IH (map g (seq 0 d))) as (r & Hrun & Hrb & Hrd & Hev).
    { apply Forall_forall. intros x Hx.
      apply list_elem_of_In, in_map_iff in Hx as [j [<- _]]. apply bit_mod2. }
    { lia. }
    { pose proof (degree_le_length (map g (seq 0 d))). lia. }
    { exact Hi2. }
    exists r. split; [exact Hrun|]. split; [exact Hrb|]. split; [exact Hrd|].
    rewrite Hev. unfold ev at 1. rewrite Hgl.
    rewrite (act_ext p d _ g) by (intros j Hj; apply coef_map_seq, Hj).
    unfold g. rewrite act_xor.
    2:{ intros j _. split; apply coef_bit; [exact Hpb|apply binary_bits_of]. }
    rewrite (ev_degree p poly). fold d. rewrite Nat.add_1_r. simpl act.
    f_equal.
    assert (Hc : coef poly d = 1).
    { destruct (lookup_at_degree poly) as [c [Hc Hnz]]; [fold d; lia|].
      fold d in Hc. rewrite (coef_lookup _ _ _ Hc).
      destruct (binary_lookup poly _ c Hpb Hc); [contradiction|assumption]. }
    rewrite Hc. change (scale 1 (shift p d 1)) with (alpha_pow p d).
    rewrite (act_extend p (length e) d).
    + fold (ev p e). unfold e.
      apply ev_bits_of; [lia|].
      apply small_alpha_pow; [exact Hbin|lia].
    + unfold e. rewrite length_bits_of. lia.
    + intros j Hj. apply coef_ge. lia.
Qed.

End Construct.

Lemma bits_of_0 (width : nat) : bits_of width 0 = replicate width 0.
Proof.
  apply list_eq_coef.
  - rewrite length_bits_of, length_replicate. reflexivity.
  - intros j Hj. rewrite length_bits_of in Hj.
    rewrite coef_bits_of. destruct (Nat.ltb_spec j width); [|lia].
    rewrite tb_0. unfold coef. rewrite lookup_replicate_2 by lia. reflexivity.
Qed.

Section ConstructLoop.

Variable p : list Z.
Hypothesis Hbin : binary p.
Hypothesis Hdeg : (2 <= degree p)%nat.

(** One pass of the main loop computes the next entry from the entries
    before it. *)
Lemma constructGF_entry_ok (i : nat) :
  (i < 2 ^ degree p)%nat ->
  exists e,
    constructGF_entry (degree p) (take (degree p) p)
                      (take i (power_table p)) i = Ok e
    /\ power_table p !! i = Some e.
Proof.
  intros Hi. unfold constructGF_entry. destruct i as [|k].
  - exists (replicate (degree p) 0). split; [|reflexivity].
    change (0 =? 0)%nat with true. cbv iota.
    change (degree [0]) with 0%nat.
    destruct (Nat.leb_spec (degree p) 0); [lia|]. cbn [bind].
    rewrite format_poly;
      [|lia|apply (binary_replicate 1)|change (degree [0]) with 0%nat; lia].
    change (ev p [0]) with (ev p (replicate 1 0)).
    rewrite (ev_replicate p 1), bits_of_0. reflexivity.
  - exists (bits_of (degree p) (alpha_pow p k)).
    split; [|apply power_table_S; exact Hi].
    change (S k =? 0)%nat with false. cbv iota.
    replace (S k - 1)%nat with k by lia. rewrite degree_X.
    destruct (Nat.leb_spec (degree p) k) as [Hge|Hlt].
    + destruct (Nat.eqb_spec (degree p) 0); [lia|].
      destruct (mult_loop_ok p Hbin Hdeg (seq 0 (k / degree p))
                  (X (k mod degree p)) (binary_X _) (X_nonempty _))
        as (r & Hrun & Hrb & Hrne & Hrd & Hev).
      rewrite Hrun. cbn [bind].
      rewrite length_seq, degree_X in Hrd. rewrite length_seq, ev_X in Hev.
      pose proof (Nat.div_mod_eq k (degree p)) as Hk.
      assert (Hq : (1 <= k / degree p)%nat).
      { apply Nat.div_str_pos. lia. }
      destruct (reduce_ok p Hbin Hdeg (length r) (S k) r Hrb) as
        (r' & Hrun' & Hrb' & Hrd' & Hev'); [lia| |lia|].
      { assert ((k / degree p) * (degree p - 1) + k / degree p
                = degree p * (k / degree p))%nat by nia. lia. }
      rewrite Hrun'. cbn [bind].
      rewrite format_poly by (try assumption; lia).
      rewrite Hev', Hev. unfold alpha_pow. rewrite <- shift_add.
      do 3 f_equal. lia.
    + cbn [bind]. rewrite format_poly;
        [|lia|apply binary_X|rewrite degree_X; exact Hlt].
      rewrite ev_X. reflexivity.
Qed.

Lemma constructGF_loop_ok (n : nat) :
  (n <= 2 ^ degree p)%nat ->
  foldM (fun elements i =>
           let* poly :=
             constructGF_entry (degree p) (take (degree p) p) elements i in
           Ok (elements ++ [poly]))
        (seq 0 n) []
  = Ok (take n (power_table p)).
Proof.
  induction n as [|n IH]; intros Hn; [reflexivity|].
  rewrite seq_S, foldM_app, IH by lia. cbn [bind foldM Nat.add].
  destruct (constructGF_entry_ok n) as (e & Hrun & He); [lia|].
  rewrite Hrun. cbn [bind]. f_equal. symmetry. apply take_S_r, He.
Qed.

End ConstructLoop.

(** For every 0/1 polynomial p of degree m >= 1 the constructor returns
    the zero vector followed by alpha^0 .. alpha^(2^m - 2). *)
Lemma constructGF_power_table (p : list Z) :
  binary p -> (1 <= degree p)%nat -> constructGF p = Ok (power_table p).
Proof.
  intros Hbin Hdeg. unfold constructGF.
  destruct (Nat.eqb_spec (degree p) 1) as [E|E].
  - unfold power_table. rewrite E. reflexivity.
  - rewrite constructGF_loop_ok by (try assumption; lia).
    f_equal. apply take_ge. rewrite power_table_length. lia.
Qed.

(** ** A primitive polynomial gives pairwise distinct entries *)

Section Primitive.

Variable p : list Z.
Hypothesis Hprim : primitiveb p = true.

Lemma primitive_facts :
  binary p /\ (1 <= degree p)%nat
  /\ alpha_pow p (2 ^ degree p - 1) = 1%N
  /\ (forall n, (1 <= n < 2 ^ degree p - 1)%nat -> alpha_pow p n <> 1%N).
Proof.
  unfold primitiveb in Hprim.
  apply andb_prop in Hprim as [H123 H4].
  apply andb_prop in H123 as [H12 H3].
  apply andb_prop in H12 as [H1 H2].
  split; [apply binaryb_binary, H1|].
  split; [apply Nat.leb_le, H2|].
  split; [apply N.eqb_eq, H3|].
  intros n Hn. rewrite forallb_forall in H4.
  specialize (H4 n). rewrite in_seq in H4.
  intros E. rewrite E in H4. simpl in H4.
  assert (false = true) by (apply H4; lia). discriminate.
Qed.

Lemma alpha_pow_add (a b : nat) :
  alpha_pow p (a + b) = shift p a (alpha_pow p b).
Proof. apply shift_add. Qed.

Lemma alpha_pow_distinct (i j : nat) :
  (i < j < 2 ^ degree p - 1)%nat -> alpha_pow p i <> alpha_pow p j.
Proof.
  destruct primitive_facts as (_ & _ & Hone & Hord).
  intros Hij E. set (n := (2 ^ degree p - 1)%nat) in *.
  apply (Hord (n - j + i)%nat); [lia|].
  rewrite alpha_pow_add, E, <- alpha_pow_add.
  replace (n - j + j)%nat with n by lia. exact Hone.
Qed.

Lemma alpha_pow_nonzero (k : nat) :
  (k < 2 ^ degree p - 1)%nat -> alpha_pow p k <> 0%N.
Proof.
  destruct primitive_facts as (_ & _ & Hone & _).
  intros Hk E. set (n := (2 ^ degree p - 1)%nat) in *.
  replace n with (n - k + k)%nat in Hone by lia.
  rewrite alpha_pow_add, E, shift_0 in Hone. discriminate.
Qed.

Lemma power_table_NoDup : NoDup (power_table p).
Proof.
  destruct primitive_facts as (Hbin & Hdeg & _ & _).
  unfold power_table. apply NoDup_cons. split.
  - intros Hin. apply list_elem_of_In, in_map_iff in Hin as [k [Hk Hin]].
    apply in_seq in Hin. rewrite <- bits_of_0 in Hk.
    apply bits_of_inj in Hk;
      [|apply small_alpha_pow; assumption|apply small_0].
    apply (alpha_pow_nonzero k); [lia|exact Hk].
  - apply NoDup_fmap_2_strong; [|apply NoDup_seq].
    intros i j Hi Hj E.
    apply list_elem_of_In, in_seq in Hi. apply list_elem_of_In, in_seq in Hj.
    apply bits_of_inj in E; try (apply small_alpha_pow; assumption).
    destruct (lt_eq_lt_dec i j) as [[Hlt|Heq]|Hgt]; [|exact Heq|].
    + exfalso. apply (alpha_pow_distinct i j); [lia|exact E].
    + exfalso. apply (alpha_pow_distinct j i); [lia|symmetry; exact E].
Qed.

End Primitive.

Lemma power_table_widths (p : list Z) :
  Forall (fun v => length v = degree p) (power_table p).
Proof.
  unfold power_table. apply Forall_cons. split.
  - apply length_replicate.
  - apply Forall_forall. intros v Hv.
    apply list_elem_of_In, in_map_iff in Hv as [k [<- _]].
    apply length_bits_of.
Qed.

Lemma bits_of_1 (width : nat) :
  (1 <= width)%nat -> bits_of width 1 = 1 :: replicate (width - 1) 0.
Proof.
  intros Hw. apply list_eq_coef.
  - rewrite length_bits_of. simpl. rewrite length_replicate. lia.
  - intros j Hj. rewrite length_bits_of in Hj. rewrite coef_bits_of.
    destruct (Nat.ltb_spec j width); [|lia].
    change 1%N with (2 ^ N.of_nat 0)%N. rewrite tb_pow2.
    destruct j as [|j]; [reflexivity|].
    unfold coef. simpl. rewrite lookup_replicate_2 by lia. reflexivity.
Qed.

Lemma power_table_1 (p : list Z) :
  (1 <= degree p)%nat ->
  power_table p !! 1%nat = Some (1 :: replicate (degree p - 1) 0).
Proof.
  intros Hdeg. rewrite power_table_S.
  - change (alpha_pow p 0) with 1%N. rewrite bits_of_1 by exact Hdeg.
    reflexivity.
  - apply Nat.pow_gt_1; lia.
Qed.

(** C8: for every primitive polynomial p of degree m >= 1 the table
    constructor returns exactly 2^m pairwise distinct vectors, each of width
    m; the vector at index 0 is all-zero and the vector at index 1 is
    [1, 0, ..., 0]. *)
Theorem constructGF_primitive (p0 : list Z) :
  primitiveb p0 = true ->
  exists t,
    constructGF p0 = Ok t
    /\ length t = (2 ^ degree p0)%nat
    /\ NoDup t
    /\ Forall (fun v => length v = degree p0) t
    /\ t !! 0%nat = Some (replicate (degree p0) 0)
    /\ t !! 1%nat = Some (1 :: replicate (degree p0 - 1) 0).
Proof.
  intros Hprim. destruct (primitive_facts p0 Hprim) as (Hbin & Hdeg & _).
  exists (power_table p0).
  split; [apply constructGF_power_table; assumption|].
  split; [apply power_table_length|].
  split; [apply power_table_NoDup, Hprim|].
  split; [apply power_table_widths|].
  split; [apply power_table_0|apply power_table_1, Hdeg].
Qed.

Lemma constructGF_primitive_witness :
  primitiveb p16 = true /\
  exists t,
    constructGF p16 = Ok t
    /\ length t = (2 ^ degree p16)%nat
    /\ NoDup t
    /\ Forall (fun v => length v = degree p16) t
    /\ t !! 0%nat = Some (replicate (degree p16) 0)
    /\ t !! 1%nat = Some (1 :: replicate (degree p16 - 1) 0).
Proof.
  split; [vm_compute; reflexivity|].
  apply (constructGF_primitive p16). vm_compute. reflexivity.
Defined.

(** ** The round trip through the polynomial representation *)

Lemma trim_inj (u v : list Z) :
  length u = length v -> trim u = trim v -> u = v.
Proof.
  intros Hlen E.
  assert (Hd : degree u = degree v).
  { rewrite <- (degree_trim u), <- (degree_trim v), E. reflexivity. }
  apply list_eq_coef; [exact Hlen|]. intros j Hj.
  destruct (Nat.lt_ge_cases j (degree u + 1)) as [Hlt|Hge].
  - rewrite <- (coef_take u (degree u + 1) j Hlt).
    rewrite Hd in Hlt. rewrite <- (coef_take v (degree v + 1) j Hlt).
    fold (trim u). fold (trim v). rewrite E. reflexivity.
  - rewrite !coef_above_degree by lia. reflexivity.
Qed.

(** The linear search returns the first index holding the vector. *)
Lemma find_poly_first (t : list (list Z)) (k : nat) (v : list Z) (i0 : Z) :
  t !! k = Some v ->
  (forall k' v', (k' < k)%nat -> t !! k' = Some v' -> trim v' <> trim v) ->
  GF.find_poly (trim v) t i0 = Ok (i0 + Z.of_nat k).
Proof.
  revert k i0. induction t as [|w t IH]; intros k i0 Hk Hbefore.
  - discriminate.
  - simpl. unfold list_Z_eqb. destruct k as [|k].
    + injection Hk as ->. rewrite bool_decide_eq_true_2 by reflexivity.
      f_equal. lia.
    + rewrite bool_decide_eq_false_2 by (apply (Hbefore 0%nat w); [lia|reflexivity]).
      rewrite (IH k (i0 + 1)); [f_equal; lia|exact Hk|].
      intros k' v' Hk' Hv'. apply (Hbefore (S k') v'); [lia|exact Hv'].
Qed.



(** ** The constructor never exhausts the fuel of its inner loop

    Operations without a [while] loop end in a value or an exception; the
    reduction loop of [constructGF] is given [length poly] units of fuel and
    every pass shortens [poly], for every argument [p]. *)

Lemma bind_fuel {A B : Type} (e : result A) (k : A -> result B) :
  e <> OutOfFuel -> (forall x, e = Ok x -> k x <> OutOfFuel) ->
  bind e k <> OutOfFuel.
Proof. destruct e; simpl; intros H1 H2; [apply H2; reflexivity|discriminate|congruence]. Qed.

Lemma foldM_fuel {A S : Type} (P : S -> Prop) (body : S -> A -> result S)
  (xs : list A) (st : S) :
  (forall s x, P s -> body s x <> OutOfFuel) ->
  (forall s x s', P s -> body s x = Ok s' -> P s') ->
  P st -> foldM body xs st <> OutOfFuel.
Proof.
  intros Hf Hp. revert st. induction xs as [|x xs IH]; intros st Hst; simpl.
  - discriminate.
  - apply bind_fuel; [apply Hf, Hst|]. intros s' Hs'. apply IH. eauto.
Qed.

Lemma mapM_fuel {A B : Type} (f : A -> result B) (xs : list A) :
  (forall x, f x <> OutOfFuel) -> mapM f xs <> OutOfFuel.
Proof.
  intros Hf. induction xs as [|x xs IH]; simpl; [discriminate|].
  apply bind_fuel; [apply Hf|]. intros y _.
  apply bind_fuel; [exact IH|]. discriminate.
Qed.

Lemma idx_fuel {A : Type} (l : list A) (i : nat) : idx l i <> OutOfFuel.
Proof. unfold idx. destruct (l !! i); discriminate. Qed.

Lemma pad_to_fuel (n : nat) (l : list Z) : pad_to n l <> OutOfFuel.
Proof. unfold pad_to. destruct (n <? length l)%nat; discriminate. Qed.

Lemma pad_to_length (n : nat) (l r : list Z) :
  pad_to n l = Ok r -> length r = n.
Proof.
  unfold pad_to. destruct (Nat.ltb_spec n (length l)) as [Hn|Hn]; [discriminate|].
  intros E. injection E as <-. rewrite length_app, length_replicate. lia.
Qed.

Section NoFuel.

Variable F : GaloisField.

Lemma element_fuel (a : pynum) : GF.element F a <> OutOfFuel.
Proof.
  unfold GF.element. destruct a; try (destruct (GF.q F - 1 =? 0); discriminate).
  destruct (z =? 0); [discriminate|].
  destruct (GF.q F - 1 =? 0); discriminate.
Qed.

Lemma elementToExp_fuel (a : Z) : GF.elementToExp F a <> OutOfFuel.
Proof.
  unfold GF.elementToExp. apply bind_fuel; [apply element_fuel|].
  intros x _. destruct (x =? 0); discriminate.
Qed.

Lemma elementFromExp_fuel (e : pynum) : GF.elementFromExp F e <> OutOfFuel.
Proof.
  unfold GF.elementFromExp.
  destruct (num_eqb e INF || num_eqb e (num_neg INF));
    [discriminate|apply element_fuel].
Qed.

Lemma elementToPoly_fuel (a : Z) (size_m : bool) :
  GF.elementToPoly F a size_m <> OutOfFuel.
Proof.
  unfold GF.elementToPoly. apply bind_fuel; [apply element_fuel|].
  intros x _. apply bind_fuel; [apply idx_fuel|]. intros v _.
  destruct size_m; [apply pad_to_fuel|discriminate].
Qed.

Lemma find_poly_fuel (v : list Z) (t : list (list Z)) (i : Z) :
  GF.find_poly v t i <> OutOfFuel.
Proof.
  revert i. induction t as [|w t IH]; intros i; simpl; [discriminate|].
  destruct (list_Z_eqb (trim w) v); [discriminate|apply IH].
Qed.

Lemma elementFromPoly_fuel (v : list Z) : GF.elementFromPoly F v <> OutOfFuel.
Proof.
  unfold GF.elementFromPoly.
  destruct (degree (GF.p F) <? degree v)%nat; [discriminate|apply find_poly_fuel].
Qed.

Lemma np_add_fuel (a b : list Z) : np_add a b <> OutOfFuel.
Proof.
  unfold np_add. destruct (length a =? length b)%nat; [discriminate|].
  destruct a as [|x [|x' a]]; destruct b as [|y [|y' b]]; discriminate.
Qed.

Lemma addElements_fuel (a b : Z) : GF.addElements F a b <> OutOfFuel.
Proof.
  unfold GF.addElements.
  apply bind_fuel; [apply elementToPoly_fuel|]. intros u _.
  apply bind_fuel; [apply elementToPoly_fuel|]. intros v _.
  apply bind_fuel; [apply np_add_fuel|]. intros s _.
  apply elementFromPoly_fuel.
Qed.

Lemma multElements_fuel (a b : Z) : GF.multElements F a b <> OutOfFuel.
Proof.
  unfold GF.multElements.
  apply bind_fuel; [apply elementToExp_fuel|]. intros u _.
  apply bind_fuel; [apply elementToExp_fuel|]. intros v _.
  apply elementFromExp_fuel.
Qed.

Lemma addPoly_fuel (a b : list Z) : GF.addPoly F a b <> OutOfFuel.
Proof.
  unfold GF.addPoly. apply mapM_fuel. intros i.
  destruct (length a <=? i)%nat; [apply idx_fuel|].
  destruct (length b <=? i)%nat; [apply idx_fuel|].
  apply bind_fuel; [apply idx_fuel|]. intros x _.
  apply bind_fuel; [apply idx_fuel|]. intros y _.
  apply addElements_fuel.
Qed.

Lemma multPoly_step_fuel (a b : list Z) (i : nat) (product : list Z) (j : nat) :
  GF.multPoly_step F a b i product j <> OutOfFuel.
Proof.
  unfold GF.multPoly_step.
  apply bind_fuel; [apply idx_fuel|]. intros x _.
  apply bind_fuel; [apply idx_fuel|]. intros y _.
  apply bind_fuel; [apply multElements_fuel|]. intros t _.
  apply bind_fuel; [apply idx_fuel|]. intros c _.
  apply bind_fuel; [apply addElements_fuel|]. discriminate.
Qed.

Lemma multPoly_fuel (a b : list Z) : GF.multPoly F a b <> OutOfFuel.
Proof.
  unfold GF.multPoly. apply bind_fuel; [|discriminate].
  apply (foldM_fuel (fun _ => True)); [|trivial|trivial].
  intros s i _. apply (foldM_fuel (fun _ => True)); [|trivial|trivial].
  intros s' j _. apply multPoly_step_fuel.
Qed.

End NoFuel.

Lemma length_removelast {A : Type} (l : list A) :
  length (removelast l) = (length l - 1)%nat.
Proof.
  induction l as [|x l IH] using rev_ind; [reflexivity|].
  rewrite removelast_last, length_app. simpl. lia.
Qed.

Lemma constructGF_reduce_fuel (fuel m : nat) (elements : list (list Z))
  (poly : list Z) :
  (1 <= m)%nat ->
  Forall (fun e => length e = m) elements ->
  (length poly <= fuel)%nat ->
  constructGF_reduce fuel m elements poly <> OutOfFuel.
Proof.
  intros Hm Hel. revert poly. induction fuel as [|fuel IH]; intros poly Hlen.
  - assert (poly = []) as -> by (destruct poly; [reflexivity|simpl in Hlen; lia]).
    simpl. rewrite degree_nil.
    destruct (Nat.ltb_spec 0 m); [discriminate|lia].
  - simpl. destruct (Nat.ltb_spec (degree poly) m) as [Hlt|Hge]; [discriminate|].
    apply bind_fuel; [apply idx_fuel|]. intros e He.
    apply bind_fuel; [apply addPoly_fuel|]. intros r Hr.
    apply IH. rewrite length_removelast.
    apply addPoly_length in Hr. apply idx_Ok in He.
    rewrite Forall_lookup in Hel. specialize (Hel _ _ He).
    pose proof (degree_le_length e).
    assert (Hne : poly <> []) by (intros E; rewrite E, degree_nil in Hge; lia).
    pose proof (degree_lt_length poly Hne). lia.
Qed.

Lemma constructGF_entry_fuel (m : nat) (a_high : list Z)
  (elements : list (list Z)) (i : nat) :
  Forall (fun e => length e = m) elements ->
  constructGF_entry m a_high elements i <> OutOfFuel.
Proof.
  intros Hel. unfold constructGF_entry.
  apply bind_fuel; [|intros x _; apply pad_to_fuel].
  destruct (m <=? degree _)%nat; [|discriminate].
  destruct (Nat.eqb_spec m 0); [discriminate|].
  apply bind_fuel.
  - apply (foldM_fuel (fun _ => True)); [|trivial|trivial].
    intros s j _. apply multPoly_fuel.
  - intros r _. apply constructGF_reduce_fuel; [lia|exact Hel|lia].
Qed.

Lemma constructGF_fuel (p : list Z) : constructGF p <> OutOfFuel.
Proof.
  unfold constructGF. destruct (degree p =? 1)%nat; [discriminate|].
  apply (foldM_fuel (fun els => Forall (fun e => length e = degree p) els)).
  - intros s i Hs. apply bind_fuel; [apply constructGF_entry_fuel, Hs|].
    discriminate.
  - intros s i s' Hs H. inv_bind H. injection H as <-.
    apply Forall_app. split; [exact Hs|]. apply Forall_singleton.
    unfold constructGF_entry in E. inv_bind E.
    apply pad_to_length in E. exact E.
  - constructor.
Qed.

(** ** Worked examples *)

Example primitiveb_examples :
  primitiveb [1; 1] = true /\ primitiveb [1; 1; 1] = true
  /\ primitiveb [1; 1; 0; 1] = true /\ primitiveb p16 = true
  /\ primitiveb [0; 1] = false /\ primitiveb [1; 0; 1] = false
  /\ primitiveb [1; 1; 1; 1; 1] = false.
Proof. repeat split; vm_compute; reflexivity. Qed.

(** The table of the module's header comment. *)
Example constructGF_p16 :
  constructGF p16
  = Ok [[0; 0; 0; 0]; [1; 0; 0; 0]; [0; 1; 0; 0]; [0; 0; 1; 0]; [0; 0; 0; 1];
        [1; 1; 0; 0]; [0; 1; 1; 0]; [0; 0; 1; 1]; [1; 1; 0; 1]; [1; 0; 1; 0];
        [0; 1; 0; 1]; [1; 1; 1; 0]; [0; 1; 1; 1]; [1; 1; 1; 1]; [1; 0; 1; 1];
        [1; 0; 0; 1]].
Proof. vm_compute. reflexivity. Qed.

(** An irreducible polynomial that is not primitive repeats entries: the
    round trip of a = 6 lands on 1. *)
Example round_trip_needs_primitive :
  exists F v,
    GaloisField_init [1; 1; 1; 1; 1] = Ok F
    /\ GF.elementToPoly F 6 false = Ok v
    /\ GF.elementFromPoly F v = Ok 1.
Proof.
  eexists. eexists. split; [vm_compute; reflexivity|].
  split; vm_compute; reflexivity.
Qed.

(** With m >= 2 the groups do cover the field: GF(4) and GF(16). *)
Example conjugateRootGroups_GF4 :
  GF.conjugateRootGroups GF4 2 = Ok [[0]; [1]; [2; 3]].
Proof. vm_compute. reflexivity. Qed.

Example conjugateRootGroups_GF16 :
  GF.conjugateRootGroups GF16 4
  = Ok [[0]; [1]; [2; 3; 5; 9]; [4; 7; 10; 13]; [6; 11]; [8; 12; 14; 15]].
Proof. vm_compute. reflexivity. Qed.

(** A division in GF(16) where reduction steps run: quotient times divisor
    plus remainder gives the dividend back. *)
Example divmodPoly_GF16 :
  GF.divmodPoly GF16 4 [7; 0; 3; 15; 5; 1] [3; 0; 9]
    = Ok ([7; 12; 12; 8], [15; 14; 0])
  /\ (let* s := GF.multPoly GF16 [7; 12; 12; 8] [3; 0; 9] in
      GF.addPoly GF16 s [15; 14; 0]) = Ok [7; 0; 3; 15; 5; 1].
Proof. split; vm_compute; reflexivity. Qed.

(** 0 / 0 is the other way [divElements] meets a zero divisor: the exponent
    difference is nan and the conversion to an integer fails. *)
Example divElements_zero_zero : GF.divElements GF16 0 0 = Raise ValueError.
Proof. reflexivity. Qed.

(** * Further properties of the module *)

(** ** Polynomial utilities *)

(** X1: [degree(p)] is the index of the last nonzero coefficient of [p], and
    0 when there is none (all-zero or empty array); it stays below the
    length of a nonempty array. *)
Theorem degree_last_nonzero (l : list Z) :
  (forall k c, (degree l < k)%nat -> l !! k = Some c -> c = 0)
  /\ ((0 < degree l)%nat -> exists c, l !! degree l = Some c /\ c <> 0)
  /\ ((forall k c, (0 < k)%nat -> l !! k = Some c -> c = 0) ->
      degree l = 0%nat)
  /\ (l <> [] -> (degree l < length l)%nat).
Proof.
  split; [apply lookup_above_degree|].
  split; [apply lookup_at_degree|].
  split; [apply degree_zero_iff|apply degree_lt_length].
Qed.

Lemma degree_last_nonzero_witness :
  Nat.lt 0 (degree [3; 0; 5; 0]) /\ [3; 0; 5; 0] <> []
  /\ (exists c, [3; 0; 5; 0] !! degree [3; 0; 5; 0] = Some c /\ c <> 0)
  /\ Nat.lt (degree [3; 0; 5; 0]) (length [3; 0; 5; 0]).
Proof.
  destruct (degree_last_nonzero [3; 0; 5; 0]) as (_ & Hat & _ & Hlt).
  split; [vm_compute; lia|]. split; [discriminate|].
  split; [apply Hat; vm_compute; lia|apply Hlt; discriminate].
Defined.

(** X2: [X(i)] has i + 1 coefficients, all zero except the last, which is
    1, and its degree is i. *)
Theorem X_monomial (i : nat) :
  length (X i) = (i + 1)%nat
  /\ degree (X i) = i
  /\ forall j, X i !! j =
       if (j <? i)%nat then Some 0
       else if (j =? i)%nat then Some 1 else None.
Proof.
  split; [apply length_X|]. split; [apply degree_X|]. intros j.
  destruct (Nat.ltb_spec j i) as [Hlt|Hge].
  - rewrite lookup_coef by (rewrite length_X; lia).
    rewrite coef_X. destruct (Nat.eqb_spec j i); [lia|reflexivity].
  - destruct (Nat.eqb_spec j i) as [->|Hne].
    + rewrite lookup_coef by (rewrite length_X; lia).
      rewrite coef_X, Nat.eqb_refl. reflexivity.
    + apply lookup_ge_None_2. rewrite length_X. lia.
Qed.

(** ** The table constructor on arbitrary arguments *)

Lemma constructGF_widths (p : list Z) (t : list (list Z)) :
  constructGF p = Ok t -> Forall (fun v => length v = degree p) t.
Proof.
  unfold constructGF. destruct (Nat.eqb_spec (degree p) 1) as [E|E].
  - intros H. injection H as <-. rewrite E.
    repeat constructor.
  - apply (foldM_invariant
             (fun els => Forall (fun v => length v = degree p) els)).
    + intros s i s' Hs H. inv_bind H. injection H as <-.
      apply Forall_app. split; [exact Hs|]. apply Forall_singleton.
      unfold constructGF_entry in E0. inv_bind E0.
      apply pad_to_length in E0. exact E0.
    + constructor.
Qed.

Lemma constructGF_degree_0 (p : list Z) :
  degree p = 0%nat -> constructGF p = Raise ZeroDivisionError.
Proof.
  intros E. unfold constructGF. rewrite E. reflexivity.
Qed.

(** X3: for every argument [p], [constructGF(p)] ends (its reduction loop
    cannot run forever); a [p] of degree 0 makes it raise ZeroDivisionError;
    and whenever it returns, the degree m of [p] is at least 1 and the table
    has exactly 2^m entries, each of width m. *)
Theorem constructGF_shape (p : list Z) :
  constructGF p <> OutOfFuel
  /\ (degree p = 0%nat -> constructGF p = Raise ZeroDivisionError)
  /\ (forall t, constructGF p = Ok t ->
        (1 <= degree p)%nat
        /\ length t = (2 ^ degree p)%nat
        /\ Forall (fun v => length v = degree p) t).
Proof.
  split; [apply constructGF_fuel|].
  split; [apply constructGF_degree_0|].
  intros t H. destruct (constructGF_length p t H) as [Hd Hl].
  split; [exact Hd|]. split; [exact Hl|]. apply constructGF_widths, H.
Qed.

Lemma constructGF_shape_witness :
  degree [7] = 0%nat /\ constructGF [7] = Raise ZeroDivisionError
  /\ constructGF [1; 0; 1] = Ok [[0; 0]; [1; 0]; [0; 1]; [1; 0]]
  /\ Nat.le 1 (degree [1; 0; 1])
  /\ length [[0; 0]; [1; 0]; [0; 1]; [1; 0]] = Nat.pow 2 (degree [1; 0; 1])
  /\ Forall (fun v : list Z => length v = degree [1; 0; 1])
            [[0; 0]; [1; 0]; [0; 1]; [1; 0]].
Proof.
  destruct (constructGF_shape [7]) as (_ & H0 & _).
  destruct (constructGF_shape [1; 0; 1]) as (_ & _ & Hok).
  split; [reflexivity|]. split; [apply H0; reflexivity|].
  split; [reflexivity|]. apply Hok. reflexivity.
Defined.

(** X4: for every polynomial [p] with 0/1 coefficients and degree m >= 1,
    primitive or not, [constructGF(p)] returns the all-zero vector at index 0
    and, at every index k + 1 < 2^m, the coefficient vector of X^k modulo p. *)
Theorem constructGF_powers_of_alpha (p : list Z) :
  binaryb p = true -> (1 <= degree p)%nat ->
  exists t,
    constructGF p = Ok t
    /\ t !! 0%nat = Some (replicate (degree p) 0)
    /\ forall k, (S k < 2 ^ degree p)%nat ->
         t !! S k = Some (bits_of (degree p) (alpha_pow p k)).
Proof.
  intros Hb Hd. apply binaryb_binary in Hb. exists (power_table p).
  split; [apply constructGF_power_table; assumption|].
  split; [apply power_table_0|]. intros k Hk. apply power_table_S, Hk.
Qed.

Lemma constructGF_powers_of_alpha_witness :
  binaryb [1; 1; 1; 1; 1] = true /\ Nat.le 1 (degree [1; 1; 1; 1; 1])
  /\ exists t,
       constructGF [1; 1; 1; 1; 1] = Ok t
       /\ t !! 0%nat = Some (replicate (degree [1; 1; 1; 1; 1]) 0)
       /\ forall k, Nat.lt (S k) (Nat.pow 2 (degree [1; 1; 1; 1; 1])) ->
            t !! S k = Some (bits_of (degree [1; 1; 1; 1; 1])
                                     (alpha_pow [1; 1; 1; 1; 1] k)).
Proof.
  split; [reflexivity|]. split; [vm_compute; lia|].
  apply (constructGF_powers_of_alpha [1; 1; 1; 1; 1]);
    [reflexivity|vm_compute; lia].
Defined.

(** ** Closed forms of the element operations *)

Section ElementClosedForms.

Variable F : GaloisField.
Hypothesis Hq : 2 <= GF.q F.

Let N : Z := GF.q F - 1.

Lemma elementFromExp_Int_closed (e : Z) :
  GF.elementFromExp F (Int e) = Ok (if e =? -1 then 0 else e mod N + 1).
Proof.
  unfold GF.elementFromExp, INF. cbn [num_eqb num_neg orb num_add].
  rewrite (element_Int F Hq). f_equal.
  destruct (Z.eqb_spec (e + 1) 0), (Z.eqb_spec e (-1)); try lia.
  unfold N. f_equal. f_equal. lia.
Qed.

Lemma multElements_closed (a b : Z) :
  GF.multElements F a b
  = Ok (if (a =? 0) || (b =? 0) then 0 else ((a - 1) + (b - 1)) mod N + 1).
Proof.
  unfold GF.multElements.
  destruct (Z.eqb_spec a 0) as [->|Ha].
  - rewrite elementToExp_zero. cbn [bind orb].
    destruct (Z.eqb_spec b 0) as [->|Hb].
    + rewrite elementToExp_zero. reflexivity.
    + rewrite (elementToExp_nonzero F Hq b Hb). reflexivity.
  - rewrite (elementToExp_nonzero F Hq a Ha). cbn [bind orb].
    destruct (Z.eqb_spec b 0) as [->|Hb].
    + rewrite elementToExp_zero. reflexivity.
    + rewrite (elementToExp_nonzero F Hq b Hb). cbn [bind num_add].
      rewrite elementFromExp_Int_closed. fold N.
      pose proof (Z.mod_pos_bound (a - 1) N ltac:(unfold N; lia)).
      pose proof (Z.mod_pos_bound (b - 1) N ltac:(unfold N; lia)).
      destruct (Z.eqb_spec ((a - 1) mod N + (b - 1) mod N) (-1)); [lia|].
      rewrite <- Zplus_mod. reflexivity.
Qed.

Lemma divElements_closed (a b : Z) :
  a <> 0 -> b <> 0 ->
  GF.divElements F a b
  = Ok (if (a - 1) mod N - (b - 1) mod N =? -1 then 0
        else ((a - 1) - (b - 1)) mod N + 1).
Proof.
  intros Ha Hb. unfold GF.divElements.
  rewrite (elementToExp_nonzero F Hq a Ha), (elementToExp_nonzero F Hq b Hb).
  cbn [bind num_sub num_neg num_add].
  rewrite elementFromExp_Int_closed. fold N.
  replace ((a - 1) mod N + - ((b - 1) mod N))
    with ((a - 1) mod N - (b - 1) mod N) by lia.
  destruct (_ =? -1); [reflexivity|]. rewrite <- Zminus_mod. reflexivity.
Qed.

Lemma divElements_zero_dividend (b : Z) :
  b <> 0 -> GF.divElements F 0 b = Ok 0.
Proof.
  intros Hb. unfold GF.divElements.
  rewrite elementToExp_zero, (elementToExp_nonzero F Hq b Hb). reflexivity.
Qed.

Lemma powElement_closed (a n : Z) :
  a <> 0 -> 0 <= n ->
  GF.powElement F a n = Ok (((a - 1) * n) mod N + 1).
Proof.
  intros Ha Hn. unfold GF.powElement.
  rewrite (elementToExp_nonzero F Hq a Ha). cbn [bind num_mul].
  rewrite elementFromExp_Int_closed. fold N.
  pose proof (Z.mod_pos_bound (a - 1) N ltac:(unfold N; lia)).
  destruct (Z.eqb_spec ((a - 1) mod N * n) (-1)); [nia|].
  rewrite Zmult_mod_idemp_l. reflexivity.
Qed.

Lemma powElement_zero_base (n : Z) : 0 < n -> GF.powElement F 0 n = Ok 0.
Proof.
  intros Hn. unfold GF.powElement. rewrite elementToExp_zero.
  cbn [bind num_mul]. destruct (Z.eqb_spec n 0); [lia|].
  destruct (Z.ltb_spec 0 n); [reflexivity|lia].
Qed.

Lemma N_pos : 0 < N.
Proof. unfold N. lia. Qed.

Lemma mod_plus_one_nonzero (x : Z) : x mod N + 1 <> 0.
Proof. pose proof (Z.mod_pos_bound x N N_pos). lia. Qed.

End ElementClosedForms.

(** ** Exponent representation and the multiplicative operations *)

(** X5: in a constructed field, converting any integer element to its
    exponent and back gives [element(a)]; converting an integer exponent e
    to an element and back gives e mod (q - 1), except for e = -1, which
    [elementFromExp] maps to the zero element. *)
Theorem exponent_round_trip (p0 : list Z) (F : GaloisField) (a e : Z) :
  GaloisField_init p0 = Ok F ->
  bind (GF.elementToExp F a) (GF.elementFromExp F) = GF.element F (Int a)
  /\ (e <> -1 ->
      bind (GF.elementFromExp F (Int e)) (GF.elementToExp F)
      = Ok (Int (e mod (GF.q F - 1))))
  /\ GF.elementFromExp F (Int (-1)) = Ok 0.
Proof.
  intros Hinit. apply GaloisField_init_q in Hinit as (_ & _ & _ & Hq).
  split; [|split].
  - destruct (Z.eq_dec a 0) as [->|Ha].
    + rewrite elementToExp_zero. reflexivity.
    + rewrite (elementToExp_nonzero F Hq a Ha). cbn [bind].
      rewrite (elementFromExp_Int_closed F Hq), (element_Int F Hq).
      pose proof (Z.mod_pos_bound (a - 1) (GF.q F - 1)).
      destruct (Z.eqb_spec ((a - 1) mod (GF.q F - 1)) (-1)); [lia|].
      destruct (Z.eqb_spec a 0); [lia|]. rewrite Zmod_mod. reflexivity.
  - intros He. rewrite (elementFromExp_Int_closed F Hq).
    destruct (Z.eqb_spec e (-1)); [lia|]. cbn [bind].
    rewrite (elementToExp_nonzero F Hq) by (apply mod_plus_one_nonzero, Hq).
    do 2 f_equal. replace (e mod (GF.q F - 1) + 1 - 1) with (e mod (GF.q F - 1)) by lia.
    apply Zmod_mod.
  - rewrite (elementFromExp_Int_closed F Hq). reflexivity.
Qed.

Lemma exponent_round_trip_witness :
  GaloisField_init p16 = Ok GF16 /\ 40 <> -1
  /\ bind (GF.elementToExp GF16 (-7)) (GF.elementFromExp GF16)
     = GF.element GF16 (Int (-7))
  /\ bind (GF.elementFromExp GF16 (Int 40)) (GF.elementToExp GF16)
     = Ok (Int (40 mod (GF.q GF16 - 1)))
  /\ GF.elementFromExp GF16 (Int (-1)) = Ok 0.
Proof.
  destruct (exponent_round_trip p16 GF16 (-7) 40) as (H1 & H2 & H3);
    [vm_compute; reflexivity|].
  split; [vm_compute; reflexivity|]. split; [lia|].
  split; [exact H1|]. split; [apply H2; lia|exact H3].
Defined.

(** X6: in a constructed field [multElements] never fails on integers and is
    exponent addition modulo q - 1: it is commutative and associative, the
    zero element annihilates, and 1 is neutral up to canonicalisation
    ([multElements(a, 1)] is [element(a)]). *)
Theorem multElements_laws (p0 : list Z) (F : GaloisField) (a b c : Z) :
  GaloisField_init p0 = Ok F ->
  (exists r, GF.multElements F a b = Ok r /\ 0 <= r < GF.q F
             /\ (r = 0 <-> a = 0 \/ b = 0))
  /\ GF.multElements F a b = GF.multElements F b a
  /\ bind (GF.multElements F a b) (fun r => GF.multElements F r c)
     = bind (GF.multElements F b c) (fun r => GF.multElements F a r)
  /\ GF.multElements F a 0 = Ok 0
  /\ GF.multElements F a 1 = GF.element F (Int a).
Proof.
  intros Hinit. apply GaloisField_init_q in Hinit as (_ & _ & _ & Hq).
  pose proof (mod_plus_one_nonzero F Hq) as Hnz.
  assert (HN : 0 < GF.q F - 1) by lia.
  rewrite !(multElements_closed F Hq).
  split; [|split; [|split; [|split]]].
  - eexists. split; [reflexivity|].
    destruct (Z.eqb_spec a 0), (Z.eqb_spec b 0); cbn [orb];
      try (split; [lia|split; [intros _; tauto|reflexivity]]).
    pose proof (Z.mod_pos_bound (a - 1 + (b - 1)) (GF.q F - 1) HN).
    split; [lia|]. split; intros H'; lia.
  - rewrite orb_comm, (Z.add_comm (a - 1)). reflexivity.
  - cbn [bind]. rewrite !(multElements_closed F Hq).
    destruct (Z.eqb_spec a 0), (Z.eqb_spec b 0), (Z.eqb_spec c 0);
      cbn [orb]; try reflexivity;
      repeat match goal with
        | |- context [?x mod ?n + 1 =? 0] =>
            destruct (Z.eqb_spec (x mod n + 1) 0);
            [exfalso; eapply Hnz; eassumption|]
        end; cbn [orb]; try reflexivity.
    f_equal. f_equal.
    replace ((a - 1 + (b - 1)) mod (GF.q F - 1) + 1 - 1 + (c - 1))
      with ((a - 1 + (b - 1)) mod (GF.q F - 1) + (c - 1)) by lia.
    replace (a - 1 + ((b - 1 + (c - 1)) mod (GF.q F - 1) + 1 - 1))
      with (a - 1 + (b - 1 + (c - 1)) mod (GF.q F - 1)) by lia.
    rewrite Zplus_mod_idemp_l, Zplus_mod_idemp_r. f_equal. lia.
  - rewrite orb_true_r. reflexivity.
  - rewrite (element_Int F Hq).
    destruct (Z.eqb_spec a 0); cbn [orb]; [reflexivity|].
    f_equal. f_equal. f_equal. lia.
Qed.

Lemma multElements_laws_witness :
  GaloisField_init p16 = Ok GF16
  /\ GF.multElements GF16 9 14 = GF.multElements GF16 14 9
  /\ GF.multElements GF16 (-3) 1 = GF.element GF16 (Int (-3)).
Proof.
  destruct (multElements_laws p16 GF16 9 14 1) as (_ & H1 & _);
    [vm_compute; reflexivity|].
  destruct (multElements_laws p16 GF16 (-3) 14 1) as (_ & _ & _ & _ & H2);
    [vm_compute; reflexivity|].
  split; [vm_compute; reflexivity|]. split; [exact H1|exact H2].
Defined.

(** X7: in a constructed field, for nonzero integers a and b with exponents
    ea and eb, [divElements(a, b)] returns the zero element when
    ea - eb = -1 (the exponent -1 is taken for the zero element), and
    otherwise a nonzero element r with [multElements(r, b) = element(a)];
    a nonzero element divided by itself is 1 and the zero element divided
    by a nonzero one is 0. *)
Theorem divElements_laws (p0 : list Z) (F : GaloisField) (a b : Z) :
  GaloisField_init p0 = Ok F ->
  a <> 0 -> b <> 0 ->
  ((a - 1) mod (GF.q F - 1) - (b - 1) mod (GF.q F - 1) = -1 ->
   GF.divElements F a b = Ok 0)
  /\ ((a - 1) mod (GF.q F - 1) - (b - 1) mod (GF.q F - 1) <> -1 ->
      exists r, GF.divElements F a b = Ok r
                /\ 1 <= r <= GF.q F - 1
                /\ GF.multElements F r b = GF.element F (Int a))
  /\ GF.divElements F a a = Ok 1
  /\ GF.divElements F 0 b = Ok 0.
Proof.
  intros Hinit Ha Hb. apply GaloisField_init_q in Hinit as (_ & _ & _ & Hq).
  assert (HN : 0 < GF.q F - 1) by lia.
  split; [|split; [|split]].
  - intros Hd. rewrite (divElements_closed F Hq a b Ha Hb), Hd. reflexivity.
  - intros Hd. rewrite (divElements_closed F Hq a b Ha Hb).
    destruct (Z.eqb_spec ((a - 1) mod (GF.q F - 1) - (b - 1) mod (GF.q F - 1))
                (-1)); [contradiction|].
    eexists. split; [reflexivity|].
    pose proof (Z.mod_pos_bound (a - 1 - (b - 1)) (GF.q F - 1) HN).
    split; [lia|].
    rewrite (multElements_closed F Hq), (element_Int F Hq).
    destruct (Z.eqb_spec ((a - 1 - (b - 1)) mod (GF.q F - 1) + 1) 0); [lia|].
    destruct (Z.eqb_spec b 0); [contradiction|].
    destruct (Z.eqb_spec a 0); [contradiction|]. cbn [orb].
    f_equal. f_equal.
    replace ((a - 1 - (b - 1)) mod (GF.q F - 1) + 1 - 1 + (b - 1))
      with ((a - 1 - (b - 1)) mod (GF.q F - 1) + (b - 1)) by lia.
    rewrite Zplus_mod_idemp_l. f_equal. lia.
  - rewrite (divElements_closed F Hq a a Ha Ha).
    replace ((a - 1) mod (GF.q F - 1) - (a - 1) mod (GF.q F - 1)) with 0 by lia.
    replace (a - 1 - (a - 1)) with 0 by lia. reflexivity.
  - apply (divElements_zero_dividend F Hq b Hb).
Qed.

Lemma divElements_laws_witness :
  GaloisField_init p16 = Ok GF16 /\ 7 <> 0 /\ 8 <> 0 /\ 3 <> 0
  /\ GF.divElements GF16 7 8 = Ok 0
  /\ (exists r, GF.divElements GF16 7 3 = Ok r
                /\ 1 <= r <= GF.q GF16 - 1
                /\ GF.multElements GF16 r 3 = GF.element GF16 (Int 7)).
Proof.
  destruct (divElements_laws p16 GF16 7 8) as (H1 & _);
    [vm_compute; reflexivity|lia|lia|].
  destruct (divElements_laws p16 GF16 7 3) as (_ & H2 & _);
    [vm_compute; reflexivity|lia|lia|].
  split; [vm_compute; reflexivity|]. repeat (split; [lia|]).
  split; [apply H1; vm_compute; reflexivity|].
  apply H2. vm_compute. discriminate.
Defined.



(** ** Edges of the polynomial operations *)

Lemma count_nonzero_0 (b : list Z) :
  count_nonzero b = 0%nat <-> Forall (fun x => x = 0) b.
Proof.
  unfold count_nonzero. induction b as [|x b IH].
  - split; [constructor|reflexivity].
  - rewrite filter_cons. destruct (decide (x <> 0)) as [Hx|Hx].
    + split; [discriminate|]. intros H. inversion H. contradiction.
    + rewrite IH. assert (x = 0) by lia. split.
      * intros H'. constructor; assumption.
      * intros H'. inversion H'. assumption.
Qed.

Lemma divmodPoly_loop_exit (F : GaloisField) (fuel : nat) (b : list Z)
  (st st' : list Z * list Z) :
  GF.divmodPoly_loop F fuel b st = Ok st' ->
  (degree (fst st') < degree b)%nat.
Proof.
  revert st. induction fuel as [|fuel IH]; intros st H; simpl in H.
  - destruct (Nat.ltb_spec (degree (fst st)) (degree b)); [|discriminate].
    injection H as <-. assumption.
  - destruct (Nat.ltb_spec (degree (fst st)) (degree b)).
    + injection H as <-. assumption.
    + inv_bind H. eauto.
Qed.

(** X9: [divmodPoly(a, b)] raises AssertionError when [b] has no nonzero
    coefficient (the empty array included); when [b] is nonzero and
    degree(a) < degree(b) it returns at once, with the empty array as
    quotient and [a] itself, untrimmed, as remainder. *)
Theorem divmodPoly_edges (F : GaloisField) (fuel : nat) (a b : list Z) :
  (Forall (fun x => x = 0) b ->
   GF.divmodPoly F fuel a b = Raise AssertionError)
  /\ (~ Forall (fun x => x = 0) b -> (degree a < degree b)%nat ->
      GF.divmodPoly F fuel a b = Ok ([], a)).
Proof.
  unfold GF.divmodPoly. split.
  - intros Hz. apply count_nonzero_0 in Hz. rewrite Hz. reflexivity.
  - intros Hnz Hd. destruct (Nat.eqb_spec (count_nonzero b) 0) as [E|E].
    + apply count_nonzero_0 in E. contradiction.
    + assert (Hl : GF.divmodPoly_loop F fuel b (a, []) = Ok (a, [])).
      { destruct fuel; simpl;
          destruct (Nat.ltb_spec (degree a) (degree b)); try lia; reflexivity. }
      rewrite Hl. reflexivity.
Qed.

Lemma divmodPoly_edges_witness :
  Forall (fun x => x = 0) [0; 0]
  /\ GF.divmodPoly GF16 3 [1; 2] [0; 0] = Raise AssertionError
  /\ ~ Forall (fun x => x = 0) [0; 0; 7]
  /\ Nat.lt (degree [5; 4; 0]) (degree [0; 0; 7])
  /\ GF.divmodPoly GF16 3 [5; 4; 0] [0; 0; 7] = Ok ([], [5; 4; 0]).
Proof.
  destruct (divmodPoly_edges GF16 3 [1; 2] [0; 0]) as (H1 & _).
  destruct (divmodPoly_edges GF16 3 [5; 4; 0] [0; 0; 7]) as (_ & H2).
  assert (Hz : Forall (fun x => x = 0) [0; 0]) by (repeat constructor).
  assert (Hnz : ~ Forall (fun x => x = 0) [0; 0; 7]).
  { intros H. apply count_nonzero_0 in H. vm_compute in H. discriminate. }
  assert (Hd : Nat.lt (degree [5; 4; 0]) (degree [0; 0; 7]))
    by (vm_compute; lia).
  split; [exact Hz|]. split; [apply H1, Hz|]. split; [exact Hnz|].
  split; [exact Hd|apply H2; assumption].
Defined.

(** X10: whatever the field and the arguments, a pair returned by
    [divmodPoly(a, b)] has degree(remainder) < degree(b); hence the call
    never returns when [b] is a constant (degree 0), and neither do
    [divPoly], [modPoly] and [isFactor]. *)
Theorem divmodPoly_remainder_degree (F : GaloisField) (fuel : nat)
  (a b : list Z) :
  (forall quo rem, GF.divmodPoly F fuel a b = Ok (quo, rem) ->
     (degree rem < degree b)%nat)
  /\ (degree b = 0%nat ->
      (forall qr, GF.divmodPoly F fuel a b <> Ok qr)
      /\ (forall x, GF.divPoly F fuel a b <> Ok x)
      /\ (forall x, GF.modPoly F fuel a b <> Ok x)
      /\ (forall x, GF.isFactor F fuel a b <> Ok x)).
Proof.
  assert (Hdeg : forall quo rem, GF.divmodPoly F fuel a b = Ok (quo, rem) ->
                                 (degree rem < degree b)%nat).
  { intros quo rem H. unfold GF.divmodPoly in H.
    destruct (count_nonzero b =? 0)%nat; [discriminate|].
    inv_bind H. injection H as <- <-. eapply divmodPoly_loop_exit, E. }
  split; [exact Hdeg|]. intros Hb.
  assert (Hno : forall qr, GF.divmodPoly F fuel a b <> Ok qr).
  { intros [quo rem] H. apply Hdeg in H. lia. }
  split; [exact Hno|]. unfold GF.isFactor, GF.modPoly, GF.divPoly.
  split; [|split].
  - intros x H. inv_bind H. exact (Hno _ E).
  - intros x H. inv_bind H. exact (Hno _ E).
  - intros x H. inv_bind H. inv_bind E. exact (Hno _ E0).
Qed.

Lemma divmodPoly_remainder_degree_witness :
  GF.divmodPoly GF16 4 [7; 0; 3; 15; 5; 1] [3; 0; 9]
    = Ok ([7; 12; 12; 8], [15; 14; 0])
  /\ Nat.lt (degree [15; 14; 0]) (degree [3; 0; 9])
  /\ degree [9] = 0%nat
  /\ (forall x, GF.isFactor GF16 4 [7; 0; 3] [9] <> Ok x).
Proof.
  destruct (divmodPoly_remainder_degree GF16 4 [7; 0; 3; 15; 5; 1] [3; 0; 9])
    as (H1 & _).
  destruct (divmodPoly_remainder_degree GF16 4 [7; 0; 3] [9])
    as (_ & H2).
  split; [vm_compute; reflexivity|].
  split; [apply (H1 [7; 12; 12; 8]); vm_compute; reflexivity|].
  split; [reflexivity|]. apply H2. reflexivity.
Defined.

(** X12: [multPoly] raises IndexError as soon as one operand is the empty
    array, in particular on the empty quotient that [divmodPoly] returns
    when no reduction step runs. *)
Theorem multPoly_empty_operand (F : GaloisField) (a b : list Z) :
  GF.multPoly F [] b = Raise IndexError
  /\ (a <> [] -> GF.multPoly F a [] = Raise IndexError).
Proof.
  split.
  - unfold GF.multPoly. rewrite degree_nil. cbn [Nat.add seq foldM].
    rewrite Nat.add_1_r. cbn [seq foldM].
    unfold GF.multPoly_step at 1. reflexivity.
  - intros Ha. unfold GF.multPoly. rewrite degree_nil.
    rewrite (Nat.add_1_r (degree a)). cbn [Nat.add seq foldM].
    unfold GF.multPoly_step at 1.
    destruct a as [|x a']; [contradiction|]. reflexivity.
Qed.

Lemma multPoly_empty_operand_witness :
  [3; 1] <> [] /\ GF.multPoly GF16 [3; 1] [] = Raise IndexError.
Proof.
  destruct (multPoly_empty_operand GF16 [3; 1] [3; 1]) as (_ & H).
  split; [discriminate|apply H; discriminate].
Defined.

(** ** Addition in a constructed field *)

Lemma GaloisField_init_table (p0 : list Z) (F : GaloisField) :
  GaloisField_init p0 = Ok F ->
  _p F = p0 /\ constructGF p0 = Ok (_cachedPolyElements F).
Proof.
  unfold GaloisField_init. intros H. inv_bind H. injection H as <-.
  simpl. auto.
Qed.

Lemma pad_to_same (n : nat) (v : list Z) : length v = n -> pad_to n v = Ok v.
Proof.
  intros <-. unfold pad_to. rewrite Nat.ltb_irrefl, Nat.sub_diag.
  simpl. rewrite app_nil_r. reflexivity.
Qed.

Section ConstructedField.

Variable p0 : list Z.
Variable F : GaloisField.
Hypothesis Hinit : GaloisField_init p0 = Ok F.

Lemma table_entry (r : Z) :
  0 <= r < GF.q F ->
  exists v, _cachedPolyElements F !! Z.to_nat r = Some v
            /\ length v = GF.m F.
Proof.
  intros Hr. destruct (GaloisField_init_table p0 F Hinit) as [Hp Ht].
  assert (Hlt : (Z.to_nat r < length (_cachedPolyElements F))%nat)
    by (unfold GF.q in Hr; lia).
  destruct (lookup_lt_is_Some_2 _ _ Hlt) as [v Hv]. exists v.
  split; [exact Hv|]. apply constructGF_widths in Ht.
  rewrite Forall_lookup in Ht. unfold GF.m, GF.p. rewrite Hp. eauto.
Qed.

(** [elementToPoly(a, True)] is the table entry of [element(a)]. *)
Lemma elementToPoly_padded (a : Z) :
  exists r v, GF.element F (Int a) = Ok r /\ 0 <= r < GF.q F
              /\ _cachedPolyElements F !! Z.to_nat r = Some v
              /\ length v = GF.m F
              /\ GF.elementToPoly F a true = Ok v
              /\ GF.elementToPoly F a false = Ok v.
Proof.
  destruct (GaloisField_init_q p0 F Hinit) as (_ & _ & _ & Hq).
  pose proof (element_Int F Hq a) as Hr.
  pose proof (element_range F Hq a _ Hr) as (Hrange & _).
  destruct (table_entry _ Hrange) as (v & Hv & Hl).
  eexists. exists v. repeat (split; [eassumption|]).
  unfold GF.elementToPoly. rewrite Hr. cbn [bind].
  unfold idx, GF.elementsAsPoly. rewrite Hv. cbn [bind].
  split; [apply pad_to_same, Hl|reflexivity].
Qed.

Lemma zip_with_add_comm (u v : list Z) :
  zip_with Z.add u v = zip_with Z.add v u.
Proof.
  revert v. induction u as [|x u IH]; intros [|y v]; simpl; try reflexivity.
  rewrite IH, Z.add_comm. reflexivity.
Qed.

Lemma np_add_same_length (u v : list Z) :
  length u = length v -> np_add u v = Ok (zip_with Z.add u v).
Proof. intros H. unfold np_add. rewrite H, Nat.eqb_refl. reflexivity. Qed.

(** The vector handed to [elementFromPoly] by [addElements]. *)
Lemma addElements_unfold (a b : Z) :
  exists u v,
    GF.elementToPoly F a true = Ok u /\ GF.elementToPoly F b true = Ok v
    /\ length u = GF.m F /\ length v = GF.m F
    /\ GF.addElements F a b
       = GF.elementFromPoly F (map (fun x => x mod 2) (zip_with Z.add u v)).
Proof.
  destruct (elementToPoly_padded a) as (ra & u & _ & _ & _ & Hlu & Hu & _).
  destruct (elementToPoly_padded b) as (rb & v & _ & _ & _ & Hlv & Hv & _).
  exists u, v. repeat (split; [assumption|]).
  unfold GF.addElements. rewrite Hu, Hv. cbn [bind].
  rewrite np_add_same_length by congruence. reflexivity.
Qed.

Lemma addElements_comm (a b : Z) :
  GF.addElements F a b = GF.addElements F b a.
Proof.
  destruct (addElements_unfold a b) as (u & v & Hu & Hv & _ & _ & ->).
  destruct (addElements_unfold b a) as (v' & u' & Hv' & Hu' & _ & _ & ->).
  assert (u' = u) by congruence. assert (v' = v) by congruence. subst.
  rewrite zip_with_add_comm. reflexivity.
Qed.

Lemma mapM_ext {A B : Type} (f g : A -> result B) (xs : list A) :
  (forall x, f x = g x) -> mapM f xs = mapM g xs.
Proof.
  intros H. induction xs as [|x xs IH]; simpl; [reflexivity|].
  rewrite H, IH. reflexivity.
Qed.

Lemma idx_out {A : Type} (l : list A) (i : nat) :
  (length l <= i)%nat -> idx l i = Raise IndexError.
Proof. intros H. unfold idx. rewrite lookup_ge_None_2 by exact H. reflexivity. Qed.

Lemma addPoly_comm (a b : list Z) : GF.addPoly F a b = GF.addPoly F b a.
Proof.
  unfold GF.addPoly. rewrite (Nat.max_comm (degree b)).
  apply mapM_ext. intros i.
  destruct (Nat.leb_spec (length a) i) as [Ha|Ha],
           (Nat.leb_spec (length b) i) as [Hb|Hb]; try reflexivity.
  - rewrite !idx_out by assumption. reflexivity.
  - rewrite !idx_coef by assumption. cbn [bind]. apply addElements_comm.
Qed.

End ConstructedField.

Lemma addPoly_empty_left (F : GaloisField) (b : list Z) :
  b <> [] -> GF.addPoly F [] b = Ok (trim b).
Proof.
  intros Hb. unfold GF.addPoly. rewrite degree_nil, Nat.max_0_l.
  rewrite (mapM_map _ (coef b)).
  - f_equal. unfold trim. apply list_eq_coef.
    + rewrite length_map, length_seq, length_take.
      pose proof (degree_lt_length b Hb). lia.
    + intros j Hj. rewrite length_map, length_seq in Hj.
      rewrite coef_map_seq, coef_take by exact Hj. reflexivity.
  - intros i Hi. apply in_seq in Hi. simpl. apply idx_coef.
    pose proof (degree_lt_length b Hb). lia.
Qed.



(** ** Evaluation and root search *)

Lemma powElement_00 (F : GaloisField) :
  2 <= GF.q F -> GF.powElement F 0 0 = Raise ValueError.
Proof.
  intros Hq. unfold GF.powElement. rewrite elementToExp_zero.
  cbn [bind num_mul Z.eqb]. unfold GF.elementFromExp.
  cbn [num_eqb orb num_add INF num_neg]. apply element_NaN, Hq.
Qed.

(** X13: in a constructed field, substituting the zero element into any
    nonempty polynomial raises ValueError: the first term is 0^0, which
    [powElement] cannot compute.  The empty polynomial evaluates to 0. *)
Theorem substitute_at_zero (p0 : list Z) (F : GaloisField) (p : list Z)
  (a : Z) :
  GaloisField_init p0 = Ok F ->
  (p <> [] -> GF.substituteElementIntoPoly F p 0 = Raise ValueError)
  /\ GF.substituteElementIntoPoly F [] a = Ok 0.
Proof.
  intros Hinit. split; [|reflexivity]. intros Hp.
  destruct p as [|c p']; [contradiction|].
  unfold GF.substituteElementIntoPoly. cbn [length seq foldM].
  unfold GF.substitute_step at 1. change (Z.of_nat 0) with 0.
  apply GaloisField_init_q in Hinit as (_ & _ & _ & Hq).
  rewrite (powElement_00 F Hq). reflexivity.
Qed.

Lemma substitute_at_zero_witness :
  GaloisField_init p16 = Ok GF16 /\ [0; 1] <> []
  /\ GF.substituteElementIntoPoly GF16 [0; 1] 0 = Raise ValueError.
Proof.
  destruct (substitute_at_zero p16 GF16 [0; 1] 0) as (H & _);
    [vm_compute; reflexivity|].
  split; [vm_compute; reflexivity|]. split; [discriminate|].
  apply H. discriminate.
Defined.

Lemma roots_loop_closed (F : GaloisField) (p : list Z) (n a : nat)
  (acc rs : list Z) :
  foldM (fun roots element =>
           let* res := GF.substituteElementIntoPoly F p (Z.of_nat element) in
           if res =? 0 then Ok (roots ++ [Z.of_nat element]) else Ok roots)
        (seq a n) acc = Ok rs ->
  rs = acc ++ map Z.of_nat (List.filter (is_root F p) (seq a n))
  /\ forall e, In e (seq a n) ->
       exists r, GF.substituteElementIntoPoly F p (Z.of_nat e) = Ok r.
Proof.
  revert a acc. induction n as [|n IH]; intros a acc H; simpl in H.
  - injection H as <-. simpl. rewrite app_nil_r. split; [reflexivity|].
    intros e [].
  - inv_bind H. inv_bind E. apply IH in H as [-> Hall].
    cbn [seq List.filter]. unfold is_root at 2. rewrite E0. split.
    + destruct (x0 =? 0); injection E as <-.
      * rewrite <- app_assoc. reflexivity.
      * reflexivity.
    + intros e [<-|He]; eauto.
Qed.

Lemma filter_seq_sorted (f : nat -> bool) (n a : nat) :
  StronglySorted Z.lt (map Z.of_nat (List.filter f (seq a n))).
Proof.
  revert a. induction n as [|n IH]; intros a; simpl; [constructor|].
  destruct (f a); [|apply IH]. simpl. constructor; [apply IH|].
  apply Forall_forall. intros x Hx.
  apply list_elem_of_In, in_map_iff in Hx as [e [<- He]].
  apply filter_In in He as [He _]. apply in_seq in He. lia.
Qed.

(** X14: when [roots(p)] returns, the list holds exactly the integers e
    with 1 <= e <= q - 1 whose substitution into [p] gives the zero element,
    in strictly ascending order; the zero element is never reported, whatever
    [p] is. *)
Theorem roots_sound_complete (F : GaloisField) (p rs : list Z) :
  GF.roots F p = Ok rs ->
  (forall e, In e rs <->
     1 <= e <= GF.q F - 1 /\ GF.substituteElementIntoPoly F p e = Ok 0)
  /\ StronglySorted Z.lt rs
  /\ ~ In 0 rs.
Proof.
  unfold GF.roots. intros H. apply roots_loop_closed in H as [-> Hall].
  cbn [app].
  assert (Hmem : forall e,
    In e (map Z.of_nat (List.filter (is_root F p) (seq 1 (Z.to_nat (GF.q F) - 1))))
    <-> 1 <= e <= GF.q F - 1 /\ GF.substituteElementIntoPoly F p e = Ok 0).
  { intros e. rewrite in_map_iff. split.
    - intros [k [<- Hk]]. apply filter_In in Hk as [Hk Hr].
      apply in_seq in Hk. split; [lia|].
      unfold is_root in Hr.
      destruct (GF.substituteElementIntoPoly F p (Z.of_nat k)) as [r| |];
        try discriminate.
      apply Z.eqb_eq in Hr. subst. reflexivity.
    - intros [He Hs]. exists (Z.to_nat e).
      rewrite Z2Nat.id by lia. split; [reflexivity|].
      apply filter_In. split; [apply in_seq; lia|].
      unfold is_root. rewrite Z2Nat.id by lia. rewrite Hs. reflexivity. }
  split; [exact Hmem|]. split; [apply filter_seq_sorted|].
  intros H0. apply Hmem in H0. lia.
Qed.

Lemma roots_sound_complete_witness :
  GF.roots GF16 p16 = Ok [2; 3; 5; 9]
  /\ (forall e, In e [2; 3; 5; 9] <->
        1 <= e <= GF.q GF16 - 1
        /\ GF.substituteElementIntoPoly GF16 p16 e = Ok 0)
  /\ StronglySorted Z.lt [2; 3; 5; 9]
  /\ ~ In 0 [2; 3; 5; 9].
Proof.
  split; [vm_compute; reflexivity|].
  apply (roots_sound_complete GF16 p16). vm_compute. reflexivity.
Defined.

(** ** Irreducibility and primitivity tests *)

Lemma irreducible_loop_m1 (F : GaloisField) (fuel : nat) (p : list Z)
  (tbl : list (list Z)) :
  GF.m F = 1%nat -> GF.irreducible_loop F fuel p tbl = Ok true.
Proof.
  intros Hm. induction tbl as [|f tbl IH]; simpl; [reflexivity|].
  rewrite Hm.
  destruct (Nat.ltb_spec 0 (degree f)), (Nat.ltb_spec (degree f) 1);
    try lia; exact IH.
Qed.

(** X15: on a field with m = 1, such as the default GF(2) instance,
    [irreducible(p)] and [primitive(p)] return True for every [p]: the
    candidate factors are the table entries of degree strictly between 0 and
    m, of which there are none, and [range(1, 2**m-1)] is empty. *)
Theorem irreducible_on_GF2 (F : GaloisField) (fuel : nat) (p : list Z) :
  GF.m F = 1%nat ->
  GF.irreducible F fuel p = Ok true /\ GF.primitive F fuel p = Ok true.
Proof.
  intros Hm. unfold GF.primitive, GF.irreducible.
  rewrite (irreducible_loop_m1 F fuel p _ Hm). split; [reflexivity|].
  cbn [bind negb]. rewrite Hm. reflexivity.
Qed.

Lemma irreducible_on_GF2_witness :
  GF.m GF2 = 1%nat
  /\ GF.irreducible GF2 0 [1; 0; 1] = Ok true
  /\ GF.primitive GF2 0 [1; 0; 1] = Ok true.
Proof.
  split; [reflexivity|]. apply (irreducible_on_GF2 GF2 0 [1; 0; 1]).
  reflexivity.
Defined.

(** ** Conjugate root groups *)

Lemma conjugateRoots_loop_nonempty (F : GaloisField) (fuel : nat)
  (root l : Z) (acc x : list Z) :
  GF.conjugateRoots_loop F fuel root l acc = Ok x -> x <> [].
Proof.
  revert l acc. induction fuel as [|fuel IH]; intros l acc H;
    [discriminate|]. simpl in H. inv_bind H.
  destruct (x0 =? root).
  - injection H as <-. destruct acc; discriminate.
  - eapply IH, H.
Qed.

Lemma conjugateRoots_sorted (F : GaloisField) (fuel : nat) (root : Z)
  (g : list Z) :
  GF.conjugateRoots F fuel root = Ok g ->
  StronglySorted Z.le g /\ g <> [].
Proof.
  unfold GF.conjugateRoots. intros H. inv_bind H. injection H as <-.
  split; [apply StronglySorted_merge_sort; apply _|].
  apply conjugateRoots_loop_nonempty in E.
  intros E'. apply E. apply Permutation_nil.
  rewrite <- E'. apply merge_sort_Permutation.
Qed.

Lemma existsb_list_Z_eqb (g : list Z) (gs : list (list Z)) :
  existsb (list_Z_eqb g) gs = false -> g ∉ gs.
Proof.
  intros H Hin. apply list_elem_of_In in Hin.
  assert (existsb (list_Z_eqb g) gs = true).
  { apply existsb_exists. exists g. split; [exact Hin|].
    unfold list_Z_eqb. apply bool_decide_eq_true_2. reflexivity. }
  congruence.
Qed.

(** X16: when [conjugateRootGroups()] returns, the first group is [[0]], no
    group occurs twice, and every group is nonempty and sorted in ascending
    order. *)
Theorem conjugateRootGroups_invariants (F : GaloisField) (fuel : nat)
  (gs : list (list Z)) :
  GF.conjugateRootGroups F fuel = Ok gs ->
  (exists gs', gs = [0] :: gs')
  /\ NoDup gs
  /\ Forall (fun g => StronglySorted Z.le g /\ g <> []) gs.
Proof.
  unfold GF.conjugateRootGroups.
  apply (foldM_invariant
           (fun gs => (exists gs', gs = [0] :: gs') /\ NoDup gs
                      /\ Forall (fun g => StronglySorted Z.le g /\ g <> []) gs)).
  - intros s i s' (Hhd & Hnd & Hall) H. inv_bind H.
    destruct (existsb (list_Z_eqb x) s) eqn:Ex; injection H as <-.
    + auto.
    + split; [|split].
      * destruct Hhd as [gs' ->]. exists (gs' ++ [x]). reflexivity.
      * apply NoDup_app. split; [exact Hnd|]. split.
        -- intros g Hg Hx. apply list_elem_of_singleton in Hx. subst g.
           apply existsb_list_Z_eqb in Ex. contradiction.
        -- apply NoDup_singleton.
      * apply Forall_app. split; [exact Hall|]. apply Forall_singleton.
        eapply conjugateRoots_sorted, E.
  - split; [exists []; reflexivity|]. split; [apply NoDup_singleton|].
    apply Forall_singleton. split; [repeat constructor|discriminate].
Qed.

Lemma conjugateRootGroups_invariants_witness :
  GF.conjugateRootGroups GF16 4
    = Ok [[0]; [1]; [2; 3; 5; 9]; [4; 7; 10; 13]; [6; 11]; [8; 12; 14; 15]]
  /\ (exists gs',
        [[0]; [1]; [2; 3; 5; 9]; [4; 7; 10; 13]; [6; 11]; [8; 12; 14; 15]]
        = [0] :: gs')
  /\ NoDup [[0]; [1]; [2; 3; 5; 9]; [4; 7; 10; 13]; [6; 11]; [8; 12; 14; 15]]
  /\ Forall (fun g => StronglySorted Z.le g /\ g <> [])
        [[0]; [1]; [2; 3; 5; 9]; [4; 7; 10; 13]; [6; 11]; [8; 12; 14; 15]].
Proof.
  split; [vm_compute; reflexivity|].
  apply (conjugateRootGroups_invariants GF16 4). vm_compute. reflexivity.
Defined.

(** ** Fields built from a primitive polynomial *)

(** ** The field built from a primitive polynomial *)

Lemma small_lt (p : list Z) (v : N) :
  small p v -> (v < 2 ^ N.of_nat (degree p))%N.
Proof.
  intros Hs. destruct (N.eq_dec v 0%N) as [->|Hv].
  - apply N.neq_0_lt_0, N.pow_nonzero. discriminate.
  - apply N.log2_lt_pow2; [lia|].
    destruct (N.lt_ge_cases (N.log2 v) (N.of_nat (degree p))) as [H|H];
      [exact H|exfalso].
    specialize (Hs (N.to_nat (N.log2 v))). unfold tb in Hs.
    rewrite N2Nat.id in Hs. rewrite N.bit_log2 in Hs by exact Hv.
    assert (false = true) by (symmetry; apply Hs; lia). discriminate.
Qed.

Section PrimitiveField.

Variable p : list Z.
Hypothesis Hprim : primitiveb p = true.
Variable F : GaloisField.
Hypothesis Hinit : GaloisField_init p = Ok F.

Let Nn : nat := (2 ^ degree p - 1)%nat.

Lemma Nn_pos : (1 <= Nn)%nat.
Proof.
  destruct (primitive_facts p Hprim) as (_ & Hd & _).
  unfold Nn. assert (2 ^ 1 <= 2 ^ degree p)%nat
    by (apply Nat.pow_le_mono_r; lia).
  simpl in H. lia.
Qed.

Lemma q_minus_1 : GF.q F - 1 = Z.of_nat Nn.
Proof.
  destruct (GaloisField_init_q p F Hinit) as (_ & _ & Hq & _).
  rewrite Hq. unfold Nn. pose proof Nn_pos. unfold Nn in H.
  rewrite Nat2Z.inj_sub by lia. rewrite Nat2Z.inj_pow. reflexivity.
Qed.

Lemma field_table :
  _p F = p /\ _cachedPolyElements F = power_table p
  /\ GF.m F = degree p /\ 2 <= GF.q F.
Proof.
  destruct (primitive_facts p Hprim) as (Hbin & Hd & _).
  destruct (GaloisField_init_table p F Hinit) as [Hp Ht].
  destruct (GaloisField_init_q p F Hinit) as (_ & _ & _ & Hq).
  rewrite constructGF_power_table in Ht by assumption.
  injection Ht as Ht. unfold GF.m, GF.p. rewrite Hp. auto.
Qed.

Lemma alpha_pow_period (k : nat) : alpha_pow p (k + Nn) = alpha_pow p k.
Proof.
  destruct (primitive_facts p Hprim) as (_ & _ & Hone & _).
  rewrite alpha_pow_add. fold Nn in Hone. rewrite Hone. reflexivity.
Qed.

Lemma alpha_pow_mul_period (a r : nat) :
  alpha_pow p (a * Nn + r) = alpha_pow p r.
Proof.
  induction a as [|a IH]; [reflexivity|].
  replace (S a * Nn + r)%nat with (a * Nn + r + Nn)%nat by lia.
  rewrite alpha_pow_period. exact IH.
Qed.

Lemma alpha_pow_mod (k : nat) : alpha_pow p (k mod Nn) = alpha_pow p k.
Proof.
  pose proof Nn_pos.
  rewrite (Nat.div_mod_eq k Nn) at 2.
  rewrite (Nat.mul_comm Nn). symmetry. apply alpha_pow_mul_period.
Qed.

Lemma val_0 : val p 0 = 0%N.
Proof. reflexivity. Qed.

(** The exponent of a nonzero integer element, as a natural number. *)
Lemma val_nonzero (a : Z) :
  a <> 0 ->
  val p a = alpha_pow p (Z.to_nat ((a - 1) mod Z.of_nat Nn))
  /\ (Z.to_nat ((a - 1) mod Z.of_nat Nn) < Nn)%nat.
Proof.
  intros Ha. unfold val. destruct (Z.eqb_spec a 0); [contradiction|].
  pose proof Nn_pos.
  assert (E : 2 ^ Z.of_nat (degree p) - 1 = Z.of_nat Nn).
  { unfold Nn in *. rewrite Nat2Z.inj_sub by lia.
    rewrite Nat2Z.inj_pow. reflexivity. }
  rewrite E. split; [reflexivity|].
  pose proof (Z.mod_pos_bound (a - 1) (Z.of_nat Nn)). lia.
Qed.

Lemma val_small (a : Z) : small p (val p a).
Proof.
  destruct (primitive_facts p Hprim) as (Hbin & Hd & _).
  unfold val. destruct (a =? 0); [apply small_0|].
  apply small_alpha_pow; assumption.
Qed.

Lemma val_canonical (a : Z) :
  val p (if a =? 0 then 0 else (a - 1) mod (GF.q F - 1) + 1) = val p a.
Proof.
  destruct (Z.eqb_spec a 0) as [->|Ha]; [reflexivity|].
  rewrite q_minus_1. pose proof Nn_pos.
  pose proof (Z.mod_pos_bound (a - 1) (Z.of_nat Nn)).
  destruct (val_nonzero a Ha) as [-> _].
  destruct (val_nonzero ((a - 1) mod Z.of_nat Nn + 1)) as [-> _]; [lia|].
  replace ((a - 1) mod Z.of_nat Nn + 1 - 1) with ((a - 1) mod Z.of_nat Nn)
    by lia. rewrite Zmod_mod. reflexivity.
Qed.

Lemma val_inj (r r' : Z) :
  0 <= r < GF.q F -> 0 <= r' < GF.q F -> val p r = val p r' -> r = r'.
Proof.
  intros Hr Hr' E. pose proof q_minus_1 as Hq. pose proof Nn_pos.
  assert (Hexp : forall x, 1 <= x < GF.q F ->
            val p x = alpha_pow p (Z.to_nat (x - 1)) /\ (Z.to_nat (x - 1) < Nn)%nat).
  { intros x Hx. destruct (val_nonzero x) as [-> _]; [lia|].
    rewrite Z.mod_small by lia. split; [reflexivity|lia]. }
  destruct (Z.eq_dec r 0) as [->|Hnz], (Z.eq_dec r' 0) as [->|Hnz'].
  - reflexivity.
  - exfalso. destruct (Hexp r') as [E' Hlt]; [lia|].
    rewrite val_0, E' in E. symmetry in E.
    exact (alpha_pow_nonzero p Hprim _ Hlt E).
  - exfalso. destruct (Hexp r) as [E' Hlt]; [lia|].
    rewrite val_0, E' in E. exact (alpha_pow_nonzero p Hprim _ Hlt E).
  - destruct (Hexp r) as [E1 H1]; [lia|]. destruct (Hexp r') as [E2 H2]; [lia|].
    rewrite E1, E2 in E.
    destruct (lt_eq_lt_dec (Z.to_nat (r - 1)) (Z.to_nat (r' - 1)))
      as [[Hlt|Heq]|Hgt]; [|lia|].
    + exfalso. apply (alpha_pow_distinct p Hprim _ _ (conj Hlt H2) E).
    + exfalso. symmetry in E.
      apply (alpha_pow_distinct p Hprim _ _ (conj Hgt H1) E).
Qed.

Lemma table_val (r : Z) :
  0 <= r < GF.q F ->
  _cachedPolyElements F !! Z.to_nat r = Some (bits_of (degree p) (val p r)).
Proof.
  intros Hr. destruct field_table as (_ & -> & _). pose proof q_minus_1.
  destruct (Z.eq_dec r 0) as [->|Hnz].
  - simpl Z.to_nat. rewrite power_table_0, val_0, bits_of_0. reflexivity.
  - replace (Z.to_nat r) with (S (Z.to_nat (r - 1))) by lia.
    rewrite power_table_S by (fold Nn; lia).
    destruct (val_nonzero r Hnz) as [-> _].
    rewrite Z.mod_small by lia. reflexivity.
Qed.

End PrimitiveField.

Lemma small_lxor (p : list Z) (u v : N) :
  small p u -> small p v -> small p (N.lxor u v).
Proof.
  intros Hu Hv j Hj. rewrite tb_lxor, Hu, Hv by exact Hj. reflexivity.
Qed.

Lemma bits_of_xor (width : nat) (u v : N) :
  map (fun x => x mod 2) (zip_with Z.add (bits_of width u) (bits_of width v))
  = bits_of width (N.lxor u v).
Proof.
  apply list_eq. intros j. rewrite list_lookup_fmap, lookup_zip_with.
  destruct (Nat.lt_ge_cases j width) as [Hj|Hj].
  - rewrite !bits_of_lookup by exact Hj. simpl. rewrite tb_lxor.
    destruct (tb u j), (tb v j); reflexivity.
  - rewrite !lookup_ge_None_2 by (rewrite length_bits_of; exact Hj).
    reflexivity.
Qed.

Section PrimitiveFieldOps.

Variable p : list Z.
Hypothesis Hprim : primitiveb p = true.
Variable F : GaloisField.
Hypothesis Hinit : GaloisField_init p = Ok F.

Let Nn : nat := (2 ^ degree p - 1)%nat.

(** Every residue is the value of a canonical element: the 2^m - 1 distinct
    nonzero powers of alpha exhaust the nonzero residues. *)
Lemma val_surj (v : N) :
  small p v -> exists r, 0 <= r < GF.q F /\ val p r = v.
Proof.
  intros Hv. pose proof (q_minus_1 p Hprim F Hinit) as Hq. fold Nn in Hq.
  pose proof (Nn_pos p Hprim) as Hpos. fold Nn in Hpos.
  destruct (N.eq_dec v 0%N) as [->|Hnz].
  { exists 0. split; [lia|reflexivity]. }
  destruct (primitive_facts p Hprim) as (Hbin & Hd & _).
  set (L := alpha_pow p <$> seq 0 Nn).
  set (U := N.of_nat <$> seq 1 Nn).
  assert (Hpow : N.to_nat (2 ^ N.of_nat (degree p)) = S Nn).
  { rewrite N2Nat.inj_pow, Nat2N.id. unfold Nn in *.
    change (N.to_nat 2) with 2%nat. lia. }
  assert (HinU : forall x, small p x -> x <> 0%N -> x ∈ U).
  { intros x Hx Hx0. apply list_elem_of_fmap. exists (N.to_nat x).
    split; [symmetry; apply N2Nat.id|].
    apply list_elem_of_In, in_seq. apply small_lt in Hx. lia. }
  assert (HL : NoDup L).
  { apply NoDup_fmap_2_strong; [|apply NoDup_seq].
    intros i j Hi Hj E.
    apply list_elem_of_In, in_seq in Hi. apply list_elem_of_In, in_seq in Hj.
    destruct (lt_eq_lt_dec i j) as [[Hlt|Heq]|Hgt]; [|exact Heq|].
    - exfalso. apply (alpha_pow_distinct p Hprim i j); [fold Nn; lia|exact E].
    - exfalso. apply (alpha_pow_distinct p Hprim j i); [fold Nn; lia|].
      symmetry. exact E. }
  assert (Hsub : L ⊆+ U).
  { apply NoDup_submseteq; [exact HL|]. intros x Hx.
    apply list_elem_of_fmap in Hx as [k [-> Hk]].
    apply list_elem_of_In, in_seq in Hk.
    apply HinU; [apply small_alpha_pow; assumption|].
    apply (alpha_pow_nonzero p Hprim). fold Nn. lia. }
  assert (Hperm : L ≡ₚ U).
  { apply submseteq_length_Permutation; [exact Hsub|].
    unfold L, U. rewrite !length_fmap, !length_seq. lia. }
  assert (HvL : v ∈ L) by (rewrite Hperm; apply HinU; assumption).
  apply list_elem_of_fmap in HvL as [k [-> Hk]].
  apply list_elem_of_In, in_seq in Hk.
  exists (Z.of_nat k + 1). split; [lia|].
  destruct (val_nonzero p Hprim (Z.of_nat k + 1)) as [-> _]; [lia|].
  fold Nn. replace (Z.of_nat k + 1 - 1) with (Z.of_nat k) by lia.
  rewrite Z.mod_small by lia. rewrite Nat2Z.id. reflexivity.
Qed.

(** The linear search finds the canonical element of a table vector. *)
Lemma elementFromPoly_table (r : Z) :
  0 <= r < GF.q F ->
  GF.elementFromPoly F (bits_of (degree p) (val p r)) = Ok r.
Proof.
  intros Hr. destruct (field_table p Hprim F Hinit) as (Hp & Ht & Hm & _).
  pose proof (table_val p Hprim F Hinit r Hr) as Hv. rewrite Ht in Hv.
  unfold GF.elementFromPoly, GF.p, GF.elementsAsPoly. rewrite Hp, Ht.
  set (v := bits_of (degree p) (val p r)) in *.
  assert (Hwidth : forall k' v', power_table p !! k' = Some v' ->
                                 length v' = degree p).
  { intros k' v' Hk'. pose proof (power_table_widths p) as Hw.
    rewrite Forall_lookup in Hw. exact (Hw k' v' Hk'). }
  pose proof (degree_le_length v) as Hdv. rewrite (Hwidth _ _ Hv) in Hdv.
  destruct (Nat.ltb_spec (degree p) (degree v)); [lia|].
  rewrite (find_poly_first _ (Z.to_nat r) v 0 Hv).
  - f_equal. lia.
  - intros k' v' Hk' Hv' E.
    apply trim_inj in E;
      [|rewrite (Hwidth _ _ Hv), (Hwidth _ _ Hv'); reflexivity].
    subst v'.
    pose proof (NoDup_lookup _ _ _ _ (power_table_NoDup p Hprim) Hv' Hv).
    lia.
Qed.

Lemma elementFromPoly_bits (v : N) :
  small p v ->
  exists r, 0 <= r < GF.q F /\ val p r = v
            /\ GF.elementFromPoly F (bits_of (degree p) v) = Ok r.
Proof.
  intros Hv. destruct (val_surj v Hv) as (r & Hr & E). exists r.
  split; [exact Hr|]. split; [exact E|]. rewrite <- E.
  apply elementFromPoly_table, Hr.
Qed.

Lemma elementToPoly_val (a : Z) :
  GF.elementToPoly F a true = Ok (bits_of (degree p) (val p a)).
Proof.
  destruct (field_table p Hprim F Hinit) as (_ & _ & Hm & Hq).
  unfold GF.elementToPoly. rewrite (element_Int F Hq). cbn [bind].
  pose proof (element_range F Hq a _ (element_Int F Hq a)) as (Hr & _).
  unfold idx, GF.elementsAsPoly.
  rewrite (table_val p Hprim F Hinit _ Hr).
  rewrite (val_canonical p Hprim F Hinit). cbn [bind].
  apply pad_to_same. rewrite length_bits_of. symmetry. exact Hm.
Qed.

(** [addElements] is total and adds residues. *)
Lemma addElements_val (a b : Z) :
  exists r, GF.addElements F a b = Ok r /\ 0 <= r < GF.q F
            /\ val p r = N.lxor (val p a) (val p b).
Proof.
  destruct (elementFromPoly_bits (N.lxor (val p a) (val p b)))
    as (r & Hr & E & Hfind).
  { apply small_lxor; apply (val_small p Hprim). }
  exists r. split; [|split; [exact Hr|exact E]].
  unfold GF.addElements. rewrite !elementToPoly_val. cbn [bind].
  rewrite np_add_same_length by (rewrite !length_bits_of; reflexivity).
  cbn [bind]. rewrite bits_of_xor. exact Hfind.
Qed.

(** [multElements] by a nonzero element shifts the residue. *)
Lemma multElements_val (a b : Z) :
  a <> 0 ->
  exists r, GF.multElements F a b = Ok r /\ 0 <= r < GF.q F
            /\ val p r
               = shift p (Z.to_nat ((a - 1) mod Z.of_nat Nn)) (val p b).
Proof.
  intros Ha. destruct (field_table p Hprim F Hinit) as (_ & _ & _ & Hq).
  pose proof (q_minus_1 p Hprim F Hinit) as HqN. fold Nn in HqN.
  pose proof (Nn_pos p Hprim) as Hpos. fold Nn in Hpos.
  rewrite (multElements_closed F Hq). rewrite HqN.
  destruct (Z.eqb_spec a 0); [contradiction|]. cbn [orb].
  eexists. split; [reflexivity|].
  destruct (Z.eqb_spec b 0) as [->|Hb].
  - split; [lia|]. rewrite !val_0, shift_0. reflexivity.
  - pose proof (Z.mod_pos_bound (a - 1 + (b - 1)) (Z.of_nat Nn)).
    pose proof (Z.mod_pos_bound (a - 1) (Z.of_nat Nn)).
    pose proof (Z.mod_pos_bound (b - 1) (Z.of_nat Nn)).
    split; [lia|].
    destruct (val_nonzero p Hprim ((a - 1 + (b - 1)) mod Z.of_nat Nn + 1))
      as [-> _]; [lia|].
    destruct (val_nonzero p Hprim b Hb) as [-> _]. fold Nn.
    replace ((a - 1 + (b - 1)) mod Z.of_nat Nn + 1 - 1)
      with ((a - 1 + (b - 1)) mod Z.of_nat Nn) by lia.
    rewrite Zmod_mod. change (shift p ?k (alpha_pow p ?j))
      with (shift p k (shift p j 1)).
    rewrite <- shift_add. fold (alpha_pow p
      (Z.to_nat ((a - 1) mod Z.of_nat Nn) + Z.to_nat ((b - 1) mod Z.of_nat Nn))).
    rewrite <- (alpha_pow_mod p Hprim
      (Z.to_nat ((a - 1) mod Z.of_nat Nn) + Z.to_nat ((b - 1) mod Z.of_nat Nn))).
    fold Nn. f_equal.
    rewrite Zplus_mod.
    rewrite <- (Nat2Z.id (_ mod Nn)%nat). f_equal.
    rewrite Nat2Z.inj_mod, Nat2Z.inj_add, !Z2Nat.id by lia. reflexivity.
Qed.

End PrimitiveFieldOps.

Section PrimitiveFieldLaws.

Variable p : list Z.
Hypothesis Hprim : primitiveb p = true.
Variable F : GaloisField.
Hypothesis Hinit : GaloisField_init p = Ok F.

(** The sum is the canonical element whose residue is the xor. *)
Lemma addElements_spec (a b r : Z) :
  0 <= r < GF.q F -> val p r = N.lxor (val p a) (val p b) ->
  GF.addElements F a b = Ok r.
Proof.
  intros Hr E.
  destruct (addElements_val p Hprim F Hinit a b) as (r' & -> & Hr' & E').
  f_equal. apply (val_inj p Hprim F Hinit); [exact Hr'|exact Hr|congruence].
Qed.

Lemma element_val (a : Z) :
  exists r, GF.element F (Int a) = Ok r /\ 0 <= r < GF.q F
            /\ val p r = val p a.
Proof.
  destruct (field_table p Hprim F Hinit) as (_ & _ & _ & Hq).
  eexists. split; [apply (element_Int F Hq)|].
  split; [apply (element_range F Hq a _ (element_Int F Hq a))|].
  apply (val_canonical p Hprim F Hinit).
Qed.

Lemma multElements_zero_left (b : Z) : GF.multElements F 0 b = Ok 0.
Proof.
  destruct (field_table p Hprim F Hinit) as (_ & _ & _ & Hq).
  rewrite (multElements_closed F Hq). reflexivity.
Qed.

End PrimitiveFieldLaws.

(** X17: in a field built from a primitive polynomial, addElements never
    fails on integers: the sum is a canonical element whose padded vector
    is the componentwise sum modulo 2 of the arguments' vectors; addition
    is associative, every element is its own negative, and adding the
    zero element canonicalises. *)
Theorem addElements_laws (p : list Z) (F : GaloisField) (a b c : Z) :
  primitiveb p = true ->
  GaloisField_init p = Ok F ->
  exists ab bc abc u v,
    GF.addElements F a b = Ok ab /\ 0 <= ab < GF.q F
    /\ GF.elementToPoly F a true = Ok u
    /\ GF.elementToPoly F b true = Ok v
    /\ GF.elementToPoly F ab true
       = Ok (map (fun x => x mod 2) (zip_with Z.add u v))
    /\ GF.addElements F b c = Ok bc
    /\ GF.addElements F ab c = Ok abc
    /\ GF.addElements F a bc = Ok abc
    /\ GF.addElements F a a = Ok 0
    /\ GF.addElements F a 0 = GF.element F (Int a).
Proof.
  intros Hprim Hinit.
  destruct (addElements_val p Hprim F Hinit a b) as (ab & Hab & Rab & Vab).
  destruct (addElements_val p Hprim F Hinit b c) as (bc & Hbc & Rbc & Vbc).
  destruct (addElements_val p Hprim F Hinit ab c) as (abc & Habc & Rabc & Vabc).
  destruct (element_val p Hprim F Hinit a) as (ra & Hra & Rra & Vra).
  destruct (field_table p Hprim F Hinit) as (_ & _ & _ & Hq).
  exists ab, bc, abc, (bits_of (degree p) (val p a)),
         (bits_of (degree p) (val p b)).
  repeat split; try assumption; try lia.
  - apply (elementToPoly_val p Hprim F Hinit).
  - apply (elementToPoly_val p Hprim F Hinit).
  - rewrite (elementToPoly_val p Hprim F Hinit), bits_of_xor, Vab.
    reflexivity.
  - apply (addElements_spec p Hprim F Hinit); [exact Rabc|].
    rewrite Vabc, Vab, Vbc. apply N.lxor_assoc.
  - apply (addElements_spec p Hprim F Hinit); [lia|].
    rewrite N.lxor_nilpotent. reflexivity.
  - rewrite Hra. apply (addElements_spec p Hprim F Hinit); [exact Rra|].
    rewrite Vra. change (val p 0) with 0%N. rewrite N.lxor_0_r. reflexivity.
Qed.

Lemma addElements_laws_witness :
  primitiveb p16 = true /\ GaloisField_init p16 = Ok GF16
  /\ exists ab bc abc u v,
    GF.addElements GF16 7 12 = Ok ab /\ 0 <= ab < GF.q GF16
    /\ GF.elementToPoly GF16 7 true = Ok u
    /\ GF.elementToPoly GF16 12 true = Ok v
    /\ GF.elementToPoly GF16 ab true
       = Ok (map (fun x => x mod 2) (zip_with Z.add u v))
    /\ GF.addElements GF16 12 20 = Ok bc
    /\ GF.addElements GF16 ab 20 = Ok abc
    /\ GF.addElements GF16 7 bc = Ok abc
    /\ GF.addElements GF16 7 7 = Ok 0
    /\ GF.addElements GF16 7 0 = GF.element GF16 (Int 7).
Proof.
  split; [vm_compute; reflexivity|].
  split; [vm_compute; reflexivity|].
  apply (addElements_laws p16 GF16 7 12 20); vm_compute; reflexivity.
Defined.

(** X18: in a field built from a primitive polynomial, multElements
    distributes over addElements, for all integer arguments. *)
Theorem multElements_distributes (p : list Z) (F : GaloisField) (a b c : Z) :
  primitiveb p = true ->
  GaloisField_init p = Ok F ->
  exists s ab ac r,
    GF.addElements F b c = Ok s
    /\ GF.multElements F a b = Ok ab
    /\ GF.multElements F a c = Ok ac
    /\ GF.multElements F a s = Ok r
    /\ GF.addElements F ab ac = Ok r.
Proof.
  intros Hprim Hinit.
  destruct (addElements_val p Hprim F Hinit b c) as (s & Hs & Rs & Vs).
  destruct (Z.eq_dec a 0) as [->|Ha].
  - exists s, 0, 0, 0. rewrite !(multElements_zero_left p Hprim F Hinit).
    repeat split; try assumption.
    apply (addElements_spec p Hprim F Hinit).
    + destruct (field_table p Hprim F Hinit) as (_ & _ & _ & Hq). lia.
    + reflexivity.
  - destruct (multElements_val p Hprim F Hinit a b Ha) as (ab & Hab & Rab & Vab).
    destruct (multElements_val p Hprim F Hinit a c Ha) as (ac & Hac & Rac & Vac).
    destruct (multElements_val p Hprim F Hinit a s Ha) as (r & Hr & Rr & Vr).
    exists s, ab, ac, r. repeat split; try assumption.
    apply (addElements_spec p Hprim F Hinit); [exact Rr|].
    rewrite Vr, Vab, Vac, Vs. apply shift_lxor.
Qed.

Lemma multElements_distributes_witness :
  primitiveb p16 = true /\ GaloisField_init p16 = Ok GF16
  /\ exists s ab ac r,
    GF.addElements GF16 12 20 = Ok s
    /\ GF.multElements GF16 7 12 = Ok ab
    /\ GF.multElements GF16 7 20 = Ok ac
    /\ GF.multElements GF16 7 s = Ok r
    /\ GF.addElements GF16 ab ac = Ok r.
Proof.
  split; [vm_compute; reflexivity|].
  split; [vm_compute; reflexivity|].
  apply (multElements_distributes p16 GF16 7 12 20); vm_compute; reflexivity.
Defined.

(** ** The search of elementFromPoly *)

Lemma degree_app_zeros (l : list Z) (k : nat) :
  degree (l ++ replicate k 0) = degree l.
Proof.
  induction k as [|k IH]; [rewrite app_nil_r; reflexivity|].
  rewrite replicate_S_end, app_assoc, degree_snoc. exact IH.
Qed.

Lemma trim_app_zeros (l : list Z) (k : nat) :
  l <> [] -> trim (l ++ replicate k 0) = trim l.
Proof.
  intros Hl. unfold trim. rewrite degree_app_zeros.
  pose proof (degree_lt_length l Hl).
  rewrite take_app_le by lia. reflexivity.
Qed.

Lemma trim_idemp (l : list Z) : trim (trim l) = trim l.
Proof.
  unfold trim at 1. rewrite degree_trim. unfold trim.
  rewrite take_take. f_equal. lia.
Qed.

Lemma trim_nonempty (l : list Z) : l <> [] -> trim l <> [].
Proof.
  intros Hl E. apply (f_equal length) in E.
  rewrite length_trim in E by exact Hl. simpl in E. lia.
Qed.

(** The search fails when no entry matches. *)
Lemma find_poly_none (w : list Z) (t : list (list Z)) (i0 : Z) :
  Forall (fun e => trim e <> w) t ->
  GF.find_poly w t i0 = Raise AssertionError.
Proof.
  intros H. revert i0. induction H as [|e t He _ IH]; intros i0.
  - reflexivity.
  - simpl. unfold list_Z_eqb. rewrite bool_decide_eq_false_2 by exact He.
    apply IH.
Qed.

(** The search returns the least matching index. *)
Lemma find_poly_least (w : list Z) (t : list (list Z)) (i0 r : Z) :
  GF.find_poly w t i0 = Ok r ->
  exists k e, r = i0 + Z.of_nat k /\ t !! k = Some e /\ trim e = w
              /\ forall k' e', (k' < k)%nat -> t !! k' = Some e' ->
                               trim e' <> w.
Proof.
  revert i0. induction t as [|e t IH]; intros i0 H; [discriminate|].
  simpl in H. unfold list_Z_eqb in H.
  destruct (bool_decide (trim e = w)) eqn:E.
  - apply bool_decide_eq_true_1 in E. injection H as <-.
    exists 0%nat, e. split; [lia|]. split; [reflexivity|]. split; [exact E|].
    intros k' e' Hk'. lia.
  - apply bool_decide_eq_false_1 in E.
    destruct (IH _ H) as (k & e0 & -> & Hk & He0 & Hmin).
    exists (S k), e0. split; [lia|]. split; [exact Hk|]. split; [exact He0|].
    intros [|k'] e' Hlt He'.
    + injection He' as <-. exact E.
    + apply (Hmin k' e'); [lia|exact He'].
Qed.

Lemma find_poly_some (w : list Z) (t : list (list Z)) (i0 : Z) (k : nat)
      (e : list Z) :
  t !! k = Some e -> trim e = w ->
  exists r, GF.find_poly w t i0 = Ok r.
Proof.
  revert i0 k. induction t as [|e0 t IH]; intros i0 k Hk He.
  - rewrite lookup_nil in Hk. discriminate.
  - simpl. unfold list_Z_eqb. destruct (bool_decide (trim e0 = w)) eqn:E.
    + eexists. reflexivity.
    + destruct k as [|k].
      * injection Hk as ->. apply bool_decide_eq_false_1 in E. contradiction.
      * apply (IH _ k Hk He).
Qed.

(** X19: in a field built from a primitive polynomial, elementFromPoly is
    defined on every nonempty 0/1 vector of degree below m, whatever its
    length, and elementToPoly of the element it returns gives the vector
    back up to dangling zeros (exactly, when the vector has width m). *)
Theorem elementFromPoly_left_inverse (p : list Z) (F : GaloisField)
        (v : list Z) :
  primitiveb p = true ->
  GaloisField_init p = Ok F ->
  v <> [] -> binary v -> Nat.lt (degree v) (degree p) ->
  exists r u,
    GF.elementFromPoly F v = Ok r /\ 0 <= r < GF.q F
    /\ GF.elementToPoly F r true = Ok u
    /\ GF.elementToPoly F r false = Ok u
    /\ trim u = trim v
    /\ (length v = degree p -> u = v).
Proof.
  intros Hprim Hinit Hne Hbin Hdeg.
  destruct (primitive_facts p Hprim) as (Hpbin & Hpdeg & _).
  destruct (field_table p Hprim F Hinit) as (Hp & Ht & Hm & Hq).
  set (w := ev p v).
  assert (Hsmall : small p w).
  { intros j Hj. unfold w. rewrite (tb_ev_small p Hpdeg) by exact Hdeg.
    rewrite coef_above_degree by lia. reflexivity. }
  pose proof (format_poly p Hpdeg v Hbin Hdeg) as Hfmt. fold w in Hfmt.
  unfold pad_to in Hfmt.
  destruct (degree p <? length (trim v))%nat; [discriminate|].
  injection Hfmt as Hfmt.
  assert (Htrim : trim (bits_of (degree p) w) = trim v).
  { rewrite <- Hfmt, trim_app_zeros by (apply trim_nonempty, Hne).
    apply trim_idemp. }
  assert (Hdw : degree (bits_of (degree p) w) = degree v).
  { rewrite <- Hfmt, degree_app_zeros. apply degree_trim. }
  destruct (elementFromPoly_bits p Hprim F Hinit w Hsmall)
    as (r & Hr & Vr & Hfind).
  exists r, (bits_of (degree p) w).
  assert (Hto : GF.elementToPoly F r true = Ok (bits_of (degree p) w)).
  { rewrite (elementToPoly_val p Hprim F Hinit), Vr. reflexivity. }
  split.
  { unfold GF.elementFromPoly in *. rewrite <- Hdw, <- Htrim. exact Hfind. }
  split; [exact Hr|]. split; [exact Hto|]. split.
  { destruct (elementToPoly_padded p F Hinit r)
      as (r' & u' & _ & _ & _ & _ & Ht' & Hf'). congruence. }
  split; [exact Htrim|].
  intros Hlen. apply trim_inj; [rewrite length_bits_of; lia|exact Htrim].
Qed.

Lemma elementFromPoly_left_inverse_witness :
  primitiveb p16 = true /\ GaloisField_init p16 = Ok GF16
  /\ [0; 1; 1; 0; 0; 0] <> [] /\ binary [0; 1; 1; 0; 0; 0]
  /\ Nat.lt (degree [0; 1; 1; 0; 0; 0]) (degree p16)
  /\ exists r u,
    GF.elementFromPoly GF16 [0; 1; 1; 0; 0; 0] = Ok r /\ 0 <= r < GF.q GF16
    /\ GF.elementToPoly GF16 r true = Ok u
    /\ GF.elementToPoly GF16 r false = Ok u
    /\ trim u = trim [0; 1; 1; 0; 0; 0]
    /\ (length [0; 1; 1; 0; 0; 0] = degree p16 -> u = [0; 1; 1; 0; 0; 0]).
Proof.
  assert (Hb : binary [0; 1; 1; 0; 0; 0])
    by (apply binaryb_binary; vm_compute; reflexivity).
  split; [vm_compute; reflexivity|].
  split; [vm_compute; reflexivity|].
  split; [discriminate|].
  split; [exact Hb|].
  split; [vm_compute; lia|].
  apply (elementFromPoly_left_inverse p16 GF16 [0; 1; 1; 0; 0; 0]).
  - vm_compute; reflexivity.
  - vm_compute; reflexivity.
  - discriminate.
  - exact Hb.
  - vm_compute; lia.
Defined.

(** X20: in a field built from a polynomial with 0/1 coefficients,
    elementFromPoly raises AssertionError on the empty array, on every
    vector of degree m or more, and on every vector with a coefficient
    other than 0 and 1 up to its degree. *)
Theorem elementFromPoly_rejects (p : list Z) (F : GaloisField) (v : list Z) :
  binary p ->
  GaloisField_init p = Ok F ->
  v = [] \/ Nat.le (degree p) (degree v) \/ ~ binary (trim v) ->
  GF.elementFromPoly F v = Raise AssertionError.
Proof.
  intros Hbin Hinit Hv.
  destruct (GaloisField_init_q p F Hinit) as (Hp & Hdeg & _).
  destruct (GaloisField_init_table p F Hinit) as (_ & Hc).
  rewrite (constructGF_power_table p Hbin Hdeg) in Hc. injection Hc as Ht.
  unfold GF.elementFromPoly, GF.p, GF.elementsAsPoly. rewrite Hp, <- Ht.
  destruct (degree p <? degree v)%nat; [reflexivity|].
  apply find_poly_none. rewrite Forall_forall. intros e He E.
  assert (Hlen : length e = degree p).
  { pose proof (power_table_widths p) as Hw. rewrite Forall_forall in Hw.
    apply Hw, He. }
  assert (Hene : e <> []) by (intros ->; simpl in Hlen; lia).
  assert (Hebin : binary e).
  { apply list_elem_of_lookup in He as [k Hk].
    destruct k as [|k].
    - rewrite power_table_0 in Hk. injection Hk as <-.
      apply binary_replicate.
    - unfold power_table in Hk. simpl in Hk.
      rewrite list_lookup_fmap in Hk.
      destruct (seq 0 (2 ^ degree p - 1) !! k); [|discriminate].
      injection Hk as <-. apply binary_bits_of. }
  destruct Hv as [->|[Hd|Hnb]].
  - apply (trim_nonempty e Hene). exact E.
  - pose proof (degree_lt_length e Hene).
    pose proof (degree_trim e) as D1. pose proof (degree_trim v) as D2.
    rewrite E in D1. lia.
  - apply Hnb. rewrite <- E. apply binary_take, Hebin.
Qed.

Lemma elementFromPoly_rejects_witness :
  binary p16 /\ GaloisField_init p16 = Ok GF16
  /\ GF.elementFromPoly GF16 [0; 0; 0; 0; 1] = Raise AssertionError.
Proof.
  assert (Hb : binary p16) by (apply binaryb_binary; vm_compute; reflexivity).
  split; [exact Hb|].
  split; [vm_compute; reflexivity|].
  apply (elementFromPoly_rejects p16 GF16 [0; 0; 0; 0; 1] Hb).
  - vm_compute; reflexivity.
  - right; left. vm_compute. lia.
Defined.

(** X21: in any constructed field, elementFromPoly(elementToPoly(a)) for a
    canonical a returns the least element r whose table vector equals that
    of a: r <= a, elementToPoly(r) = elementToPoly(a), and no element
    below r has that vector. *)
Theorem elementFromPoly_least_index (p : list Z) (F : GaloisField) (a : Z) :
  GaloisField_init p = Ok F ->
  0 <= a < GF.q F ->
  exists v r,
    GF.elementToPoly F a false = Ok v
    /\ GF.elementFromPoly F v = Ok r
    /\ 0 <= r <= a
    /\ GF.elementToPoly F r false = Ok v
    /\ forall a' v', 0 <= a' < r ->
                     GF.elementToPoly F a' false = Ok v' -> v' <> v.
Proof.
  intros Hinit Ha.
  destruct (GaloisField_init_q p F Hinit) as (Hp & Hdeg & Hq & Hq2).
  assert (Hm : GF.m F = degree p) by (unfold GF.m, GF.p; rewrite Hp; reflexivity).
  assert (Hto : forall x, 0 <= x < GF.q F ->
                forall u, GF.elementToPoly F x false = Ok u <->
                          _cachedPolyElements F !! Z.to_nat x = Some u).
  { intros x Hx u. unfold GF.elementToPoly.
    rewrite (element_canonical_id F Hq2 x Hx). cbn [bind].
    unfold idx, GF.elementsAsPoly.
    destruct (_cachedPolyElements F !! Z.to_nat x); cbn [bind].
    - split; intros H; injection H as <-; reflexivity.
    - split; intros H; discriminate. }
  destruct (table_entry p F Hinit a Ha) as (v & Hv & Hlen).
  assert (Hwidth : forall k e, _cachedPolyElements F !! k = Some e ->
                               length e = degree p).
  { intros k e Hk.
    destruct (GaloisField_init_table p F Hinit) as (_ & Hc).
    pose proof (constructGF_widths p _ Hc) as Hw.
    rewrite Forall_lookup in Hw. exact (Hw k e Hk). }
  destruct (find_poly_some (trim v) (_cachedPolyElements F) 0 _ v Hv eq_refl)
    as (r & Hfind).
  destruct (find_poly_least _ _ _ _ Hfind) as (k & e & Hr & Hk & He & Hmin).
  assert (e = v).
  { apply trim_inj; [|exact He].
    rewrite (Hwidth _ _ Hk), (Hwidth _ _ Hv). reflexivity. }
  subst e.
  assert (Hka : (k <= Z.to_nat a)%nat).
  { destruct (Nat.le_gt_cases k (Z.to_nat a)) as [H|H]; [exact H|].
    exfalso. apply (Hmin (Z.to_nat a) v H Hv). reflexivity. }
  exists v, r. split; [apply Hto; assumption|].
  split.
  { unfold GF.elementFromPoly, GF.p, GF.elementsAsPoly. rewrite Hp.
    pose proof (degree_le_length v). rewrite Hlen, Hm in H.
    destruct (Nat.ltb_spec (degree p) (degree v)); [lia|]. exact Hfind. }
  split; [lia|].
  split.
  { apply Hto; [lia|]. rewrite Hr. replace (Z.to_nat (0 + Z.of_nat k)) with k by lia.
    exact Hk. }
  intros a' v' Ha' Hv' ->.
  apply Hto in Hv'; [|lia].
  apply (Hmin (Z.to_nat a') v); [lia|exact Hv'|reflexivity].
Qed.

Lemma elementFromPoly_least_index_witness :
  GaloisField_init [1; 1; 1; 1; 1] = Ok
    {| _p := [1; 1; 1; 1; 1];
       _cachedPolyElements := power_table [1; 1; 1; 1; 1] |}
  /\ 0 <= 6 < 16
  /\ exists v r,
    GF.elementToPoly {| _p := [1; 1; 1; 1; 1];
       _cachedPolyElements := power_table [1; 1; 1; 1; 1] |} 6 false = Ok v
    /\ GF.elementFromPoly {| _p := [1; 1; 1; 1; 1];
       _cachedPolyElements := power_table [1; 1; 1; 1; 1] |} v = Ok r
    /\ 0 <= r <= 6
    /\ GF.elementToPoly {| _p := [1; 1; 1; 1; 1];
       _cachedPolyElements := power_table [1; 1; 1; 1; 1] |} r false = Ok v
    /\ forall a' v', 0 <= a' < r ->
         GF.elementToPoly {| _p := [1; 1; 1; 1; 1];
           _cachedPolyElements := power_table [1; 1; 1; 1; 1] |} a' false
         = Ok v' -> v' <> v.
Proof.
  split; [vm_compute; reflexivity|].
  split; [lia|].
  apply (elementFromPoly_least_index [1; 1; 1; 1; 1]).
  - vm_compute; reflexivity.
  - vm_compute. split; [discriminate|reflexivity].
Defined.

(** ** Conjugate roots *)

Section ConjugateRoots.

Variable p0 : list Z.
Variable F : GaloisField.
Hypothesis Hinit : GaloisField_init p0 = Ok F.

Lemma conj_powElement (root l : Z) :
  0 <= l -> GF.powElement F root (2 ^ l) = Ok (conjugate F root l).
Proof.
  intros Hl. destruct (GaloisField_init_q p0 F Hinit) as (_ & _ & _ & Hq).
  assert (0 < 2 ^ l) by (apply Z.pow_pos_nonneg; lia).
  unfold conjugate. destruct (Z.eqb_spec root 0) as [->|Hr].
  - apply (powElement_zero_base F). lia.
  - apply (powElement_closed F Hq); lia.
Qed.

Lemma conj_range (root l : Z) : 0 <= conjugate F root l < GF.q F.
Proof.
  destruct (GaloisField_init_q p0 F Hinit) as (_ & _ & _ & Hq).
  unfold conjugate. destruct (root =? 0); [lia|].
  pose proof (Z.mod_pos_bound ((root - 1) * 2 ^ l) (GF.q F - 1)). lia.
Qed.

Lemma conj_m (root : Z) : 0 <= root < GF.q F -> conjugate F root (Z.of_nat (degree p0)) = root.
Proof.
  intros Hr. destruct (GaloisField_init_q p0 F Hinit) as (_ & _ & Hq & Hq2).
  unfold conjugate. destruct (Z.eqb_spec root 0) as [->|Hn]; [reflexivity|].
  rewrite <- Hq.
  replace ((root - 1) * GF.q F)
    with ((root - 1) + (root - 1) * (GF.q F - 1)) by ring.
  rewrite Z_mod_plus_full, Z.mod_small by lia. lia.
Qed.

Lemma conj_square (root l : Z) :
  0 <= l -> GF.powElement F (conjugate F root l) 2 = Ok (conjugate F root (l + 1)).
Proof.
  intros Hl. destruct (GaloisField_init_q p0 F Hinit) as (_ & _ & _ & Hq).
  unfold conjugate. destruct (Z.eqb_spec root 0) as [->|Hr].
  - apply (powElement_zero_base F). lia.
  - rewrite (powElement_closed F Hq);
      [|apply (mod_plus_one_nonzero F Hq)|lia].
    f_equal. f_equal.
    replace (((root - 1) * 2 ^ l) mod (GF.q F - 1) + 1 - 1)
      with (((root - 1) * 2 ^ l) mod (GF.q F - 1)) by lia.
    rewrite Z.mul_mod_idemp_l by lia. f_equal.
    rewrite Z.pow_add_r by lia. ring.
Qed.

(** The loop stops at the first conjugate equal to the root, at the latest
    at l = m. *)
Lemma conjugateRoots_loop_stops (root : Z) (d fuel : nat) (l : Z)
      (acc : list Z) :
  0 <= root < GF.q F ->
  0 <= l -> (1 <= d)%nat -> l + Z.of_nat d = Z.of_nat (degree p0) ->
  (d <= fuel)%nat ->
  exists k, (1 <= k <= d)%nat
    /\ GF.conjugateRoots_loop F fuel root l acc
       = Ok (acc ++ map (fun i => conjugate F root (l + Z.of_nat i)) (seq 1 k))
    /\ conjugate F root (l + Z.of_nat k) = root.
Proof.
  intros Hr. revert fuel l acc.
  induction d as [|d IH]; intros fuel l acc Hl Hd Hsum Hfuel; [lia|].
  destruct fuel as [|fuel]; [lia|].
  simpl GF.conjugateRoots_loop. rewrite conj_powElement by lia.
  cbn [bind].
  destruct (Z.eqb_spec (conjugate F root (l + 1)) root) as [E|E].
  - exists 1%nat. split; [lia|]. split; [reflexivity|exact E].
  - destruct d as [|d'].
    { exfalso. apply E. rewrite <- conj_m by exact Hr. f_equal. lia. }
    destruct (IH fuel (l + 1) (acc ++ [conjugate F root (l + 1)]))
      as (k & Hk & Hloop & Hstop); try lia.
    exists (S k). split; [lia|]. split.
    + rewrite Hloop, <- app_assoc. f_equal.
      change (seq 1 (S k)) with (1%nat :: seq 2 k).
      rewrite <- (fmap_S_seq 1 k). simpl. f_equal.
      rewrite <- list_fmap_compose. change (Z.of_nat 1) with 1. f_equal.
      apply list_fmap_ext.
      intros i x _. simpl. f_equal. lia.
    + rewrite <- Hstop. f_equal; lia.
Qed.

(** Outside the canonical range no conjugate equals the root. *)
Lemma conjugateRoots_loop_diverges (root : Z) (fuel : nat) (l : Z)
      (acc : list Z) :
  ~ (0 <= root < GF.q F) -> 0 <= l ->
  GF.conjugateRoots_loop F fuel root l acc = OutOfFuel.
Proof.
  intros Hr. revert l acc. induction fuel as [|fuel IH]; intros l acc Hl;
    [reflexivity|].
  simpl GF.conjugateRoots_loop. rewrite conj_powElement by lia. cbn [bind].
  pose proof (conj_range root (l + 1)).
  destruct (Z.eqb_spec (conjugate F root (l + 1)) root); [lia|].
  apply IH. lia.
Qed.

Lemma conjugateRoots_group (root : Z) (fuel : nat) :
  0 <= root < GF.q F -> (degree p0 <= fuel)%nat ->
  exists k g, (1 <= k <= degree p0)%nat
    /\ GF.conjugateRoots F fuel root = Ok g
    /\ g ≡ₚ map (fun i => conjugate F root (Z.of_nat i)) (seq 1 k)
    /\ conjugate F root (Z.of_nat k) = root.
Proof.
  intros Hr Hfuel.
  destruct (GaloisField_init_q p0 F Hinit) as (_ & Hdeg & _).
  destruct (conjugateRoots_loop_stops root (degree p0) fuel 0 [] Hr)
    as (k & Hk & Hloop & Hstop); try lia.
  exists k, (merge_sort Z.le (map (fun i => conjugate F root (Z.of_nat i)) (seq 1 k))).
  split; [exact Hk|]. split.
  - unfold GF.conjugateRoots. rewrite Hloop. reflexivity.
  - split; [apply merge_sort_Permutation|exact Hstop].
Qed.

End ConjugateRoots.

(** X22: in a constructed field, conjugateRoots(root) for a canonical root
    ends within m passes of its loop: the group has at most m members, all
    canonical, contains the root and is closed under squaring.  For a root
    outside 0 .. q-1 the loop never ends, since powElement only returns
    canonical elements. *)
Theorem conjugateRoots_orbit (p : list Z) (F : GaloisField) (root : Z)
        (fuel : nat) :
  GaloisField_init p = Ok F ->
  (0 <= root < GF.q F -> Nat.le (degree p) fuel ->
   exists g, GF.conjugateRoots F fuel root = Ok g
     /\ root ∈ g
     /\ Nat.le (length g) (degree p)
     /\ Forall (fun x => 0 <= x < GF.q F) g
     /\ forall x, x ∈ g -> exists y, GF.powElement F x 2 = Ok y /\ y ∈ g)
  /\ (~ (0 <= root < GF.q F) -> GF.conjugateRoots F fuel root = OutOfFuel).
Proof.
  intros Hinit. split.
  - intros Hr Hfuel.
    destruct (conjugateRoots_group p F Hinit root fuel Hr Hfuel)
      as (k & g & Hk & Hg & Hperm & Hstop).
    exists g. split; [exact Hg|].
    set (conj := conjugate F root) in *.
    assert (Hmem : forall x, x ∈ g <->
              exists i, (1 <= i <= k)%nat /\ x = conj (Z.of_nat i)).
    { intros x. rewrite Hperm, list_elem_of_fmap. split.
      - intros (i & -> & Hi). apply list_elem_of_In, in_seq in Hi.
        exists i. split; [lia|reflexivity].
      - intros (i & Hi & ->). exists i. split; [reflexivity|].
        apply list_elem_of_In, in_seq. lia. }
    split; [apply Hmem; exists k; split; [lia|symmetry; exact Hstop]|].
    split; [rewrite Hperm, length_map, length_seq; lia|].
    split.
    + rewrite Forall_forall. intros x Hx. apply Hmem in Hx as (i & _ & ->).
      apply (conj_range p F Hinit root).
    + intros x Hx. apply Hmem in Hx as (i & Hi & ->).
      exists (conj (Z.of_nat i + 1)).
      split; [apply (conj_square p F Hinit root); lia|].
      apply Hmem. destruct (Nat.eq_dec i k) as [->|Hne].
      * exists 1%nat. split; [lia|].
        assert (0 <= Z.of_nat k) as Hk0 by lia.
        pose proof (conj_square p F Hinit root (Z.of_nat k) Hk0) as H1.
        pose proof (conj_square p F Hinit root 0 (Z.le_refl 0)) as H0.
        fold conj in H1, H0. rewrite Hstop in H1.
        assert (conj 0 = root) as E0.
        { unfold conj, conjugate.
          destruct (Z.eqb_spec root 0) as [->|Hn]; [reflexivity|].
          rewrite Z.pow_0_r, Z.mul_1_r, Z.mod_small by lia. lia. }
        rewrite E0 in H0. change (Z.of_nat 1) with (0 + 1). congruence.
      * exists (S i). split; [lia|]. f_equal. lia.
  - intros Hr. unfold GF.conjugateRoots.
    rewrite (conjugateRoots_loop_diverges p F Hinit root fuel 0 [] Hr)
      by lia.
    reflexivity.
Qed.

Lemma conjugateRoots_orbit_witness :
  GaloisField_init p16 = Ok GF16
  /\ (0 <= 4 < GF.q GF16 -> Nat.le (degree p16) 4 ->
      exists g, GF.conjugateRoots GF16 4 4 = Ok g
        /\ 4 ∈ g
        /\ Nat.le (length g) (degree p16)
        /\ Forall (fun x => 0 <= x < GF.q GF16) g
        /\ forall x, x ∈ g ->
             exists y, GF.powElement GF16 x 2 = Ok y /\ y ∈ g)
  /\ (~ (0 <= 4 < GF.q GF16) -> GF.conjugateRoots GF16 4 4 = OutOfFuel).
Proof.
  split; [vm_compute; reflexivity|].
  apply (conjugateRoots_orbit p16 GF16 4 4). vm_compute; reflexivity.
Defined.

(** ** Polynomials over a field built from a primitive polynomial *)

Lemma mapM_total {A B : Type} (f : A -> result B) (P : B -> Prop)
      (xs : list A) :
  (forall x, In x xs -> exists y, f x = Ok y /\ P y) ->
  exists ys, mapM f xs = Ok ys /\ Forall P ys.
Proof.
  induction xs as [|x xs IH]; intros H.
  - exists []. split; [reflexivity|constructor].
  - destruct (H x (or_introl eq_refl)) as (y & Hy & Py).
    destruct IH as (ys & Hys & Pys).
    { intros x' Hx'. apply H. right. exact Hx'. }
    exists (y :: ys). simpl. rewrite Hy, Hys. split; [reflexivity|].
    constructor; assumption.
Qed.

Lemma mapM_lookup {A B : Type} (f : A -> result B) (xs : list A)
      (ys : list B) (i : nat) (x : A) :
  mapM f xs = Ok ys -> xs !! i = Some x ->
  exists y, ys !! i = Some y /\ f x = Ok y.
Proof.
  revert ys i. induction xs as [|x0 xs IH]; intros ys i H Hi.
  - rewrite lookup_nil in Hi. discriminate.
  - simpl in H. inv_bind H. inv_bind H. injection H as <-.
    destruct i as [|i].
    + injection Hi as ->. exists x1. split; [reflexivity|exact E].
    + apply (IH _ i E0 Hi).
Qed.

Lemma degree_top_zero (l : list Z) (n : nat) :
  length l = S n -> l !! n = Some 0 -> (degree l <= n - 1)%nat.
Proof.
  intros Hlen Hn. induction l as [|x l' _] using rev_ind; [discriminate|].
  rewrite length_app in Hlen. simpl in Hlen.
  rewrite lookup_app_r in Hn by lia.
  replace (n - length l')%nat with 0%nat in Hn by lia. injection Hn as ->.
  rewrite degree_snoc. simpl. pose proof (degree_le_length l'). lia.
Qed.

Lemma degree_top_nonzero (l : list Z) (n : nat) (c : Z) :
  length l = S n -> l !! n = Some c -> c <> 0 -> degree l = n.
Proof.
  intros Hlen Hn Hc. apply (degree_unique l n c Hn Hc).
  intros k x Hk Hx. apply lookup_lt_Some in Hx. lia.
Qed.

Lemma count_nonzero_pos (b : list Z) (i : nat) (x : Z) :
  b !! i = Some x -> x <> 0 -> count_nonzero b <> 0%nat.
Proof.
  intros Hi Hx E. apply count_nonzero_0 in E.
  rewrite Forall_lookup in E. apply Hx, (E i x Hi).
Qed.

Section PrimitivePolynomials.

Variable p : list Z.
Hypothesis Hprim : primitiveb p = true.
Variable F : GaloisField.
Hypothesis Hinit : GaloisField_init p = Ok F.

(** Canonical coefficients. *)
Let C (x : Z) : Prop := 0 <= x < GF.q F.

Lemma addElements_total (a b : Z) :
  exists r, GF.addElements F a b = Ok r /\ C r.
Proof.
  destruct (addElements_val p Hprim F Hinit a b) as (r & Hr & Rr & _).
  exists r. split; assumption.
Qed.

Lemma multElements_total (a b : Z) :
  exists r, GF.multElements F a b = Ok r /\ C r
            /\ (a <> 0 -> b <> 0 -> r <> 0).
Proof.
  destruct (field_table p Hprim F Hinit) as (_ & _ & _ & Hq).
  eexists. split; [apply (multElements_closed F Hq)|].
  unfold C. destruct ((a =? 0) || (b =? 0)) eqn:E.
  - split; [lia|]. intros Ha Hb.
    apply orb_true_iff in E as [E|E]; apply Z.eqb_eq in E; contradiction.
  - pose proof (Z.mod_pos_bound (a - 1 + (b - 1)) (GF.q F - 1)). lia.
Qed.

Lemma addElements_zero_left (t : Z) : C t -> GF.addElements F 0 t = Ok t.
Proof.
  intros Ht. apply (addElements_spec p Hprim F Hinit); [exact Ht|].
  change (val p 0) with 0%N. rewrite N.lxor_0_l. reflexivity.
Qed.

Lemma multElements_one_left (d : Z) :
  C d -> d <> 0 -> GF.multElements F 1 d = Ok d.
Proof.
  intros Hd Hn. destruct (field_table p Hprim F Hinit) as (_ & _ & _ & Hq).
  rewrite (multElements_closed F Hq).
  destruct (Z.eqb_spec d 0); [contradiction|]. cbn [Z.eqb orb].
  f_equal. unfold C in Hd. rewrite Z.mod_small by lia. lia.
Qed.

(** ** addPoly *)

Lemma addPoly_total (a b : list Z) :
  a <> [] \/ b <> [] ->
  exists c, GF.addPoly F a b = Ok c
            /\ length c = (Nat.max (degree a) (degree b) + 1)%nat
            /\ (Forall C a -> Forall C b -> Forall C c).
Proof.
  intros Hne.
  destruct (mapM_total
    (fun i => if (length a <=? i)%nat then idx b i
              else if (length b <=? i)%nat then idx a i
              else let* x := idx a i in
                   let* y := idx b i in GF.addElements F x y)
    (fun y => Forall C a -> Forall C b -> C y)
    (seq 0 (Nat.max (degree a) (degree b) + 1))) as (c & Hc & Pc).
  { intros i Hi. apply in_seq in Hi.
    assert (Ha : a <> [] -> (degree a < length a)%nat)
      by apply degree_lt_length.
    assert (Hb : b <> [] -> (degree b < length b)%nat)
      by apply degree_lt_length.
    assert (Ha0 : a = [] -> degree a = 0%nat /\ length a = 0%nat)
      by (intros ->; split; [apply degree_nil|reflexivity]).
    assert (Hb0 : b = [] -> degree b = 0%nat /\ length b = 0%nat)
      by (intros ->; split; [apply degree_nil|reflexivity]).
    destruct (Nat.leb_spec (length a) i) as [Hai|Hai].
    - assert (i < length b)%nat as Hib.
      { destruct a as [|a0 a']; destruct b as [|b0 b'].
        - destruct Hne; contradiction.
        - specialize (Hb ltac:(discriminate)).
          destruct (Ha0 eq_refl). lia.
        - specialize (Ha ltac:(discriminate)).
          destruct (Hb0 eq_refl). lia.
        - specialize (Ha ltac:(discriminate)).
          specialize (Hb ltac:(discriminate)). lia. }
      rewrite (idx_coef b i Hib). eexists. split; [reflexivity|].
      intros _ HCb. rewrite Forall_lookup in HCb.
      apply (HCb i). apply lookup_coef, Hib.
    - destruct (Nat.leb_spec (length b) i) as [Hbi|Hbi].
      + rewrite (idx_coef a i Hai). eexists. split; [reflexivity|].
        intros HCa _. rewrite Forall_lookup in HCa.
        apply (HCa i). apply lookup_coef, Hai.
      + rewrite (idx_coef a i Hai), (idx_coef b i Hbi). cbn [bind].
        destruct (addElements_total (coef a i) (coef b i)) as (r & Hr & Cr).
        exists r. split; [exact Hr|]. intros _ _. exact Cr. }
  exists c. split; [exact Hc|]. split.
  - apply (addPoly_length F a b c Hc).
  - intros HCa HCb. apply (Forall_impl _ _ _ Pc). intros y Hy.
    apply Hy; assumption.
Qed.

Lemma addPoly_lookup (a b c : list Z) (i : nat) :
  GF.addPoly F a b = Ok c ->
  (i < length a)%nat -> (i < length b)%nat ->
  (i <= Nat.max (degree a) (degree b))%nat ->
  exists s, c !! i = Some s
            /\ GF.addElements F (coef a i) (coef b i) = Ok s.
Proof.
  intros Hc Ha Hb Hi. unfold GF.addPoly in Hc.
  destruct (mapM_lookup _ _ _ i i Hc) as (s & Hs & Hf).
  { apply lookup_seq. lia. }
  destruct (Nat.leb_spec (length a) i); [lia|].
  destruct (Nat.leb_spec (length b) i); [lia|].
  rewrite (idx_coef a i Ha), (idx_coef b i Hb) in Hf. cbn [bind] in Hf.
  exists s. split; assumption.
Qed.

(** ** multPoly *)

Section Product.

Variables a b : list Z.
Hypothesis Hane : a <> [].
Hypothesis Hbne : b <> [].

Let D : nat := (degree a + degree b)%nat.

Lemma multPoly_step_total (i j : nat) (product : list Z) :
  (i <= degree a)%nat -> (j <= degree b)%nat -> length product = S D ->
  exists s, GF.multPoly_step F a b i product j
            = Ok (<[(i + j)%nat := s]> product)
            /\ C s
            /\ exists t, GF.multElements F (coef a i) (coef b j) = Ok t
                         /\ GF.addElements F (coef product (i + j)) t = Ok s.
Proof.
  intros Hi Hj Hlen.
  pose proof (degree_lt_length a Hane). pose proof (degree_lt_length b Hbne).
  unfold GF.multPoly_step.
  rewrite (idx_coef a i), (idx_coef b j) by lia. cbn [bind].
  destruct (multElements_total (coef a i) (coef b j)) as (t & Ht & _).
  rewrite Ht. cbn [bind].
  rewrite (idx_coef product (i + j)) by (unfold D in Hlen; lia).
  cbn [bind].
  destruct (addElements_total (coef product (i + j)) t) as (s & Hs & Cs).
  rewrite Hs. cbn [bind]. exists s. split; [reflexivity|].
  split; [exact Cs|]. exists t. split; [reflexivity|exact Hs].
Qed.

(** Steps below the top position keep it zero. *)
Lemma multPoly_inner_below (i : nat) (js : list nat) (product : list Z) :
  (i <= degree a)%nat ->
  Forall (fun j => (j <= degree b)%nat /\ (i + j < D)%nat) js ->
  length product = S D -> product !! D = Some 0 -> Forall C product ->
  exists product',
    foldM (GF.multPoly_step F a b i) js product = Ok product'
    /\ length product' = S D /\ product' !! D = Some 0
    /\ Forall C product'.
Proof.
  intros Hi Hjs. revert product.
  induction Hjs as [|j js [Hj Hij] _ IH]; intros product Hlen Htop HC.
  - exists product. repeat split; assumption.
  - destruct (multPoly_step_total i j product Hi Hj Hlen)
      as (s & Hstep & Cs & _).
    simpl. rewrite Hstep. cbn [bind]. apply IH.
    + rewrite length_insert. exact Hlen.
    + rewrite list_lookup_insert_ne by lia. exact Htop.
    + apply Forall_insert; assumption.
Qed.

Lemma multPoly_outer_below (ixs : list nat) (product : list Z) :
  Forall (fun i => (i < degree a)%nat) ixs ->
  length product = S D -> product !! D = Some 0 -> Forall C product ->
  exists product',
    foldM (fun product i =>
             foldM (GF.multPoly_step F a b i) (seq 0 (degree b + 1)) product)
          ixs product = Ok product'
    /\ length product' = S D /\ product' !! D = Some 0
    /\ Forall C product'.
Proof.
  intros Hixs. revert product.
  induction Hixs as [|i ixs Hi _ IH]; intros product Hlen Htop HC.
  - exists product. repeat split; assumption.
  - destruct (multPoly_inner_below i (seq 0 (degree b + 1)) product)
      as (product1 & H1 & Hlen1 & Htop1 & HC1); try assumption; [lia| |].
    { rewrite Forall_forall. intros j Hj.
      apply list_elem_of_In, in_seq in Hj. unfold D. lia. }
    simpl. rewrite H1. cbn [bind]. apply IH; assumption.
Qed.

(** The array before the final trim: its top cell holds the product of
    the leading coefficients. *)
Lemma multPoly_loops_total :
  exists product t,
    foldM (fun product i =>
             foldM (GF.multPoly_step F a b i) (seq 0 (degree b + 1)) product)
          (seq 0 (degree a + 1)) (replicate (D + 1) 0) = Ok product
    /\ length product = S D /\ Forall C product
    /\ GF.multElements F (coef a (degree a)) (coef b (degree b)) = Ok t
    /\ product !! D = Some t.
Proof.
  destruct (field_table p Hprim F Hinit) as (_ & _ & _ & Hq).
  assert (HC0 : Forall C (replicate (D + 1) 0)).
  { apply Forall_replicate. unfold C. lia. }
  destruct (multPoly_outer_below (seq 0 (degree a)) (replicate (D + 1) 0))
    as (product1 & H1 & Hlen1 & Htop1 & HC1).
  { rewrite Forall_forall. intros i Hi.
    apply list_elem_of_In, in_seq in Hi. lia. }
  { rewrite length_replicate. lia. }
  { apply lookup_replicate_2. lia. }
  { exact HC0. }
  destruct (multPoly_inner_below (degree a) (seq 0 (degree b)) product1)
    as (product2 & H2 & Hlen2 & Htop2 & HC2); try assumption; [lia| |].
  { rewrite Forall_forall. intros j Hj.
    apply list_elem_of_In, in_seq in Hj. unfold D. lia. }
  destruct (multPoly_step_total (degree a) (degree b) product2)
    as (s & Hstep & Cs & t & Ht & Hs); try lia.
  fold D in Hstep, Hs. rewrite (coef_lookup _ _ _ Htop2) in Hs.
  destruct (multElements_total (coef a (degree a)) (coef b (degree b)))
    as (t' & Ht' & Ct & _).
  assert (t' = t) by congruence. subst t'.
  rewrite (addElements_zero_left t Ct) in Hs. injection Hs as <-.
  exists (<[D := t]> product2), t.
  split.
  { replace (degree a + 1)%nat with (S (degree a)) by lia.
    rewrite seq_S, foldM_app, H1. cbn [bind foldM Nat.add].
    replace (degree b + 1)%nat with (S (degree b)) by lia.
    rewrite seq_S, foldM_app, H2. cbn [bind foldM Nat.add].
    rewrite Hstep. reflexivity. }
  split; [rewrite length_insert; exact Hlen2|].
  split; [apply Forall_insert; assumption|].
  split; [exact Ht|].
  apply list_lookup_insert_eq. lia.
Qed.

Lemma multPoly_total :
  exists c t,
    GF.multPoly F a b = Ok c
    /\ trimmed c /\ Forall C c /\ (length c <= S D)%nat
    /\ GF.multElements F (coef a (degree a)) (coef b (degree b)) = Ok t
    /\ (t <> 0 -> length c = S D /\ c !! D = Some t).
Proof.
  destruct multPoly_loops_total as (product & t & Hloops & Hlen & HC & Ht & Htop).
  exists (trim product), t.
  assert (Hm : GF.multPoly F a b = Ok (trim product)).
  { unfold GF.multPoly. fold D. rewrite Hloops. reflexivity. }
  split; [exact Hm|].
  split; [apply (multPoly_trimmed F a b _ Hm)|].
  split; [unfold trim; apply Forall_take, HC|].
  split; [unfold trim; rewrite length_take; lia|].
  split; [exact Ht|].
  intros Hnz. pose proof (degree_top_nonzero product D t Hlen Htop Hnz) as Hd.
  unfold trim. rewrite Hd, take_ge by lia. split; assumption.
Qed.

End Product.

End PrimitivePolynomials.

Lemma foldM_total {A S : Type} (P : S -> Prop) (body : S -> A -> result S)
      (xs : list A) (st : S) :
  (forall s x, In x xs -> P s -> exists s', body s x = Ok s' /\ P s') ->
  P st -> exists st', foldM body xs st = Ok st' /\ P st'.
Proof.
  revert st. induction xs as [|x xs IH]; intros st Hbody Hst.
  - exists st. split; [reflexivity|exact Hst].
  - destruct (Hbody st x (or_introl eq_refl) Hst) as (s' & Hs' & Ps').
    simpl. rewrite Hs'. cbn [bind]. apply IH; [|exact Ps'].
    intros s y Hy. apply Hbody. right. exact Hy.
Qed.

Lemma coef_top_nonempty (a : list Z) : coef a (degree a) <> 0 -> a <> [].
Proof. intros H ->. apply H. reflexivity. Qed.

Section PrimitiveEvaluation.

Variable p : list Z.
Hypothesis Hprim : primitiveb p = true.
Variable F : GaloisField.
Hypothesis Hinit : GaloisField_init p = Ok F.

Lemma substitute_total (poly : list Z) (e : Z) :
  e <> 0 ->
  exists r, GF.substituteElementIntoPoly F poly e = Ok r
            /\ 0 <= r < GF.q F.
Proof.
  intros He. destruct (field_table p Hprim F Hinit) as (_ & _ & _ & Hq).
  unfold GF.substituteElementIntoPoly.
  apply (foldM_total (fun r => 0 <= r < GF.q F)); [|lia].
  intros res i Hi _. apply in_seq in Hi. unfold GF.substitute_step.
  destruct (powElement_total F Hq e (Z.of_nat i) (or_introl He))
    as (t & -> & _). cbn [bind].
  rewrite (idx_coef poly i) by lia. cbn [bind].
  destruct (multElements_total p Hprim F Hinit t (coef poly i))
    as (u & -> & _). cbn [bind].
  apply (addElements_total p Hprim F Hinit).
Qed.

Lemma roots_total (poly : list Z) : exists rs, GF.roots F poly = Ok rs.
Proof.
  unfold GF.roots.
  destruct (foldM_total (fun _ : list Z => True)
    (fun roots element =>
       let* res := GF.substituteElementIntoPoly F poly (Z.of_nat element) in
       if res =? 0 then Ok (roots ++ [Z.of_nat element]) else Ok roots)
    (seq 1 (Z.to_nat (GF.q F) - 1)) []) as (rs & Hrs & _); [|exact I|].
  - intros rs e He _. apply in_seq in He.
    destruct (substitute_total poly (Z.of_nat e)) as (r & -> & _); [lia|].
    cbn [bind]. destruct (r =? 0); eexists; split; try reflexivity; exact I.
  - exists rs. exact Hrs.
Qed.

Lemma minimalPolynomial_loop (roots res : list Z) :
  trimmed res -> coef res (degree res) = 1 ->
  Forall (fun x => 0 <= x < GF.q F) res ->
  exists c, foldM (fun res root => GF.multPoly F res [root; 1]) roots res
            = Ok c
    /\ length c = (length res + length roots)%nat
    /\ c !! (length res + length roots - 1)%nat = Some 1
    /\ Forall (fun x => 0 <= x < GF.q F) c.
Proof.
  destruct (field_table p Hprim F Hinit) as (_ & _ & _ & Hq).
  revert res. induction roots as [|root roots IH]; intros res Htr Htop HC.
  - exists res. split; [reflexivity|]. split; [simpl; lia|].
    split; [|exact HC]. unfold trimmed in Htr.
    replace (length res + length [] - 1)%nat with (degree res)
      by (simpl; lia).
    rewrite lookup_coef by lia. rewrite Htop. reflexivity.
  - assert (Hne : res <> []) by (apply coef_top_nonempty; lia).
    assert (Hd1 : degree [root; 1] = 1%nat).
    { apply (degree_top_nonzero [root; 1] 1 1); [reflexivity|reflexivity|lia]. }
    destruct (multPoly_total p Hprim F Hinit res [root; 1] Hne)
      as (c & t & Hc & Hctr & HCc & _ & Ht & Hlead); [discriminate|].
    rewrite Hd1, Htop in Ht. change (coef [root; 1] 1) with 1 in Ht.
    rewrite (multElements_one_left p Hprim F Hinit 1) in Ht by lia.
    injection Ht as <-. destruct Hlead as (Hlen & Hctop); [lia|].
    rewrite Hd1 in Hlen, Hctop. unfold trimmed in Htr.
    assert (Hdc : degree c = (degree res + 1)%nat).
    { apply (degree_top_nonzero c _ 1); [exact Hlen|exact Hctop|lia]. }
    destruct (IH c Hctr) as (c' & Hc' & Hlen' & Htop' & HC'); [|exact HCc|].
    { rewrite Hdc. apply (coef_lookup _ _ _ Hctop). }
    exists c'. cbn [foldM]. rewrite Hc. cbn [bind].
    split; [exact Hc'|]. cbn [length].
    split; [lia|]. split; [|exact HC'].
    replace (length res + S (length roots) - 1)%nat
      with (length c + length roots - 1)%nat by lia.
    exact Htop'.
Qed.

End PrimitiveEvaluation.

(** X23: in a field built from a primitive polynomial, addPoly returns
    unless both arrays are empty, and multPoly returns whenever both
    arrays are nonempty, for arbitrary integer coefficients; the product is
    trimmed, has canonical coefficients and at most degree(a) + degree(b)
    + 1 of them; the sum of arrays with canonical coefficients has
    canonical coefficients. *)
Theorem polynomial_ops_total (p : list Z) (F : GaloisField) (a b : list Z) :
  primitiveb p = true ->
  GaloisField_init p = Ok F ->
  (a <> [] \/ b <> [] ->
   exists c, GF.addPoly F a b = Ok c
     /\ length c = (Nat.max (degree a) (degree b) + 1)%nat
     /\ (Forall (fun x => 0 <= x < GF.q F) a ->
         Forall (fun x => 0 <= x < GF.q F) b ->
         Forall (fun x => 0 <= x < GF.q F) c))
  /\ (a <> [] -> b <> [] ->
      exists c, GF.multPoly F a b = Ok c
        /\ trimmed c
        /\ Forall (fun x => 0 <= x < GF.q F) c
        /\ Nat.le (length c) (degree a + degree b + 1)).
Proof.
  intros Hprim Hinit. split.
  - intros Hne. apply (addPoly_total p Hprim F Hinit a b Hne).
  - intros Ha Hb.
    destruct (multPoly_total p Hprim F Hinit a b Ha Hb)
      as (c & t & Hc & Htr & HC & Hlen & _).
    exists c. split; [exact Hc|]. split; [exact Htr|]. split; [exact HC|].
    unfold Nat.le. lia.
Qed.

Lemma polynomial_ops_total_witness :
  primitiveb p16 = true /\ GaloisField_init p16 = Ok GF16
  /\ ([3; 0; 7] <> [] \/ [5; 1] <> [] ->
      exists c, GF.addPoly GF16 [3; 0; 7] [5; 1] = Ok c
        /\ length c
           = Nat.add (Nat.max (degree [3; 0; 7]) (degree [5; 1])) 1%nat
        /\ (Forall (fun x => 0 <= x < GF.q GF16) [3; 0; 7] ->
            Forall (fun x => 0 <= x < GF.q GF16) [5; 1] ->
            Forall (fun x => 0 <= x < GF.q GF16) c))
  /\ ([3; 0; 7] <> [] -> [5; 1] <> [] ->
      exists c, GF.multPoly GF16 [3; 0; 7] [5; 1] = Ok c
        /\ trimmed c
        /\ Forall (fun x => 0 <= x < GF.q GF16) c
        /\ Nat.le (length c) (degree [3; 0; 7] + degree [5; 1] + 1)).
Proof.
  split; [vm_compute; reflexivity|].
  split; [vm_compute; reflexivity|].
  apply (polynomial_ops_total p16 GF16 [3; 0; 7] [5; 1]);
    vm_compute; reflexivity.
Defined.

(** X24: in a field built from a primitive polynomial,
    substituteElementIntoPoly(p, e) returns a canonical element for every
    polynomial p and every integer e other than 0, and roots(p) returns
    for every p. *)
Theorem evaluation_total (p : list Z) (F : GaloisField) (poly : list Z)
        (e : Z) :
  primitiveb p = true ->
  GaloisField_init p = Ok F ->
  (e <> 0 -> exists r, GF.substituteElementIntoPoly F poly e = Ok r
                       /\ 0 <= r < GF.q F)
  /\ exists rs, GF.roots F poly = Ok rs.
Proof.
  intros Hprim Hinit. split.
  - apply (substitute_total p Hprim F Hinit).
  - apply (roots_total p Hprim F Hinit).
Qed.

Lemma evaluation_total_witness :
  primitiveb p16 = true /\ GaloisField_init p16 = Ok GF16
  /\ (5 <> 0 -> exists r, GF.substituteElementIntoPoly GF16 [3; 0; 7] 5 = Ok r
                          /\ 0 <= r < GF.q GF16)
  /\ exists rs, GF.roots GF16 [3; 0; 7] = Ok rs.
Proof.
  split; [vm_compute; reflexivity|].
  split; [vm_compute; reflexivity|].
  apply (evaluation_total p16 GF16 [3; 0; 7] 5); vm_compute; reflexivity.
Defined.

(** X25: in a field built from a primitive polynomial, the product of two
    polynomials with nonzero leading coefficients has degree degree(a) +
    degree(b), and its leading coefficient is the (nonzero) multElements
    product of the two leading coefficients. *)
Theorem multPoly_leading (p : list Z) (F : GaloisField) (a b : list Z) :
  primitiveb p = true ->
  GaloisField_init p = Ok F ->
  coef a (degree a) <> 0 -> coef b (degree b) <> 0 ->
  exists c t,
    GF.multPoly F a b = Ok c
    /\ degree c = (degree a + degree b)%nat
    /\ length c = (degree a + degree b + 1)%nat
    /\ GF.multElements F (coef a (degree a)) (coef b (degree b)) = Ok t
    /\ t <> 0
    /\ c !! degree c = Some t.
Proof.
  intros Hprim Hinit Ha Hb.
  destruct (multPoly_total p Hprim F Hinit a b
              (coef_top_nonempty a Ha) (coef_top_nonempty b Hb))
    as (c & t & Hc & _ & _ & _ & Ht & Hlead).
  destruct (multElements_total p Hprim F Hinit
              (coef a (degree a)) (coef b (degree b)))
    as (t' & Ht' & _ & Hnz).
  assert (t' = t) by congruence. subst t'. specialize (Hnz Ha Hb).
  destruct (Hlead Hnz) as (Hlen & Htop).
  pose proof (degree_top_nonzero c _ t Hlen Htop Hnz) as Hd.
  exists c, t. rewrite Hd. repeat split; try assumption. lia.
Qed.

Lemma multPoly_leading_witness :
  primitiveb p16 = true /\ GaloisField_init p16 = Ok GF16
  /\ coef [3; 0; 7] (degree [3; 0; 7]) <> 0
  /\ coef [5; 1; 0] (degree [5; 1; 0]) <> 0
  /\ exists c t,
    GF.multPoly GF16 [3; 0; 7] [5; 1; 0] = Ok c
    /\ degree c = Nat.add (degree [3; 0; 7]) (degree [5; 1; 0])
    /\ length c
       = Nat.add (Nat.add (degree [3; 0; 7]) (degree [5; 1; 0])) 1%nat
    /\ GF.multElements GF16 (coef [3; 0; 7] (degree [3; 0; 7]))
                            (coef [5; 1; 0] (degree [5; 1; 0])) = Ok t
    /\ t <> 0
    /\ c !! degree c = Some t.
Proof.
  split; [vm_compute; reflexivity|].
  split; [vm_compute; reflexivity|].
  split; [vm_compute; discriminate|].
  split; [vm_compute; discriminate|].
  apply (multPoly_leading p16 GF16 [3; 0; 7] [5; 1; 0]).
  - vm_compute; reflexivity.
  - vm_compute; reflexivity.
  - vm_compute; discriminate.
  - vm_compute; discriminate.
Defined.

(** X26: in a field built from a primitive polynomial,
    minimalPolynomial(roots) returns for every list of integers a monic
    polynomial of degree len(roots) with canonical coefficients. *)
Theorem minimalPolynomial_monic (p : list Z) (F : GaloisField)
        (roots : list Z) :
  primitiveb p = true ->
  GaloisField_init p = Ok F ->
  exists c,
    GF.minimalPolynomial F roots = Ok c
    /\ length c = (length roots + 1)%nat
    /\ degree c = length roots
    /\ c !! length roots = Some 1
    /\ Forall (fun x => 0 <= x < GF.q F) c.
Proof.
  intros Hprim Hinit.
  destruct (field_table p Hprim F Hinit) as (_ & _ & _ & Hq).
  destruct (minimalPolynomial_loop p Hprim F Hinit roots [1])
    as (c & Hc & Hlen & Htop & HC).
  - reflexivity.
  - reflexivity.
  - constructor; [lia|constructor].
  - exists c. cbn [length] in Hlen, Htop.
    replace (1 + length roots - 1)%nat with (length roots) in Htop by lia.
    split; [exact Hc|]. split; [lia|].
    split; [apply (degree_top_nonzero c _ 1); [lia|exact Htop|lia]|].
    split; [exact Htop|exact HC].
Qed.

Lemma minimalPolynomial_monic_witness :
  primitiveb p16 = true /\ GaloisField_init p16 = Ok GF16
  /\ exists c,
    GF.minimalPolynomial GF16 [2; 3; 5; 9] = Ok c
    /\ length c = Nat.add (length [2; 3; 5; 9]) 1%nat
    /\ degree c = length [2; 3; 5; 9]
    /\ c !! length [2; 3; 5; 9] = Some 1
    /\ Forall (fun x => 0 <= x < GF.q GF16) c.
Proof.
  split; [vm_compute; reflexivity|].
  split; [vm_compute; reflexivity|].
  apply (minimalPolynomial_monic p16 GF16 [2; 3; 5; 9]);
    vm_compute; reflexivity.
Defined.

(** ** Division by a monic polynomial *)

Section MonicDivision.

Variable p : list Z.
Hypothesis Hprim : primitiveb p = true.
Variable F : GaloisField.
Hypothesis Hinit : GaloisField_init p = Ok F.

Variable b : list Z.
Hypothesis Hdeg : (1 <= degree b)%nat.
Hypothesis Hmonic : coef b (degree b) = 1.

(** One pass of the loop cancels the leading coefficient of the dividend. *)
Lemma divmodPoly_body_monic (a q : list Z) :
  (degree b <= degree a)%nat ->
  exists a' q', GF.divmodPoly_body F b (a, q) = Ok (a', q')
                /\ (degree a' < degree a)%nat.
Proof.
  intros Hab.
  destruct (field_table p Hprim F Hinit) as (_ & _ & _ & Hq).
  destruct (lookup_at_degree a) as (c & Hc & Hcnz); [lia|].
  destruct (lookup_at_degree b) as (cb & Hcb & _); [lia|].
  assert (cb = 1) by (rewrite <- Hmonic; symmetry; apply coef_lookup, Hcb).
  subst cb.
  assert (Hane : a <> []) by (intros ->; rewrite lookup_nil in Hc; discriminate).
  assert (Hbne : b <> []) by (intros E; rewrite E, lookup_nil in Hcb; discriminate).
  set (d := (c - 1) mod (GF.q F - 1) + 1).
  assert (Hd : GF.divElements F c 1 = Ok d).
  { rewrite (divElements_closed F Hq c 1 Hcnz) by lia.
    change (1 - 1) with 0. rewrite Zmod_0_l.
    pose proof (Z.mod_pos_bound (c - 1) (GF.q F - 1)).
    destruct (Z.eqb_spec ((c - 1) mod (GF.q F - 1) - 0) (-1)); [lia|].
    unfold d. f_equal. f_equal. f_equal. lia. }
  assert (HCd : 0 <= d < GF.q F /\ d <> 0).
  { unfold d. pose proof (Z.mod_pos_bound (c - 1) (GF.q F - 1)). lia. }
  assert (Hvd : val p d = val p c).
  { pose proof (val_canonical p Hprim F Hinit c) as H.
    destruct (Z.eqb_spec c 0); [contradiction|]. exact H. }
  set (k := (degree a - degree b)%nat).
  set (multiplier := <[k := d]> (replicate (k + 1) 0)).
  assert (Hmlen : length multiplier = S k).
  { unfold multiplier. rewrite length_insert, length_replicate. lia. }
  assert (Hmk : multiplier !! k = Some d).
  { unfold multiplier. apply list_lookup_insert_eq.
    rewrite length_replicate. lia. }
  assert (Hmdeg : degree multiplier = k).
  { apply (degree_top_nonzero multiplier k d Hmlen Hmk). lia. }
  assert (Hmne : multiplier <> []).
  { intros E. rewrite E in Hmlen. discriminate. }
  destruct (multPoly_total p Hprim F Hinit b multiplier Hbne Hmne)
    as (subtrahend & t & Hsub & _ & _ & _ & Ht & Hlead).
  rewrite Hmonic, Hmdeg, (coef_lookup _ _ _ Hmk) in Ht.
  rewrite (multElements_one_left p Hprim F Hinit d) in Ht by lia.
  injection Ht as <-.
  destruct Hlead as (Hslen & Hstop); [lia|].
  rewrite Hmdeg in Hslen, Hstop.
  replace (degree b + k)%nat with (degree a) in Hslen, Hstop
    by (unfold k; lia).
  assert (Hsdeg : degree subtrahend = degree a).
  { apply (degree_top_nonzero subtrahend _ d Hslen Hstop). lia. }
  destruct (addPoly_total p Hprim F Hinit a subtrahend (or_introl Hane))
    as (a' & Ha' & Hlen' & _).
  rewrite Hsdeg, Nat.max_id in Hlen'.
  pose proof (degree_lt_length a Hane) as Hla.
  destruct (addPoly_lookup F a subtrahend a' (degree a) Ha')
    as (s & Hs & Hadd); [lia|lia|lia|].
  rewrite (coef_lookup _ _ _ Hc), (coef_lookup _ _ _ Hstop) in Hadd.
  rewrite (addElements_spec p Hprim F Hinit c d 0) in Hadd.
  2: lia.
  2: { rewrite Hvd, N.lxor_nilpotent. reflexivity. }
  injection Hadd as <-.
  destruct (addPoly_total p Hprim F Hinit q multiplier (or_intror Hmne))
    as (q' & Hq' & _).
  exists a', q'. split.
  - unfold GF.divmodPoly_body.
    rewrite (proj2 (idx_Ok a (degree a) c) Hc). cbn [bind].
    rewrite (proj2 (idx_Ok b (degree b) 1) Hcb). cbn [bind].
    rewrite Hd. cbn [bind]. fold k. fold multiplier.
    rewrite Hsub. cbn [bind]. rewrite Ha'. cbn [bind].
    rewrite Hq'. reflexivity.
  - pose proof (degree_top_zero a' (degree a)) as H.
    rewrite Nat.add_1_r in Hlen'. specialize (H Hlen' Hs). lia.
Qed.

Lemma divmodPoly_loop_monic (n fuel : nat) (st : list Z * list Z) :
  (degree (fst st) + 1 <= degree b + n)%nat -> (n <= fuel)%nat ->
  exists st', GF.divmodPoly_loop F fuel b st = Ok st'
              /\ (degree (fst st') < degree b)%nat.
Proof.
  revert fuel st. induction n as [|n IH]; intros fuel st Hn Hfuel.
  - exists st. split; [|lia].
    destruct fuel; simpl;
      (destruct (Nat.ltb_spec (degree (fst st)) (degree b)); [reflexivity|lia]).
  - destruct (Nat.lt_ge_cases (degree (fst st)) (degree b)) as [Hlt|Hge].
    + exists st. split; [|exact Hlt].
      destruct fuel; simpl;
        (destruct (Nat.ltb_spec (degree (fst st)) (degree b));
         [reflexivity|lia]).
    + destruct fuel as [|fuel]; [lia|].
      destruct st as [a q]. cbn [fst] in *.
      destruct (divmodPoly_body_monic a q Hge) as (a' & q' & Hbody & Hdec).
      destruct (IH fuel (a', q')) as (st' & Hst' & Hex);
        [cbn [fst]; lia|lia|].
      exists st'. split; [|exact Hex].
      change (GF.divmodPoly_loop F (S fuel) b (a, q))
        with (if (degree a <? degree b)%nat then Ok (a, q)
              else let* st' := GF.divmodPoly_body F b (a, q) in
                   GF.divmodPoly_loop F fuel b st').
      destruct (Nat.ltb_spec (degree a) (degree b)); [lia|].
      rewrite Hbody. cbn [bind]. exact Hst'.
Qed.

End MonicDivision.

(** X27: in a field built from a primitive polynomial, division by a monic
    polynomial b of degree at least 1 ends: every pass of the loop of
    divmodPoly cancels the leading coefficient of the dividend, so after at
    most degree(a) - degree(b) + 1 passes it returns a quotient and a
    remainder of degree below degree(b); divPoly, modPoly and isFactor
    return with it. *)
Theorem divmodPoly_monic_terminates (p : list Z) (F : GaloisField)
        (a b : list Z) (fuel : nat) :
  primitiveb p = true ->
  GaloisField_init p = Ok F ->
  Nat.le 1 (degree b) ->
  coef b (degree b) = 1 ->
  Nat.le (degree a - degree b + 1) fuel ->
  exists q r,
    GF.divmodPoly F fuel a b = Ok (q, r)
    /\ Nat.lt (degree r) (degree b)
    /\ GF.divPoly F fuel a b = Ok q
    /\ GF.modPoly F fuel a b = Ok r
    /\ GF.isFactor F fuel a b = Ok (count_nonzero r =? 0)%nat.
Proof.
  intros Hprim Hinit Hdeg Hmonic Hfuel. unfold Nat.le in *.
  destruct (divmodPoly_loop_monic p Hprim F Hinit b Hdeg Hmonic
              (degree a - degree b + 1) fuel (a, []))
    as ([r q] & Hloop & Hex); [cbn [fst]; lia|lia|].
  cbn [fst] in Hex.
  assert (Hdm : GF.divmodPoly F fuel a b = Ok (q, r)).
  { unfold GF.divmodPoly.
    destruct (lookup_at_degree b) as (cb & Hcb & Hnz); [lia|].
    pose proof (count_nonzero_pos b _ _ Hcb Hnz).
    destruct (Nat.eqb_spec (count_nonzero b) 0); [contradiction|].
    rewrite Hloop. reflexivity. }
  exists q, r. split; [exact Hdm|]. split; [exact Hex|].
  unfold GF.isFactor, GF.modPoly, GF.divPoly. rewrite Hdm.
  repeat split; reflexivity.
Qed.

Lemma divmodPoly_monic_terminates_witness :
  primitiveb p16 = true /\ GaloisField_init p16 = Ok GF16
  /\ Nat.le 1 (degree [7; 3; 1])
  /\ coef [7; 3; 1] (degree [7; 3; 1]) = 1
  /\ Nat.le (degree [4; 0; 9; 2; 11] - degree [7; 3; 1] + 1) 3
  /\ exists q r,
    GF.divmodPoly GF16 3 [4; 0; 9; 2; 11] [7; 3; 1] = Ok (q, r)
    /\ Nat.lt (degree r) (degree [7; 3; 1])
    /\ GF.divPoly GF16 3 [4; 0; 9; 2; 11] [7; 3; 1] = Ok q
    /\ GF.modPoly GF16 3 [4; 0; 9; 2; 11] [7; 3; 1] = Ok r
    /\ GF.isFactor GF16 3 [4; 0; 9; 2; 11] [7; 3; 1]
       = Ok (count_nonzero r =? 0)%nat.
Proof.
  split; [vm_compute; reflexivity|].
  split; [vm_compute; reflexivity|].
  split; [vm_compute; lia|].
  split; [vm_compute; reflexivity|].
  split; [vm_compute; lia|].
  apply (divmodPoly_monic_terminates p16 GF16 [4; 0; 9; 2; 11] [7; 3; 1] 3).
  - vm_compute; reflexivity.
  - vm_compute; reflexivity.
  - vm_compute; lia.
  - vm_compute; reflexivity.
  - vm_compute; lia.
Defined.

(** ** The irreducible and primitive tests *)

Lemma power_table_binary (p : list Z) (e : list Z) :
  e ∈ power_table p -> binary e.
Proof.
  intros He. apply list_elem_of_lookup in He as [k Hk].
  destruct k as [|k].
  - rewrite power_table_0 in Hk. injection Hk as <-. apply binary_replicate.
  - unfold power_table in Hk. simpl in Hk. rewrite list_lookup_fmap in Hk.
    destruct (seq 0 (2 ^ degree p - 1) !! k); [|discriminate].
    injection Hk as <-. apply binary_bits_of.
Qed.

Lemma binary_monic (e : list Z) :
  binary e -> (0 < degree e)%nat -> coef e (degree e) = 1.
Proof.
  intros Hb Hd. destruct (lookup_at_degree e Hd) as (c & Hc & Hnz).
  rewrite (coef_lookup _ _ _ Hc).
  destruct (binary_lookup e _ _ Hb Hc); [contradiction|assumption].
Qed.

Lemma degree_le_index (l : list Z) (n : nat) :
  length l = S n -> (degree l <= n)%nat.
Proof. intros H. pose proof (degree_le_length l). lia. Qed.

Section FactorTests.

Variable p : list Z.
Hypothesis Hprim : primitiveb p = true.
Variable F : GaloisField.
Hypothesis Hinit : GaloisField_init p = Ok F.

(** Division by a monic polynomial of degree at least 1 returns. *)
Lemma isFactor_monic (fuel : nat) (a b : list Z) :
  (1 <= degree b)%nat -> coef b (degree b) = 1 ->
  (degree a + 1 <= degree b + fuel)%nat ->
  exists r, GF.divmodPoly_loop F fuel b (a, []) = Ok r
    /\ GF.isFactor F fuel a b = Ok (count_nonzero (fst r) =? 0)%nat.
Proof.
  intros Hdeg Hmonic Hfuel.
  destruct (divmodPoly_loop_monic p Hprim F Hinit b Hdeg Hmonic
              fuel fuel (a, []))
    as (r & Hloop & _); [cbn [fst]; lia|lia|].
  exists r. split; [exact Hloop|].
  unfold GF.isFactor, GF.modPoly, GF.divmodPoly.
  destruct (lookup_at_degree b) as (cb & Hcb & Hnz); [lia|].
  pose proof (count_nonzero_pos b _ _ Hcb Hnz).
  destruct (Nat.eqb_spec (count_nonzero b) 0); [contradiction|].
  rewrite Hloop. reflexivity.
Qed.

Lemma isFactor_returns (fuel : nat) (a b : list Z) :
  (1 <= degree b)%nat -> coef b (degree b) = 1 ->
  (degree a + 1 <= degree b + fuel)%nat ->
  exists r, GF.isFactor F fuel a b = Ok r.
Proof.
  intros Hdeg Hmonic Hfuel.
  destruct (isFactor_monic fuel a b Hdeg Hmonic Hfuel) as (r & _ & H).
  eexists. exact H.
Qed.

(** A polynomial of lower degree than the divisor is returned as the
    remainder at once. *)
Lemma isFactor_low_degree (fuel : nat) (a b : list Z) :
  (degree a < degree b)%nat ->
  GF.isFactor F fuel a b = Ok (count_nonzero a =? 0)%nat.
Proof.
  intros Hlt. unfold GF.isFactor, GF.modPoly, GF.divmodPoly.
  destruct (lookup_at_degree b) as (cb & Hcb & Hnz); [lia|].
  pose proof (count_nonzero_pos b _ _ Hcb Hnz).
  destruct (Nat.eqb_spec (count_nonzero b) 0); [contradiction|].
  assert (GF.divmodPoly_loop F fuel b (a, []) = Ok (a, [])) as ->.
  { destruct fuel; simpl;
      (destruct (Nat.ltb_spec (degree a) (degree b)); [reflexivity|lia]). }
  reflexivity.
Qed.

Lemma irreducible_loop_total (fuel : nat) (poly : list Z)
      (tbl : list (list Z)) :
  (degree poly <= fuel)%nat -> Forall binary tbl ->
  exists r, GF.irreducible_loop F fuel poly tbl = Ok r
    /\ (r = false <->
        exists f, f ∈ tbl /\ (0 < degree f < GF.m F)%nat
                  /\ GF.isFactor F fuel poly f = Ok true).
Proof.
  intros Hfuel Htbl. induction Htbl as [|f tbl Hf _ IH].
  - exists true. split; [reflexivity|]. split; [discriminate|].
    intros (f & Hin & _). apply elem_of_nil in Hin. contradiction.
  - destruct IH as (r & Hr & Hiff). simpl GF.irreducible_loop.
    destruct ((0 <? degree f)%nat && (degree f <? GF.m F)%nat) eqn:E;
      cbn [negb].
    + apply andb_true_iff in E as [E1 E2].
      apply Nat.ltb_lt in E1. apply Nat.ltb_lt in E2.
      destruct (isFactor_returns fuel poly f) as (x & Hx);
        [lia|apply binary_monic; assumption|lia|].
      rewrite Hx. cbn [bind]. destruct x.
      * exists false. split; [reflexivity|]. split; [|reflexivity].
        intros _. exists f. split; [left|]. split; [lia|exact Hx].
      * exists r. split; [exact Hr|]. rewrite Hiff. split.
        -- intros (g & Hg & Hd & Hfac). exists g.
           split; [right; exact Hg|]. split; assumption.
        -- intros (g & Hg & Hd & Hfac). apply elem_of_cons in Hg as [->|Hg].
           ++ congruence.
           ++ exists g. split; [exact Hg|]. split; assumption.
    + exists r. split; [exact Hr|]. rewrite Hiff. split.
      * intros (g & Hg & Hd & Hfac). exists g.
        split; [right; exact Hg|]. split; assumption.
      * intros (g & Hg & Hd & Hfac). apply elem_of_cons in Hg as [->|Hg].
        -- apply andb_false_iff in E as [E|E]; apply Nat.ltb_ge in E; lia.
        -- exists g. split; [exact Hg|]. split; assumption.
Qed.

Lemma table_binary : Forall binary (_cachedPolyElements F).
Proof.
  destruct (field_table p Hprim F Hinit) as (_ & -> & _).
  rewrite Forall_forall. apply power_table_binary.
Qed.

Lemma irreducible_total (fuel : nat) (poly : list Z) :
  (degree poly <= fuel)%nat ->
  exists r, GF.irreducible F fuel poly = Ok r
    /\ (r = false <->
        exists f, f ∈ _cachedPolyElements F /\ (0 < degree f < GF.m F)%nat
                  /\ GF.isFactor F fuel poly f = Ok true).
Proof.
  intros Hfuel. apply (irreducible_loop_total fuel poly _ Hfuel table_binary).
Qed.

(** A nonzero constant has no factor of positive degree. *)
Lemma irreducible_constant (fuel : nat) (poly : list Z) (tbl : list (list Z)) :
  degree poly = 0%nat -> coef poly 0 <> 0 ->
  GF.irreducible_loop F fuel poly tbl = Ok true.
Proof.
  intros Hd Hc. induction tbl as [|f tbl IH]; [reflexivity|].
  simpl GF.irreducible_loop.
  destruct ((0 <? degree f)%nat && (degree f <? GF.m F)%nat) eqn:E;
    cbn [negb]; [|exact IH].
  apply andb_true_iff in E as [E1 _]. apply Nat.ltb_lt in E1.
  rewrite isFactor_low_degree by lia. cbn [bind].
  assert (count_nonzero poly <> 0%nat) as Hnz.
  { apply (count_nonzero_pos poly 0 (coef poly 0)); [|exact Hc].
    apply lookup_coef. destruct poly; [contradiction Hc; reflexivity|].
    simpl. lia. }
  destruct (Nat.eqb_spec (count_nonzero poly) 0); [contradiction|].
  exact IH.
Qed.

(** ** Division by a constant never leaves the loop *)

Lemma divElements_total (a b : Z) :
  b <> 0 -> exists d, GF.divElements F a b = Ok d.
Proof.
  intros Hb. destruct (field_table p Hprim F Hinit) as (_ & _ & _ & Hq).
  destruct (Z.eq_dec a 0) as [->|Ha].
  - exists 0. apply (divElements_zero_dividend F Hq b Hb).
  - eexists. apply (divElements_closed F Hq a b Ha Hb).
Qed.

Lemma divmodPoly_body_total (a q b : list Z) :
  a <> [] -> b <> [] -> coef b (degree b) <> 0 ->
  exists a' q', GF.divmodPoly_body F b (a, q) = Ok (a', q') /\ a' <> [].
Proof.
  intros Ha Hb Hbtop.
  pose proof (degree_lt_length a Ha). pose proof (degree_lt_length b Hb).
  destruct (divElements_total (coef a (degree a)) (coef b (degree b)) Hbtop)
    as (d & Hd).
  set (multiplier :=
         <[(degree a - degree b)%nat := d]>
           (replicate (degree a - degree b + 1) 0)).
  assert (Hmne : multiplier <> []).
  { intros E. apply (f_equal length) in E. unfold multiplier in E.
    rewrite length_insert, length_replicate in E. simpl in E. lia. }
  destruct (multPoly_total p Hprim F Hinit b multiplier Hb Hmne)
    as (subtrahend & _ & Hsub & _).
  destruct (addPoly_total p Hprim F Hinit a subtrahend (or_introl Ha))
    as (a' & Ha' & Hlen' & _).
  destruct (addPoly_total p Hprim F Hinit q multiplier (or_intror Hmne))
    as (q' & Hq' & _).
  exists a', q'. split.
  - unfold GF.divmodPoly_body.
    rewrite (idx_coef a (degree a)), (idx_coef b (degree b)) by lia.
    cbn [bind]. rewrite Hd. cbn [bind]. fold multiplier.
    rewrite Hsub. cbn [bind]. rewrite Ha'. cbn [bind]. rewrite Hq'.
    reflexivity.
  - intros E. rewrite E in Hlen'. simpl in Hlen'. lia.
Qed.

Lemma divmodPoly_loop_constant (fuel : nat) (a q b : list Z) :
  a <> [] -> degree b = 0%nat -> coef b 0 <> 0 ->
  GF.divmodPoly_loop F fuel b (a, q) = OutOfFuel.
Proof.
  intros Ha Hd Hb0. revert a q Ha.
  induction fuel as [|fuel IH]; intros a q Ha.
  - simpl. rewrite Hd. destruct (Nat.ltb_spec (degree a) 0); [lia|].
    reflexivity.
  - change (GF.divmodPoly_loop F (S fuel) b (a, q))
      with (if (degree a <? degree b)%nat then Ok (a, q)
            else let* st' := GF.divmodPoly_body F b (a, q) in
                 GF.divmodPoly_loop F fuel b st').
    rewrite Hd. destruct (Nat.ltb_spec (degree a) 0); [lia|].
    destruct (divmodPoly_body_total a q b Ha) as (a' & q' & Hbody & Ha').
    + intros ->. apply Hb0. reflexivity.
    + rewrite Hd. exact Hb0.
    + rewrite Hbody. cbn [bind]. apply IH, Ha'.
Qed.

Lemma isFactor_constant (fuel : nat) (a b : list Z) :
  a <> [] -> degree b = 0%nat -> coef b 0 <> 0 ->
  GF.isFactor F fuel a b = OutOfFuel.
Proof.
  intros Ha Hd Hb0. unfold GF.isFactor, GF.modPoly, GF.divmodPoly.
  assert (count_nonzero b <> 0%nat) as Hnz.
  { apply (count_nonzero_pos b 0 (coef b 0)); [|exact Hb0].
    apply lookup_coef. destruct b; [contradiction Hb0; reflexivity|].
    simpl. lia. }
  destruct (Nat.eqb_spec (count_nonzero b) 0); [contradiction|].
  rewrite (divmodPoly_loop_constant fuel a [] b Ha Hd Hb0). reflexivity.
Qed.

Lemma primitive_loop_total (fuel : nat) (poly : list Z) (ns : list nat) :
  (1 <= degree poly)%nat -> coef poly (degree poly) = 1 ->
  Forall (fun n => (n <= fuel)%nat) ns ->
  exists r, GF.primitive_loop F fuel poly ns = Ok r.
Proof.
  intros Hdeg Hmonic Hns. induction Hns as [|n ns Hn _ IH].
  - exists true. reflexivity.
  - simpl GF.primitive_loop.
    destruct (addPoly_total p Hprim F Hinit (X 0) (X n))
      as (p2 & Hp2 & Hlen & _).
    { left. apply X_nonempty. }
    rewrite Hp2. cbn [bind]. rewrite !degree_X in Hlen.
    replace (Nat.max 0 n + 1)%nat with (S n) in Hlen by lia.
    pose proof (degree_le_index p2 n Hlen).
    destruct (isFactor_returns fuel p2 poly Hdeg Hmonic) as (x & Hx); [lia|].
    rewrite Hx. cbn [bind]. destruct x; [exists false; reflexivity|exact IH].
Qed.

End FactorTests.

(** X28: in a field built from a primitive polynomial, irreducible(p)
    returns for every p (each candidate factor from the table is monic,
    so each division takes at most degree(p) passes), and it returns False
    exactly when some table entry of degree strictly between 0 and m
    leaves a zero remainder. *)
Theorem irreducible_returns (p : list Z) (F : GaloisField) (poly : list Z)
        (fuel : nat) :
  primitiveb p = true ->
  GaloisField_init p = Ok F ->
  Nat.le (degree poly) fuel ->
  exists r, GF.irreducible F fuel poly = Ok r
    /\ (r = false <->
        exists f, f ∈ GF.elementsAsPoly F
                  /\ Nat.lt 0 (degree f) /\ Nat.lt (degree f) (GF.m F)
                  /\ GF.isFactor F fuel poly f = Ok true).
Proof.
  intros Hprim Hinit Hfuel.
  destruct (irreducible_total p Hprim F Hinit fuel poly Hfuel)
    as (r & Hr & Hiff).
  exists r. split; [exact Hr|]. rewrite Hiff. unfold GF.elementsAsPoly.
  split; intros (f & Hf & Hd & Hfac); exists f.
  - split; [exact Hf|]. split; [apply Hd|]. split; [apply Hd|exact Hfac].
  - destruct Hfac as (Hd2 & Hfac). split; [exact Hf|].
    split; [split; assumption|exact Hfac].
Qed.

Lemma irreducible_returns_witness :
  primitiveb p16 = true /\ GaloisField_init p16 = Ok GF16
  /\ Nat.le (degree [1; 0; 1]) 2
  /\ exists r, GF.irreducible GF16 2 [1; 0; 1] = Ok r
    /\ (r = false <->
        exists f, f ∈ GF.elementsAsPoly GF16
                  /\ Nat.lt 0 (degree f) /\ Nat.lt (degree f) (GF.m GF16)
                  /\ GF.isFactor GF16 2 [1; 0; 1] f = Ok true).
Proof.
  split; [vm_compute; reflexivity|].
  split; [vm_compute; reflexivity|].
  split; [vm_compute; lia|].
  apply (irreducible_returns p16 GF16 [1; 0; 1] 2).
  - vm_compute; reflexivity.
  - vm_compute; reflexivity.
  - vm_compute; lia.
Defined.

(** X29: in a field built from a primitive polynomial with m >= 2,
    primitive(p) returns for every monic p of degree at least 1, but never
    returns for a nonzero constant p: irreducible(p) says True, and the
    first test isFactor(1 + X, p) divides by a constant. *)
Theorem primitive_method (p : list Z) (F : GaloisField) (poly : list Z)
        (fuel : nat) :
  primitiveb p = true ->
  GaloisField_init p = Ok F ->
  (Nat.le 1 (degree poly) -> coef poly (degree poly) = 1 ->
   Nat.le (degree poly) fuel -> Nat.le (2 ^ GF.m F - 2) fuel ->
   exists r, GF.primitive F fuel poly = Ok r)
  /\ (degree poly = 0%nat -> coef poly 0 <> 0 -> Nat.le 2 (GF.m F) ->
      GF.irreducible F fuel poly = Ok true
      /\ GF.primitive F fuel poly = OutOfFuel).
Proof.
  intros Hprim Hinit. unfold Nat.le. split.
  - intros Hdeg Hmonic Hf1 Hf2.
    destruct (irreducible_total p Hprim F Hinit fuel poly Hf1)
      as (irr & Hirr & _).
    unfold GF.primitive. rewrite Hirr. cbn [bind].
    destruct irr; cbn [negb]; [|exists false; reflexivity].
    apply (primitive_loop_total p Hprim F Hinit fuel poly _ Hdeg Hmonic).
    rewrite Forall_forall. intros n Hn.
    apply list_elem_of_In, in_seq in Hn. lia.
  - intros Hd Hc Hm.
    assert (Hirr : GF.irreducible F fuel poly = Ok true)
      by apply (irreducible_constant F fuel poly _ Hd Hc).
    split; [exact Hirr|].
    unfold GF.primitive. rewrite Hirr. cbn [bind negb].
    assert (4 <= 2 ^ GF.m F)%nat as Hpow.
    { change 4%nat with (2 ^ 2)%nat. apply Nat.pow_le_mono_r; lia. }
    destruct (2 ^ GF.m F - 2)%nat as [|k] eqn:Ek; [lia|].
    cbn [seq GF.primitive_loop].
    destruct (addPoly_total p Hprim F Hinit (X 0) (X 1))
      as (p2 & Hp2 & Hlen & _).
    { left. apply X_nonempty. }
    rewrite Hp2. cbn [bind].
    rewrite (isFactor_constant p Hprim F Hinit fuel p2 poly); [reflexivity| |exact Hd|exact Hc].
    intros E. rewrite E in Hlen. simpl in Hlen. lia.
Qed.

Lemma primitive_method_witness :
  primitiveb p16 = true /\ GaloisField_init p16 = Ok GF16
  /\ (Nat.le 1 (degree [1; 1; 0; 0; 1]) ->
      coef [1; 1; 0; 0; 1] (degree [1; 1; 0; 0; 1]) = 1 ->
      Nat.le (degree [1; 1; 0; 0; 1]) 14 -> Nat.le (2 ^ GF.m GF16 - 2) 14 ->
      exists r, GF.primitive GF16 14 [1; 1; 0; 0; 1] = Ok r)
  /\ (degree [1; 1; 0; 0; 1] = 0%nat -> coef [1; 1; 0; 0; 1] 0 <> 0 ->
      Nat.le 2 (GF.m GF16) ->
      GF.irreducible GF16 14 [1; 1; 0; 0; 1] = Ok true
      /\ GF.primitive GF16 14 [1; 1; 0; 0; 1] = OutOfFuel).
Proof.
  split; [vm_compute; reflexivity|].
  split; [vm_compute; reflexivity|].
  apply (primitive_method p16 GF16 [1; 1; 0; 0; 1] 14);
    vm_compute; reflexivity.
Defined.

(** In GF(16), primitive([1]) does not return whatever the fuel given. *)
Example primitive_constant_GF16 :
  GF.irreducible GF16 5 [1] = Ok true /\ GF.primitive GF16 5 [1] = OutOfFuel.
Proof. split; vm_compute; reflexivity. Qed.

(** ** The conjugate root groups cover the field *)

Lemma existsb_list_Z_eqb_true (g : list Z) (gs : list (list Z)) :
  existsb (list_Z_eqb g) gs = true -> g ∈ gs.
Proof.
  intros H. apply existsb_exists in H as (g' & Hin & E).
  unfold list_Z_eqb in E. apply bool_decide_eq_true_1 in E. subst g'.
  apply list_elem_of_In, Hin.
Qed.

Section ConjugateGroups.

Variable p0 : list Z.
Variable F : GaloisField.
Hypothesis Hinit : GaloisField_init p0 = Ok F.

(** Once the root comes back the conjugates repeat. *)
Lemma conjugate_period (root : Z) (k : nat) (l : Z) :
  0 <= l -> conjugate F root (Z.of_nat k) = root ->
  conjugate F root (l + Z.of_nat k) = conjugate F root l.
Proof.
  intros Hl Hk. destruct (GaloisField_init_q p0 F Hinit) as (_ & _ & _ & Hq).
  unfold conjugate in *. destruct (Z.eqb_spec root 0); [reflexivity|].
  f_equal. rewrite Z.pow_add_r by lia.
  replace ((root - 1) * (2 ^ l * 2 ^ Z.of_nat k))
    with (((root - 1) * 2 ^ Z.of_nat k) * 2 ^ l) by ring.
  rewrite <- Z.mul_mod_idemp_l by lia.
  replace (((root - 1) * 2 ^ Z.of_nat k) mod (GF.q F - 1))
    with (root - 1) by lia.
  reflexivity.
Qed.

Lemma conjugate_periods (root : Z) (k t : nat) (l : Z) :
  0 <= l -> conjugate F root (Z.of_nat k) = root ->
  conjugate F root (l + Z.of_nat (t * k)) = conjugate F root l.
Proof.
  intros Hl Hk. induction t as [|t IH].
  - simpl. f_equal. lia.
  - replace (l + Z.of_nat (S t * k))
      with ((l + Z.of_nat (t * k)) + Z.of_nat k) by lia.
    rewrite conjugate_period by (try exact Hk; lia). exact IH.
Qed.

(** The members of a group are the conjugates of its root. *)
Lemma conjugateRoots_members (root : Z) (fuel : nat) :
  0 <= root < GF.q F -> (degree p0 <= fuel)%nat ->
  exists g, GF.conjugateRoots F fuel root = Ok g
    /\ root ∈ g
    /\ (forall x, x ∈ g -> 0 <= x < GF.q F)
    /\ (forall l, 0 <= l -> conjugate F root l ∈ g).
Proof.
  intros Hr Hfuel.
  destruct (conjugateRoots_group p0 F Hinit root fuel Hr Hfuel)
    as (k & g & Hk & Hg & Hperm & Hstop).
  assert (Hmem : forall x, x ∈ g <->
            exists i, (1 <= i <= k)%nat /\ x = conjugate F root (Z.of_nat i)).
  { intros x. rewrite Hperm, list_elem_of_fmap. split.
    - intros (i & -> & Hi). apply list_elem_of_In, in_seq in Hi.
      exists i. split; [lia|reflexivity].
    - intros (i & Hi & ->). exists i. split; [reflexivity|].
      apply list_elem_of_In, in_seq. lia. }
  exists g. split; [exact Hg|].
  split; [apply Hmem; exists k; split; [lia|symmetry; exact Hstop]|].
  split.
  - intros x Hx. apply Hmem in Hx as (i & _ & ->).
    apply (conj_range p0 F Hinit).
  - intros l Hl. apply Hmem.
    destruct (Z.eq_dec l 0) as [->|Hl0].
    + exists k. split; [lia|].
      rewrite Hstop. unfold conjugate.
      destruct (Z.eqb_spec root 0) as [->|Hn]; [reflexivity|].
      rewrite Z.pow_0_r, Z.mul_1_r, Z.mod_small by lia. lia.
    + set (a := (Z.to_nat l - 1)%nat).
      exists (a mod k + 1)%nat.
      assert (a mod k < k)%nat by (apply Nat.mod_upper_bound; lia).
      split; [lia|].
      rewrite <- (conjugate_periods root k (a / k)
                    (Z.of_nat (a mod k + 1)) ltac:(lia) Hstop).
      f_equal. pose proof (Nat.div_mod_eq a k). unfold a in *. nia.
Qed.

(** The loop of conjugateRootGroups keeps every group it has and files the
    group of every root it visits. *)
Lemma conjugateRootGroups_loop (fuel : nat) (xs : list nat)
      (groups : list (list Z)) :
  (degree p0 <= fuel)%nat ->
  Forall (fun i => 0 <= Z.of_nat i < GF.q F) xs ->
  exists groups',
    foldM (fun groups i =>
             let* group := GF.conjugateRoots F fuel (Z.of_nat i) in
             if existsb (list_Z_eqb group) groups then Ok groups
             else Ok (groups ++ [group])) xs groups = Ok groups'
    /\ (forall g, g ∈ groups -> g ∈ groups')
    /\ (forall i, i ∈ xs ->
          exists g, GF.conjugateRoots F fuel (Z.of_nat i) = Ok g
                    /\ g ∈ groups')
    /\ (forall g, g ∈ groups' ->
          g ∈ groups
          \/ exists i, i ∈ xs /\ GF.conjugateRoots F fuel (Z.of_nat i) = Ok g).
Proof.
  intros Hfuel Hxs. revert groups.
  induction Hxs as [|i xs Hi _ IH]; intros groups.
  - exists groups. split; [reflexivity|]. split; [auto|].
    split; [intros i Hi; apply elem_of_nil in Hi; contradiction|].
    intros g Hg. left. exact Hg.
  - destruct (conjugateRoots_members (Z.of_nat i) fuel Hi Hfuel)
      as (g & Hg & _).
    cbn [foldM]. rewrite Hg. cbn [bind].
    destruct (existsb (list_Z_eqb g) groups) eqn:Ex.
    + apply existsb_list_Z_eqb_true in Ex.
      destruct (IH groups) as (groups' & Hfold & Hkeep & Hnew & Hold).
      exists groups'. split; [exact Hfold|]. split; [exact Hkeep|]. split.
      * intros j Hj. apply elem_of_cons in Hj as [->|Hj].
        -- exists g. split; [exact Hg|]. apply Hkeep, Ex.
        -- apply Hnew, Hj.
      * intros g' Hg'. destruct (Hold g' Hg') as [H|(j & Hj & H)].
        -- left. exact H.
        -- right. exists j. split; [right; exact Hj|exact H].
    + destruct (IH (groups ++ [g])) as (groups' & Hfold & Hkeep & Hnew & Hold).
      exists groups'. split; [exact Hfold|]. split.
      { intros g' Hg'. apply Hkeep, elem_of_app. left. exact Hg'. }
      split.
      * intros j Hj. apply elem_of_cons in Hj as [->|Hj].
        -- exists g. split; [exact Hg|].
           apply Hkeep, elem_of_app. right. left.
        -- apply Hnew, Hj.
      * intros g' Hg'. destruct (Hold g' Hg') as [H|(j & Hj & H)].
        -- apply elem_of_app in H as [H|H]; [left; exact H|].
           apply list_elem_of_singleton in H. subst g'.
           right. exists i. split; [left|exact Hg].
        -- right. exists j. split; [right; exact Hj|exact H].
Qed.

End ConjugateGroups.

(** X30: in a constructed field conjugateRootGroups() returns (m passes of
    the inner loop suffice), every member of a group is a canonical
    element, and every element 0 .. q-2 lies in some group; when m >= 2 the
    last element q-1 lies in the group of q-2, so the groups cover the
    whole field. *)
Theorem conjugateRootGroups_cover (p : list Z) (F : GaloisField)
        (fuel : nat) :
  GaloisField_init p = Ok F ->
  Nat.le (degree p) fuel ->
  exists gs,
    GF.conjugateRootGroups F fuel = Ok gs
    /\ (forall x, 0 <= x < GF.q F - 1 -> exists g, g ∈ gs /\ x ∈ g)
    /\ (Nat.le 2 (degree p) -> exists g, g ∈ gs /\ (GF.q F - 1) ∈ g)
    /\ (forall g x, g ∈ gs -> x ∈ g -> 0 <= x < GF.q F).
Proof.
  intros Hinit Hfuel. unfold Nat.le in *.
  destruct (GaloisField_init_q p F Hinit) as (Hp & Hdeg & Hq & Hq2).
  assert (Hm : GF.m F = degree p)
    by (unfold GF.m, GF.p; rewrite Hp; reflexivity).
  assert (HqN : Z.of_nat (2 ^ degree p) = GF.q F)
    by (rewrite Hq, Nat2Z.inj_pow; reflexivity).
  assert (Hrange : Forall (fun i => 0 <= Z.of_nat i < GF.q F)
                          (seq 0 (2 ^ GF.m F - 1))).
  { rewrite Forall_forall. intros i Hi.
    apply list_elem_of_In, in_seq in Hi. rewrite Hm in Hi. lia. }
  destruct (conjugateRootGroups_loop p F Hinit fuel _ [[0]] Hfuel Hrange)
    as (gs & Hgs & Hkeep & Hnew & Hold).
  assert (Hcov : forall x, 0 <= x < GF.q F - 1 ->
            exists g, GF.conjugateRoots F fuel x = Ok g /\ g ∈ gs).
  { intros x Hx. destruct (Hnew (Z.to_nat x)) as (g & Hg & Hin).
    - apply list_elem_of_In, in_seq. rewrite Hm. lia.
    - rewrite Z2Nat.id in Hg by lia. exists g. split; assumption. }
  exists gs. split; [exact Hgs|]. split; [|split].
  - intros x Hx. destruct (Hcov x Hx) as (g & Hg & Hin).
    exists g. split; [exact Hin|].
    destruct (conjugateRoots_members p F Hinit x fuel) as (g' & Hg' & Hroot & _);
      [lia|exact Hfuel|].
    assert (g' = g) by congruence. subst g'. exact Hroot.
  - intros Hm2.
    assert (4 <= 2 ^ degree p)%nat as Hpow.
    { change 4%nat with (2 ^ 2)%nat. apply Nat.pow_le_mono_r; lia. }
    destruct (Hcov (GF.q F - 2)) as (g & Hg & Hin); [lia|].
    exists g. split; [exact Hin|].
    destruct (conjugateRoots_members p F Hinit (GF.q F - 2) fuel)
      as (g' & Hg' & _ & _ & Hconj); [lia|exact Hfuel|].
    assert (g' = g) by congruence. subst g'.
    replace (GF.q F - 1)
      with (conjugate F (GF.q F - 2) (Z.of_nat (degree p - 1))).
    { apply Hconj. lia. }
    unfold conjugate. destruct (Z.eqb_spec (GF.q F - 2) 0); [lia|].
    assert (2 * 2 ^ Z.of_nat (degree p - 1) = GF.q F) as Hhalf.
    { rewrite Hq. replace (Z.of_nat (degree p))
        with (Z.succ (Z.of_nat (degree p - 1))) by lia.
      rewrite Z.pow_succ_r by lia. reflexivity. }
    replace ((GF.q F - 2 - 1) * 2 ^ Z.of_nat (degree p - 1))
      with ((GF.q F - 2) + (2 ^ Z.of_nat (degree p - 1) - 2) * (GF.q F - 1))
      by nia.
    rewrite Z_mod_plus_full, Z.mod_small by lia. lia.
  - intros g x Hg Hx. destruct (Hold g Hg) as [H|(i & Hi & H)].
    + apply list_elem_of_singleton in H. subst g.
      apply list_elem_of_singleton in Hx. lia.
    + rewrite Forall_forall in Hrange. specialize (Hrange i Hi).
      destruct (conjugateRoots_members p F Hinit (Z.of_nat i) fuel Hrange Hfuel)
        as (g' & Hg' & _ & Hcan & _).
      assert (g' = g) by congruence. subst g'. apply Hcan, Hx.
Qed.

Lemma conjugateRootGroups_cover_witness :
  GaloisField_init p16 = Ok GF16 /\ Nat.le (degree p16) 4
  /\ exists gs,
    GF.conjugateRootGroups GF16 4 = Ok gs
    /\ (forall x, 0 <= x < GF.q GF16 - 1 -> exists g, g ∈ gs /\ x ∈ g)
    /\ (Nat.le 2 (degree p16) -> exists g, g ∈ gs /\ (GF.q GF16 - 1) ∈ g)
    /\ (forall g x, g ∈ gs -> x ∈ g -> 0 <= x < GF.q GF16).
Proof.
  split; [vm_compute; reflexivity|].
  split; [vm_compute; lia|].
  apply (conjugateRootGroups_cover p16 GF16 4).
  - vm_compute; reflexivity.
  - vm_compute; lia.
Defined.

(** In GF(16) the integer 16 denotes the same element as 1, but
    conjugateRoots(16) does not return: no conjugate equals 16. *)
Example conjugateRoots_out_of_range_GF16 :
  GF.conjugateRoots GF16 50 16 = OutOfFuel
  /\ GF.conjugateRoots GF16 50 1 = Ok [1].
Proof. split; vm_compute; reflexivity. Qed.
